(** * Low-rank ADI Lyapunov solver of pyMOR: a shallow embedding

    The development follows [src/pymor/algorithms/lyapunov.py]:
    [solve_lyap], [lyap_solver_options], [lradi], [projection_shifts_init],
    [projection_shifts] and [_solve_lyap_check_args].

    - NumPy [float64] values are Rocq's primitive binary64 floats, complex
      values are pairs of them, Python integers are [Z].
    - Operators and vector arrays are pyMOR interfaces implemented outside
      this module; they enter as a type class.
    - Exceptions, the global NumPy random state and the observable calls
      (solves, eigenvalue computations, log records) are threaded through a
      small state-and-error monad.
    - A routine of pyMOR, NumPy or SciPy that raises on some of its inputs
      returns an [outcome]. *)

From Stdlib Require Import Floats ZArith List Bool String Lia.
Import ListNotations.

Set Implicit Arguments.
Set Warnings "-inexact-float,-register-all".
Local Open Scope Z_scope.

(** ** Numbers *)

(** A NumPy [complex128] value with its [.real] and [.imag] attributes. *)
Record complex : Set := Complex { real : float; imag : float }.

(** The Python numbers that appear as operator coefficients and seeds. *)
Inductive number : Set :=
| Int (z : Z)
| Float (x : float)
| Cplx (c : complex).

(** [x < 0], [x > 0] and [x == 0] on [float64] (false on NaN). *)
Definition lt0 (x : float) : bool := PrimFloat.ltb x 0%float.
Definition gt0 (x : float) : bool := PrimFloat.ltb 0%float x.
Definition eq0 (x : float) : bool := PrimFloat.eqb x 0%float.

(** [float(i)] for the small non-negative integers the code converts. *)
Definition float_of_Z (i : Z) : float := PrimFloat.of_uint63 (Uint63.of_Z i).

(** The test [np.real(s) < 0] that selects the stable eigenvalues. *)
Definition stable (s : complex) : bool := lt0 (real s).

(** ** Exceptions and the effect monad *)

Inductive exn : Set :=
| ValueError (msg : string)
| RuntimeError (msg : string)
| KeyError (key : string)
| IndexError
| AssertionError
| TypeError
| InversionError
| AccuracyError
| LinAlgError.

(** Outcome of a computation: a value, a raised exception, or the bound on
    the number of loop iterations of the model was reached. *)
Inductive result (A : Type) : Type :=
| Ok (a : A)
| Raise (e : exn)
| OutOfFuel.
Arguments Raise {A} e.
Arguments OutOfFuel {A}.

(** Outcome of a call into code outside this module: it returns or raises. *)
Inductive outcome (A : Type) : Type :=
| Returns (a : A)
| Raises (e : exn).
Arguments Raises {A} e.

Definition of_outcome {A} (o : outcome A) : result A :=
  match o with
  | Returns a => Ok a
  | Raises e => Raise e
  end.

Definition rbind {A B} (r : result A) (f : A -> result B) : result B :=
  match r with
  | Ok a => f a
  | Raise e => Raise e
  | OutOfFuel => OutOfFuel
  end.

Notation "x <~ c ;; k" := (rbind c (fun x => k))
  (at level 61, c at next level, right associativity).

(** ** Python sequences *)

(** Python index normalisation for a sequence of length [n]: negative
    indices count from the end, anything outside [-n, n) raises
    [IndexError]. *)
Definition index (n : nat) (i : Z) : result nat :=
  let k := if i <? 0 then Z.of_nat n + i else i in
  if (0 <=? k) && (k <? Z.of_nat n) then Ok (Z.to_nat k) else Raise IndexError.

(** [a[i]] for a NumPy array or a list. *)
Definition getitem {A} (a : list A) (i : Z) : result A :=
  rbind (index (List.length a) i)
        (fun k => match nth_error a k with
                  | Some x => Ok x
                  | None => Raise IndexError
                  end).

(** [d[key]] for a dict with string keys. *)
Fixpoint dict_get {A} (d : list (string * A)) (key : string) : result A :=
  match d with
  | [] => Raise (KeyError key)
  | (k, v) :: d' => if String.eqb k key then Ok v else dict_get d' key
  end.

(** [np.where(mask)[0]] for the mask [p] over the entries of [a]. *)
Fixpoint where_from {A} (p : A -> bool) (a : list A) (i : Z) : list Z :=
  match a with
  | [] => []
  | x :: a' => if p x then i :: where_from p a' (i + 1)
               else where_from p a' (i + 1)
  end.
Definition np_where {A} (p : A -> bool) (a : list A) : list Z :=
  where_from p a 0.

(** A shift sequence in which the conjugate pairs are adjacent, the member
    with positive imaginary part first, as LAPACK orders the eigenvalues of a
    real pencil: an entry with zero imaginary part stands alone, any other
    entry must not have negative imaginary part and must be followed by one
    that has. *)
Fixpoint well_paired (l : list complex) : bool :=
  match l with
  | [] => true
  | c :: l' =>
      if lt0 (imag c) then false
      else if eq0 (imag c) then well_paired l'
      else match l' with
           | c' :: l'' => lt0 (imag c') && well_paired l''
           | [] => false
           end
  end.

(** ** Dense real matrices built entry by entry *)

Definition rows : Set := list (list float).

(** [np.zeros((n, m))]. *)
Definition zeros (n m : Z) : result rows :=
  if (n <? 0) || (m <? 0)
  then Raise (ValueError "negative dimensions are not allowed")
  else Ok (repeat (repeat 0%float (Z.to_nat m)) (Z.to_nat n)).

Fixpoint set_nth {A} (n : nat) (x : A) (l : list A) : list A :=
  match l, n with
  | [], _ => []
  | _ :: l', O => x :: l'
  | y :: l', S n' => y :: set_nth n' x l'
  end.

(** [a[i, k] = v]. *)
Definition setitem2 (a : rows) (i k : Z) (v : float) : result rows :=
  i' <~ index (List.length a) i ;;
  match nth_error a i' with
  | Some row =>
      k' <~ index (List.length row) k ;;
      Ok (set_nth i' (set_nth k' v row) a)
  | None => Raise IndexError
  end.

(** [a[i, ks - d] = f(prev_shifts[ks])] for an index array [ks]. *)
Fixpoint assign_row (a : rows) (i d : Z) (f : float -> float)
    (prev_shifts : list complex) (ks : list Z) : result rows :=
  match ks with
  | [] => Ok a
  | k :: ks' =>
      s <~ getitem prev_shifts k ;;
      a' <~ setitem2 a i (k - d) (f (real s)) ;;
      assign_row a' i d f prev_shifts ks'
  end.

(** [a[i: i + 2, i: i + 2] = [[b00, b01], [b10, b11]]]: the slices are cut
    at the border of [a], and a 2 x 2 value does not fit a smaller target. *)
Definition setblock2 (a : rows) (i : Z) (b00 b01 b10 b11 : float) : result rows :=
  if i + 2 <=? Z.of_nat (List.length a) then
    a <~ setitem2 a i i b00 ;;
    a <~ setitem2 a i (i + 1) b01 ;;
    a <~ setitem2 a (i + 1) i b10 ;;
    setitem2 a (i + 1) (i + 1) b11
  else Raise (ValueError "could not broadcast input array").

(** ** Solver options ([lyap_solver_options]) *)

Record ShiftOptions : Set := {
  so_type : string;
  z_columns : Z;
  init_maxiter : Z;
  init_seed : option Z;
  implicit_subspace : bool
}.

Record Options : Set := {
  o_type : string;
  tol : float;
  maxiter : Z;
  shifts : string;
  shift_options : list (string * ShiftOptions)
}.

Definition lyap_solver_options_with
    (lradi_tol : float) (lradi_maxiter : Z) (lradi_shifts : string)
    (projection_shifts_z_columns projection_shifts_init_maxiter : Z)
    (projection_shifts_init_seed : option Z)
    (projection_shifts_implicit_subspace : bool) : list (string * Options) :=
  [("lradi"%string,
    {| o_type := "lradi";
       tol := lradi_tol;
       maxiter := lradi_maxiter;
       shifts := lradi_shifts;
       shift_options :=
         [("projection_shifts"%string,
           {| so_type := "projection_shifts";
              z_columns := projection_shifts_z_columns;
              init_maxiter := projection_shifts_init_maxiter;
              init_seed := projection_shifts_init_seed;
              implicit_subspace := projection_shifts_implicit_subspace |})] |})].

(** The keyword defaults of [lyap_solver_options]. *)
Definition lyap_solver_options : list (string * Options) :=
  lyap_solver_options_with 1e-10%float 500 "projection_shifts" 1 20 None true.

(** ** The operator and vector-array interfaces *)

(** An operator handed to the solver, or one of the two pyMOR constructions
    the solver builds itself. *)
Inductive Operator (Space Base : Type) : Type :=
| Given (b : Base)
| IdentityOperator (space : Space)
| LincombOperator (operators : list (Operator Space Base))
                  (coefficients : list number).
Arguments Given {Space Base} b.
Arguments IdentityOperator {Space Base} space.
Arguments LincombOperator {Space Base} operators coefficients.

(** Everything [lyapunov.py] calls but does not define: pyMOR's vector
    spaces, vector arrays and operators, [gram_schmidt], [_parse_options],
    and the NumPy and SciPy routines.  Each routine is a function of its
    arguments.  The solves, [empty] (which asserts [reserve >= 0]),
    [gram_schmidt], [np.linalg.norm], [spla.eigvals], [spla.kron],
    [spla.svd], [np.random.seed] and [_parse_options] may raise.  [pow2 x]
    is [x ** 2] for a [float64] scalar, which NumPy computes with the C
    library's [pow]. *)
Class Backend : Type := {
  VectorSpace : Type;
  VectorArray : Type;
  NDArray : Type;
  RandomState : Type;
  BaseOperator : Type;
  UserOptions : Type;
  (* vector spaces *)
  space_eqb : VectorSpace -> VectorSpace -> bool;
  dim : VectorSpace -> Z;
  empty : VectorSpace -> Z -> outcome VectorArray;
  make_array : VectorSpace -> NDArray -> VectorArray;
  (* operators *)
  linear : Operator VectorSpace BaseOperator -> bool;
  source : Operator VectorSpace BaseOperator -> VectorSpace;
  range : Operator VectorSpace BaseOperator -> VectorSpace;
  apply : Operator VectorSpace BaseOperator -> VectorArray -> VectorArray;
  apply_adjoint : Operator VectorSpace BaseOperator -> VectorArray -> VectorArray;
  apply_inverse :
    Operator VectorSpace BaseOperator -> VectorArray -> outcome VectorArray;
  apply_inverse_adjoint :
    Operator VectorSpace BaseOperator -> VectorArray -> outcome VectorArray;
  apply2 : Operator VectorSpace BaseOperator -> VectorArray -> VectorArray -> NDArray;
  as_range_array : Operator VectorSpace BaseOperator -> VectorArray;
  as_source_array : Operator VectorSpace BaseOperator -> VectorArray;
  (* vector arrays *)
  len : VectorArray -> nat;
  space : VectorArray -> VectorSpace;
  is_real : VectorArray -> bool;
  append : VectorArray -> VectorArray -> VectorArray;
  va_real : VectorArray -> VectorArray;
  va_imag : VectorArray -> VectorArray;
  va_conj : VectorArray -> VectorArray;
  va_add : VectorArray -> VectorArray -> VectorArray;
  va_sub : VectorArray -> VectorArray -> VectorArray;
  va_mul : VectorArray -> float -> VectorArray;
  slice_from : VectorArray -> Z -> VectorArray;
  gramian : VectorArray -> NDArray;
  to_numpy : VectorArray -> NDArray;
  gram_schmidt : VectorArray -> outcome VectorArray;
  (* numpy and scipy *)
  pow2 : float -> float;
  norm2 : NDArray -> outcome float;
  eigvals : NDArray -> NDArray -> outcome (list complex);
  array : list (list float) -> NDArray;
  eye : nat -> NDArray;
  kron : NDArray -> NDArray -> outcome NDArray;
  svd : NDArray -> outcome (NDArray * NDArray * NDArray);
  diag : NDArray -> NDArray;
  np_sqrt : NDArray -> NDArray;
  reciprocal : NDArray -> NDArray;
  transpose : NDArray -> NDArray;
  dot : NDArray -> NDArray -> NDArray;
  nd_add : NDArray -> NDArray -> NDArray;
  random_seed : number -> outcome RandomState;
  random_random : RandomState -> float * RandomState;
  random_rand : RandomState -> nat -> Z -> NDArray * RandomState;
  (* pymor.algorithms.genericsolvers *)
  _parse_options :
    option UserOptions -> list (string * Options) -> string -> option string
    -> bool -> outcome Options
}.

Section Lyapunov.

Context {backend : Backend}.

Definition Op : Type := Operator VectorSpace BaseOperator.

(** *** Observable calls and the world they are recorded in *)

Inductive Event : Type :=
| EvEmpty (sp : VectorSpace) (reserve : Z)
| EvSolve (adjoint : bool) (op : Op) (U : VectorArray)
| EvEigvals (Ap Ep : NDArray)
| EvSeed (s : number)
| EvRand (n : nat) (m : Z) (a : NDArray)
| EvInfo (step : Z) (relres : float)
| EvWarning (relres tolerance : float) (steps : Z).

(** The process-wide NumPy random state and the calls made so far, oldest
    first. *)
Record World : Type := { rng : RandomState; events : list Event }.

(** The coefficient of [E] in the shifted operator of a solve: the shift
    that the solve consumes. *)
Definition consumed_shift (e : Event) : option number :=
  match e with
  | EvSolve _ (LincombOperator _ (_ :: c :: _)) _ => Some c
  | _ => None
  end.

(** Real part of a shift coefficient. *)
Definition real_part (c : number) : float :=
  match c with
  | Int z => float_of_Z z
  | Float x => x
  | Cplx s => real s
  end.

(** Number of column blocks a consumed shift contributes to [Z]: one for a
    real shift, two for a complex one. *)
Definition blocks_of (e : Event) : nat :=
  match consumed_shift e with
  | Some (Cplx _) => 2
  | Some _ => 1
  | None => 0
  end.

Definition total_blocks (l : list Event) : nat :=
  fold_right (fun e n => (blocks_of e + n)%nat) 0%nat l.

(** Number of eigenvalue computations among the recorded calls. *)
Definition attempts (l : list Event) : nat :=
  List.length (filter (fun e => match e with EvEigvals _ _ => true | _ => false end) l).

Definition M (A : Type) : Type := World -> result A * World.

Definition ret {A} (a : A) : M A := fun w => (Ok a, w).

Definition bind {A B} (m : M A) (f : A -> M B) : M B :=
  fun w => match m w with
           | (Ok a, w') => f a w'
           | (Raise e, w') => (Raise e, w')
           | (OutOfFuel, w') => (OutOfFuel, w')
           end.

Definition raise {A} (e : exn) : M A := fun w => (Raise e, w).

Definition lift {A} (r : result A) : M A := fun w => (r, w).

Definition emit (e : Event) : M unit :=
  fun w => (Ok tt, {| rng := rng w; events := events w ++ [e] |}).

Definition set_rng (g : RandomState) : M unit :=
  fun w => (Ok tt, {| rng := g; events := events w |}).

Definition get_rng : M RandomState := fun w => (Ok (rng w), w).

Notation "x <- c ;; k" := (bind c (fun x => k))
  (at level 61, c at next level, right associativity).
Notation "c ;;; k" := (bind c (fun _ => k))
  (at level 61, right associativity).

(** [AaE.apply_inverse(W)] and [AaE.apply_inverse_adjoint(W)]. *)
Definition solve (adjoint : bool) (op : Op) (U : VectorArray) : M VectorArray :=
  emit (EvSolve adjoint op U) ;;;
  lift (of_outcome (if adjoint then apply_inverse_adjoint op U
                    else apply_inverse op U)).

(** [spla.eigvals(Ap, Ep)]. *)
Definition call_eigvals (Ap Ep : NDArray) : M (list complex) :=
  emit (EvEigvals Ap Ep) ;;;
  lift (of_outcome (eigvals Ap Ep)).

(** [np.random.seed(s)]. *)
Definition call_seed (s : number) : M unit :=
  emit (EvSeed s) ;;;
  g <- lift (of_outcome (random_seed s)) ;;
  set_rng g.

(** [np.random.random()]. *)
Definition call_random : M float :=
  g <- get_rng ;;
  let '(x, g') := random_random g in
  set_rng g' ;;;
  ret x.

(** ** [projection_shifts_init] (lines 176-210) *)

(** Lines 204-206: reseeding the global random state before a retry. *)
Definition reseed (shift_options : ShiftOptions) (i : Z) : M unit :=
  match init_seed shift_options with
  | Some seed =>
      call_seed (Int seed) ;;;
      x <- call_random ;;
      call_seed (Float (x + float_of_Z i)%float)
  | None => ret tt
  end.

(** Line 207: [B.space.make_array(np.random.rand(len(B), B.space.dim))]. *)
Definition random_subspace (B : VectorArray) : M VectorArray :=
  g <- get_rng ;;
  let '(a, g') := random_rand g (len B) (dim (space B)) in
  set_rng g' ;;;
  emit (EvRand (len B) (dim (space B)) a) ;;;
  ret (make_array (space B) a).

(** One pass of the body of [for i in range(init_maxiter)], [todo] passes
    before the [raise] after the loop. *)
Fixpoint projection_shifts_init_loop (A E : Op) (shift_options : ShiftOptions)
    (todo : nat) (i : Z) (B : VectorArray) : M (list complex) :=
  match todo with
  | O => raise (RuntimeError
           "Could not generate initial shifts for low-rank ADI iteration.")
  | S todo' =>
      Q <- lift (of_outcome (gram_schmidt B)) ;;
      shifts <- call_eigvals (apply2 A Q Q) (apply2 E Q Q) ;;
      let shifts := filter stable shifts in
      if (List.length shifts =? 0)%nat then
        (* use random subspace instead of span{B} (with same dimensions) *)
        reseed shift_options i ;;;
        B <- random_subspace B ;;
        projection_shifts_init_loop A E shift_options todo' (i + 1) B
      else ret shifts
  end.

Definition projection_shifts_init (A E : Op) (B : VectorArray)
    (shift_options : ShiftOptions) : M (list complex) :=
  projection_shifts_init_loop A E shift_options
    (Z.to_nat (init_maxiter shift_options)) 0 B.

(** ** [projection_shifts] (lines 213-303) *)

(** Lines 239-247: the number [u] of trailing blocks to project onto and the
    index [d] of the first shift of the window. *)
Definition projection_window (shift_options : ShiftOptions)
    (prev_shifts : list complex) : result (Z * Z) :=
  let u := z_columns shift_options in
  let L := Z.of_nat (List.length prev_shifts) in
  let d := L - u in
  let '(u, d) := if d <? 0 then (L, 0) else (u, d) in
  s <~ getitem prev_shifts (- u) ;;
  let u := if lt0 (imag s) then u + 1 else u in
  Ok (u, d).

(** Lines 261-281: the loop [while i < u] that fills [B] and [G]; it makes at
    most [fuel] passes. *)
Fixpoint implicit_blocks (fuel : nat) (prev_shifts : list complex) (d u : Z)
    (iR iC : list Z) (i : Z) (B G : rows) : result (rows * rows) :=
  if i <? u then
    match fuel with
    | O => OutOfFuel
    | S fuel' =>
        let rS := filter (fun k => k <? d + i) iR in
        let cS := filter (fun k => k <? d + i) iC in
        s <~ getitem prev_shifts (d + i) ;;
        let rp := real s in
        let cp := imag s in
        G <~ setitem2 G i 0 (sqrt (-2 * rp))%float ;;
        if eq0 cp then
          B <~ setitem2 B i i rp ;;
          B <~ (if (0 <? List.length rS)%nat
                then assign_row B i d (fun x => -2 * sqrt (rp * x))%float
                       prev_shifts rS
                else Ok B) ;;
          B <~ (if (0 <? List.length cS)%nat
                then assign_row B i d (fun x => -2 * sqrt (2 * rp * x))%float
                       prev_shifts cS
                else Ok B) ;;
          implicit_blocks fuel' prev_shifts d u iR iC (i + 1) B G
        else
          let sri := sqrt (pow2 rp + pow2 cp)%float in
          B <~ setblock2 B i (2 * rp)%float (- sri)%float sri 0%float ;;
          B <~ (if (0 <? List.length rS)%nat
                then assign_row B i d (fun x => -2 * sqrt (2 * rp * x))%float
                       prev_shifts rS
                else Ok B) ;;
          B <~ (if (0 <? List.length cS)%nat
                then assign_row B i d (fun x => -4 * sqrt (rp * x))%float
                       prev_shifts cS
                else Ok B) ;;
          implicit_blocks fuel' prev_shifts d u iR iC (i + 2) B G
    end
  else Ok (B, G).

(** Lines 252-281: the matrices [B] and [G] of the implicit strategy. *)
Definition implicit_matrices (prev_shifts : list complex) (u d : Z)
    : result (rows * rows) :=
  B <~ zeros u u ;;
  G <~ zeros u 1 ;;
  let iC := np_where (fun s => gt0 (imag s)) prev_shifts in
  let iR := np_where (fun s => eq0 (imag s)) prev_shifts in
  let iC := filter (fun k => k >=? d) iC in
  let iR := filter (fun k => k >=? d) iR in
  implicit_blocks (Z.to_nat u) prev_shifts d u iR iC 0 B G.

(** Lines 282-292: the projected pencil [(Ap, Ep)] from [B] and [G]. *)
Definition implicit_projection (E : Op) (Vu W : VectorArray) (r : nat)
    (BG : rows * rows) : result (NDArray * NDArray) :=
  let Ir := eye r in
  B <~ of_outcome (kron (array (fst BG)) Ir) ;;
  G <~ of_outcome (kron (array (snd BG)) Ir) ;;
  usv <~ of_outcome (svd (gramian Vu)) ;;
  let '(_, s, v) := usv in
  let P := dot (transpose v) (diag (reciprocal (np_sqrt s))) in
  let Q := dot (transpose (to_numpy Vu)) P in
  let E_V := transpose (to_numpy (apply E Vu)) in
  let T := dot (transpose Q) E_V in
  let Ap := nd_add (dot (dot (dot (transpose Q) (transpose (to_numpy W)))
                              (transpose G)) P)
                   (dot T (dot B P)) in
  let Ep := dot T P in
  Ok (Ap, Ep).

(** Lines 252-292: the projected pencil of the implicit strategy. *)
Definition implicit_pencil (E : Op) (Vu W : VectorArray)
    (prev_shifts : list complex) (u d : Z) (r : nat) : result (NDArray * NDArray) :=
  BG <~ implicit_matrices prev_shifts u d ;;
  implicit_projection E Vu W r BG.

(** Line 249: [Vu = Z[-u * r:]], the last [u] blocks added to [Z]. *)
Definition projection_subspace (Zf : VectorArray) (r : nat) (u : Z) : VectorArray :=
  slice_from Zf (- u * Z.of_nat r).

Definition projection_shifts (A E : Op) (Zf W : VectorArray)
    (prev_shifts : list complex) (shift_options : ShiftOptions)
    : M (list complex) :=
  ud <- lift (projection_window shift_options prev_shifts) ;;
  let '(u, d) := ud in
  let r := len W in
  let Vu := projection_subspace Zf r u in
  pencil <-
    (if implicit_subspace shift_options
     then lift (implicit_pencil E Vu W prev_shifts u d r)
     else
       Q <- lift (of_outcome (gram_schmidt Vu)) ;;
       ret (apply2 A Q Q, apply2 E Q Q)) ;;
  shifts <- call_eigvals (fst pencil) (snd pencil) ;;
  let shifts := filter stable shifts in
  if (List.length shifts =? 0)%nat
  then ret (prev_shifts ++ prev_shifts)
  else ret (prev_shifts ++ shifts).

(** ** [lradi] (lines 91-173) *)

(** The two functions bound to [init_shifts] and [iteration_shifts]. *)
Record ShiftStrategy : Type := {
  init_shifts : Op -> Op -> VectorArray -> ShiftOptions -> M (list complex);
  iteration_shifts :
    Op -> Op -> VectorArray -> VectorArray -> list complex -> ShiftOptions
    -> M (list complex)
}.

(** Lines 116-120. *)
Definition select_strategy (shift_options : ShiftOptions) : result ShiftStrategy :=
  if String.eqb (so_type shift_options) "projection_shifts"
  then Ok {| init_shifts := projection_shifts_init;
             iteration_shifts := projection_shifts |}
  else Raise (ValueError "Unknown lradi shift strategy").

(** The variables the [while] loop reads and writes. *)
Record LoopState : Type := {
  st_Z : VectorArray;
  st_W : VectorArray;
  st_j : Z;
  st_shifts : list complex;
  st_size_shift : Z;
  st_res : float
}.

(** What stays fixed during the loop. *)
Record LoopEnv : Type := {
  env_A : Op;
  env_E : Op;
  env_trans : bool;
  env_options : Options;
  env_shift_options : ShiftOptions;
  env_strategy : ShiftStrategy;
  env_init_res : float;
  env_Btol : float
}.

(** Line 139: [res > Btol and j < options['maxiter']]. *)
Definition lradi_cond (env : LoopEnv) (st : LoopState) : bool :=
  PrimFloat.ltb (env_Btol env) (st_res st)
  && (st_j st <? maxiter (env_options env)).

(** Lines 141-149: the step for a real shift [s]; returns the new [W], [Z]
    and [j]. *)
Definition real_step (env : LoopEnv) (st : LoopState) (s : complex)
    : M (VectorArray * VectorArray * Z) :=
  let A := env_A env in
  let E := env_E env in
  let AaE := LincombOperator [A; E] [Int 1; Float (real s)] in
  VW <-
    (if negb (env_trans env) then
       V <- solve false AaE (st_W st) ;;
       ret (V, va_sub (st_W st) (va_mul (apply E V) (2 * real s)%float))
     else
       V <- solve true AaE (st_W st) ;;
       ret (V, va_sub (st_W st) (va_mul (apply_adjoint E V) (2 * real s)%float))) ;;
  let '(V, W) := VW in
  ret (W, append (st_Z st) (va_mul V (sqrt (-2 * real s))%float), st_j st + 1).

(** Lines 151-162: the step for a shift [s] with non-zero imaginary part. *)
Definition complex_step (env : LoopEnv) (st : LoopState) (s : complex)
    : M (VectorArray * VectorArray * Z) :=
  let A := env_A env in
  let E := env_E env in
  let AaE := LincombOperator [A; E] [Int 1; Cplx s] in
  let g := (2 * sqrt (- real s))%float in
  let d := (real s / imag s)%float in
  VW <-
    (if negb (env_trans env) then
       V <- solve false AaE (st_W st) ;;
       ret (V, va_add (st_W st)
                 (va_mul (apply E (va_add (va_real V) (va_mul (va_imag V) d)))
                         (pow2 g)))
     else
       V' <- solve true AaE (st_W st) ;;
       let V := va_conj V' in
       ret (V, va_add (st_W st)
                 (va_mul (apply_adjoint E
                            (va_add (va_real V) (va_mul (va_imag V) d)))
                         (pow2 g)))) ;;
  let '(V, W) := VW in
  let Z1 := append (st_Z st) (va_mul (va_add (va_real V) (va_mul (va_imag V) d)) g) in
  let Z2 := append Z1 (va_mul (va_imag V) (g * sqrt (pow2 d + 1))%float) in
  ret (W, Z2, st_j st + 2).

(** Lines 163-165: more shifts once the index has reached the end of the
    current ones; returns [shifts] and [size_shift]. *)
Definition refresh_shifts (env : LoopEnv) (st : LoopState)
    (W Zf : VectorArray) (j : Z) : M (list complex * Z) :=
  if j >=? st_size_shift st then
    shifts <- iteration_shifts (env_strategy env) (env_A env) (env_E env)
                Zf W (st_shifts st) (env_shift_options env) ;;
    ret (shifts, Z.of_nat (List.length shifts))
  else ret (st_shifts st, st_size_shift st).

(** Lines 140-167: one pass of the loop body. *)
Definition lradi_body (env : LoopEnv) (st : LoopState) : M LoopState :=
  s <- lift (getitem (st_shifts st) (st_j st)) ;;
  WZj <- (if eq0 (imag s) then real_step env st s else complex_step env st s) ;;
  let '(W, Zf, j) := WZj in
  sh <- refresh_shifts env st W Zf j ;;
  res <- lift (of_outcome (norm2 (gramian W))) ;;
  emit (EvInfo j (res / env_init_res env)%float) ;;;
  ret {| st_Z := Zf; st_W := W; st_j := j;
         st_shifts := fst sh; st_size_shift := snd sh; st_res := res |}.

(** Line 139: the [while] loop, with at most [fuel] passes. *)
Fixpoint lradi_while (env : LoopEnv) (fuel : nat) (st : LoopState) : M LoopState :=
  if lradi_cond env st then
    match fuel with
    | O => fun w => (OutOfFuel, w)
    | S fuel' => st' <- lradi_body env st ;; lradi_while env fuel' st'
    end
  else ret st.

(** Lines 115-137: everything before the loop. *)
Definition lradi_setup (A : Op) (E : option Op) (B : Op) (trans : bool)
    (options : Options) : M (LoopEnv * LoopState) :=
  shift_options <- lift (dict_get (shift_options options) (shifts options)) ;;
  strategy <- lift (select_strategy shift_options) ;;
  let E := match E with
           | None => IdentityOperator (source A)
           | Some E => E
           end in
  ZW <-
    (if negb trans then
       let reserve := dim (source B) * maxiter options in
       emit (EvEmpty (source A) reserve) ;;;
       Zf <- lift (of_outcome (empty (source A) reserve)) ;;
       ret (Zf, as_range_array B)
     else
       let reserve := dim (range B) * maxiter options in
       emit (EvEmpty (range A) reserve) ;;;
       Zf <- lift (of_outcome (empty (range A) reserve)) ;;
       ret (Zf, as_source_array B)) ;;
  let '(Zf, W) := ZW in
  let j := 0 in
  shifts <- init_shifts strategy A E W shift_options ;;
  let size_shift := Z.of_nat (List.length shifts) in
  res <- lift (of_outcome (norm2 (gramian W))) ;;
  let init_res := res in
  let Btol := (res * tol options)%float in
  ret ({| env_A := A; env_E := E; env_trans := trans; env_options := options;
          env_shift_options := shift_options; env_strategy := strategy;
          env_init_res := init_res; env_Btol := Btol |},
       {| st_Z := Zf; st_W := W; st_j := j; st_shifts := shifts;
          st_size_shift := size_shift; st_res := res |}).

(** Lines 169-173: the warning and the return. *)
Definition lradi_finish (env : LoopEnv) (st : LoopState) : M VectorArray :=
  (if PrimFloat.ltb (env_Btol env) (st_res st) then
     emit (EvWarning (st_res st / env_init_res env)%float
                     (tol (env_options env)) (maxiter (env_options env)))
   else ret tt) ;;;
  ret (st_Z st).

Definition lradi (A : Op) (E : option Op) (B : Op) (trans : bool)
    (options : Options) : M VectorArray :=
  es <- lradi_setup A E B trans options ;;
  let '(env, st) := es in
  st' <- lradi_while env (Z.to_nat (maxiter options)) st ;;
  lradi_finish env st'.

(** ** [_solve_lyap_check_args] and [solve_lyap] *)

Definition assert (c : bool) : result unit :=
  if c then Ok tt else Raise AssertionError.

Definition _solve_lyap_check_args (A : Op) (E : option Op) (B : Op)
    (trans : bool) : result unit :=
  _ <~ assert (linear A) ;;
  _ <~ assert (space_eqb (source A) (range A)) ;;
  _ <~ assert (linear B) ;;
  _ <~ assert (negb trans && space_eqb (range B) (source A)
               || trans && space_eqb (source B) (source A)) ;;
  assert (match E with
          | None => true
          | Some E => linear E && space_eqb (source E) (range E)
                      && space_eqb (range E) (source A)
          end).

Definition solve_lyap (A : Op) (E : option Op) (B : Op) (trans : bool)
    (options : option UserOptions) : M VectorArray :=
  lift (_solve_lyap_check_args A E B trans) ;;;
  options <- lift (of_outcome
               (_parse_options options lyap_solver_options "lradi" None false)) ;;
  if String.eqb (o_type options) "lradi"
  then lradi A E B trans options
  else raise (ValueError "Unknown solver type").

End Lyapunov.

(** ** Vocabulary of the statements *)

Unset Implicit Arguments.

Section Specification.

Context {backend : Backend}.

(** Events of the initializer: eigenvalue computations, seedings, draws. *)
Definition init_event (e : Event) : Prop :=
  match e with
  | EvEigvals _ _ | EvSeed _ | EvRand _ _ _ => True
  | _ => False
  end.

(** Events of the set-up of [lradi]: the creation of [Z] and the events of
    the initializer. *)
Definition setup_event (e : Event) : Prop :=
  match e with
  | EvEmpty _ _ | EvEigvals _ _ | EvSeed _ | EvRand _ _ _ => True
  | _ => False
  end.

(** What [projection_shifts] returns from the eigenvalues of the pencil. *)
Definition extended (prev eigs : list complex) : list complex :=
  if (List.length (filter stable eigs) =? 0)%nat
  then prev ++ prev
  else prev ++ filter stable eigs.

(** [E.apply] or [E.apply_adjoint], and the two solves, as [trans] selects. *)
Definition apply_E (env : LoopEnv) (U : VectorArray) : VectorArray :=
  if env_trans env then apply_adjoint (env_E env) U else apply (env_E env) U.

Definition raw_solve (env : LoopEnv) (op : Op) (U : VectorArray) : outcome VectorArray :=
  if env_trans env then apply_inverse_adjoint op U else apply_inverse op U.

(** The coefficient of [E] in the operator solved with for the shift [s]. *)
Definition shift_coefficient (s : complex) : number :=
  if eq0 (imag s) then Float (real s) else Cplx s.

(** The loop environments [lradi_setup] builds: the updater is
    [projection_shifts]. *)
Definition standard (env : LoopEnv) : Prop :=
  iteration_shifts (env_strategy env) = projection_shifts.

(** [E], [W] and [Z] as lines 122-130 set them. *)
Definition initial_E (A : Op) (E : option Op) : Op :=
  match E with
  | None => IdentityOperator (source A)
  | Some E => E
  end.

Definition initial_W (B : Op) (trans : bool) : VectorArray :=
  if trans then as_source_array B else as_range_array B.

Definition initial_Z (A B : Op) (trans : bool) (options : Options)
    : outcome VectorArray :=
  if trans then empty (range A) (dim (range B) * maxiter options)
  else empty (source A) (dim (source B) * maxiter options).

(** The loop environment and the loop state after the set-up, for the
    initial residual norm [res] (line 135). *)
Definition initial_env (A : Op) (E : option Op) (trans : bool) (options : Options)
    (so : ShiftOptions) (res : float) : LoopEnv :=
  {| env_A := A; env_E := initial_E A E; env_trans := trans;
     env_options := options; env_shift_options := so;
     env_strategy := {| init_shifts := projection_shifts_init;
                        iteration_shifts := projection_shifts |};
     env_init_res := res;
     env_Btol := (res * tol options)%float |}.

Definition initial_state (Zf W : VectorArray) (shifts : list complex)
    (res : float) : LoopState :=
  {| st_Z := Zf; st_W := W; st_j := 0; st_shifts := shifts;
     st_size_shift := Z.of_nat (List.length shifts);
     st_res := res |}.

(** A recorded call respects stability: if it is a solve, the shift it
    consumes has negative real part. *)
Definition stable_event (e : Event) : Prop :=
  forall c, consumed_shift e = Some c -> lt0 (real_part c) = true.

(** The part of the vector-array and operator contracts that concerns the
    number of vectors of an array. *)
Record LengthLaws : Prop := {
  len_empty : forall sp n Zf0, empty sp n = Returns Zf0 -> len Zf0 = 0%nat;
  len_append : forall U V, len (append U V) = (len U + len V)%nat;
  len_va_mul : forall U x, len (va_mul U x) = len U;
  len_va_add : forall U V, len V = len U -> len (va_add U V) = len U;
  len_va_sub : forall U V, len V = len U -> len (va_sub U V) = len U;
  len_va_real : forall U, len (va_real U) = len U;
  len_va_imag : forall U, len (va_imag U) = len U;
  len_va_conj : forall U, len (va_conj U) = len U;
  len_apply : forall op U, len (apply op U) = len U;
  len_apply_adjoint : forall op U, len (apply_adjoint op U) = len U;
  len_apply_inverse :
    forall op U V, apply_inverse op U = Returns V -> len V = len U;
  len_apply_inverse_adjoint :
    forall op U V, apply_inverse_adjoint op U = Returns V -> len V = len U;
  len_slice_from :
    forall U k, k < 0 -> len (slice_from U k) = Nat.min (len U) (Z.to_nat (- k))
}.

(** No shift is consumed by the call. *)
Definition quiet (e : Event) : Prop := consumed_shift e = None.

(** Number of column blocks, and of shift indices, that the step for the
    shift [s] takes. *)
Definition stride (s : complex) : nat := if eq0 (imag s) then 1 else 2.

(** The part of the contracts that concerns the dtype of an array, for real
    operators [A] and [E]: real and imaginary parts are real arrays, real
    arrays are closed under the array operations, under [E] and under the
    solves with a real shift. *)
Record RealLaws (A E : Op) : Prop := {
  real_va_real : forall U, is_real (va_real U) = true;
  real_va_imag : forall U, is_real (va_imag U) = true;
  real_va_mul : forall U x, is_real U = true -> is_real (va_mul U x) = true;
  real_va_add : forall U V,
    is_real U = true -> is_real V = true -> is_real (va_add U V) = true;
  real_va_sub : forall U V,
    is_real U = true -> is_real V = true -> is_real (va_sub U V) = true;
  real_append : forall U V,
    is_real U = true -> is_real V = true -> is_real (append U V) = true;
  real_apply : forall U, is_real U = true -> is_real (apply E U) = true;
  real_apply_adjoint : forall U,
    is_real U = true -> is_real (apply_adjoint E U) = true;
  real_apply_inverse : forall x U V,
    is_real U = true ->
    apply_inverse (LincombOperator [A; E] [Int 1; Float x]) U = Returns V ->
    is_real V = true;
  real_apply_inverse_adjoint : forall x U V,
    is_real U = true ->
    apply_inverse_adjoint (LincombOperator [A; E] [Int 1; Float x]) U = Returns V ->
    is_real V = true
}.

(** [passes env st w st' w']: starting from the loop head in state [st] and
    world [w], the loop makes finitely many passes, each entered with the
    condition of line 139 true and each completing without an exception, and
    is at the loop head again in state [st'] and world [w']. *)
Inductive passes (env : LoopEnv) : LoopState -> World -> LoopState -> World -> Prop :=
| passes_none st w : passes env st w st w
| passes_more st w st1 w1 st2 w2 :
    lradi_cond env st = true ->
    lradi_body env st w = (Ok st1, w1) ->
    passes env st1 w1 st2 w2 ->
    passes env st w st2 w2.

(** One attempt of the initializer on the array [B] (lines 199-201): the
    eigenvalues with negative real part of the pencil projected onto the
    span of [B], or the exception of [gram_schmidt] or of [spla.eigvals]. *)
Definition projected_shifts (A E : Op) (B : VectorArray) : outcome (list complex) :=
  match gram_schmidt B with
  | Returns Q =>
      match eigvals (apply2 A Q Q) (apply2 E Q Q) with
      | Returns ev => Returns (filter stable ev)
      | Raises e => Raises e
      end
  | Raises e => Raises e
  end.

(** The attempt on [B] returns and finds no eigenvalue with negative real
    part. *)
Definition no_stable_eigenvalue (A E : Op) (B : VectorArray) : Prop :=
  projected_shifts A E B = Returns [].

(** The arrays projected onto by [n] attempts that all fail when no seed is
    set: [B], then each replacement that [np.random.rand] draws, starting
    from the random state [g] (line 207). *)
Fixpoint drawn_subspaces (n : nat) (B : VectorArray) (g : RandomState)
    : list VectorArray :=
  match n with
  | O => []
  | S n' =>
      B :: drawn_subspaces n'
             (make_array (space B) (fst (random_rand g (len B) (dim (space B)))))
             (snd (random_rand g (len B) (dim (space B))))
  end.

(** [np.random.seed] takes integers: called with a float it raises
    [TypeError]. *)
Definition seed_rejects_floats : Prop :=
  forall x, random_seed (Float x) = Raises TypeError.


(** *** Vocabulary of the further properties *)

(** Number of solves, and of calls of [np.random.seed], among the recorded
    calls. *)
Definition solves (l : list Event) : nat :=
  List.length (filter (fun e => match e with EvSolve _ _ _ => true | _ => false end) l).

Definition seedings (l : list Event) : nat :=
  List.length (filter (fun e => match e with EvSeed _ => true | _ => false end) l).

(** The eigenvalues with negative real part of the Galerkin projection of
    the pencil onto the span of [B] (lines 199-201). *)
Definition stable_eigenvalues (A E : Op) (B : VectorArray) : list complex :=
  match projected_shifts A E B with
  | Returns s => s
  | Raises _ => []
  end.

(** The eigenvalue computations recorded in [log] gave conjugate pairs
    adjacent, the member with positive imaginary part first, as LAPACK does
    for a real pencil, and the two members of a pair passed or failed the
    stability filter together. *)
Definition paired_eigvals (log : list Event) : Prop :=
  forall Ap Ep ev,
    In (EvEigvals Ap Ep) log -> eigvals Ap Ep = Returns ev ->
    well_paired (filter stable ev) = true.

(** The shift index of the loop is within the shifts, which are as many as
    [size_shift] says, and at the start of a conjugate pair or on a real
    shift. *)
Definition index_in_range (st : LoopState) : Prop :=
  st_size_shift st = Z.of_nat (List.length (st_shifts st))
  /\ 0 <= st_j st < st_size_shift st
  /\ well_paired (st_shifts st) = true
  /\ well_paired (skipn (Z.to_nat (st_j st)) (st_shifts st)) = true.

(** The preconditions that [_solve_lyap_check_args] asserts. *)
Definition well_posed (A : Op) (E : option Op) (B : Op) (trans : bool) : Prop :=
  linear A = true
  /\ space_eqb (source A) (range A) = true
  /\ linear B = true
  /\ (if trans then space_eqb (source B) (source A)
      else space_eqb (range B) (source A)) = true
  /\ match E with
     | None => True
     | Some E => linear E = true
                 /\ space_eqb (source E) (range E) = true
                 /\ space_eqb (range E) (source A) = true
     end.

End Specification.

(** ** A reference backend: scalar systems

    Vectors are complex numbers (a one-dimensional space), a given operator
    is multiplication by a real number, and every pencil has the prescribed
    eigenvalues [spectrum].  [empty] refuses a negative [reserve],
    [gram_schmidt] a vector that is zero or not a number, [np.linalg.norm] a
    matrix that is not a number, division by the zero operator fails, and
    [np.random.seed] takes non-negative integers only.  It is the backend
    of the concrete runs below. *)
Module Scalar.

Local Open Scope float_scope.

Definition cadd (a b : complex) : complex :=
  Complex (real a + real b) (imag a + imag b).
Definition csub (a b : complex) : complex :=
  Complex (real a - real b) (imag a - imag b).
Definition cmul (a b : complex) : complex :=
  Complex (real a * real b - imag a * imag b)
          (real a * imag b + imag a * real b).
Definition cdiv (a b : complex) : complex :=
  let n := real b * real b + imag b * imag b in
  Complex ((real a * real b + imag a * imag b) / n)
          ((imag a * real b - real a * imag b) / n).
Definition cconj (a : complex) : complex := Complex (real a) (- imag a).
Definition cscale (x : float) (a : complex) : complex :=
  Complex (real a * x) (imag a * x).
Definition of_number (c : number) : complex :=
  match c with
  | Int z => Complex (float_of_Z z) 0
  | Float x => Complex x 0
  | Cplx c => c
  end.

(** A vector array: its entries and whether its dtype is complex. *)
Record array1 : Set := { is_complex : bool; entries : list complex }.

Definition ScalarOp : Type := Operator unit float.

Fixpoint value (op : ScalarOp) : complex :=
  match op with
  | Given x => Complex x 0
  | IdentityOperator _ => Complex 1 0
  | LincombOperator ops cs =>
      (fix sum (ops : list ScalarOp) (cs : list number) : complex :=
         match ops, cs with
         | o :: ops', c :: cs' => cadd (cmul (of_number c) (value o)) (sum ops' cs')
         | _, _ => Complex 0 0
         end) ops cs
  end.

Fixpoint complex_op (op : ScalarOp) : bool :=
  match op with
  | Given _ => false
  | IdentityOperator _ => false
  | LincombOperator ops cs =>
      existsb (fun c => match c with Cplx _ => true | _ => false end) cs
      || (fix any (ops : list ScalarOp) : bool :=
            match ops with
            | o :: ops' => complex_op o || any ops'
            | [] => false
            end) ops
  end.

Definition times (op : ScalarOp) (U : array1) : array1 :=
  {| is_complex := is_complex U || complex_op op;
     entries := map (cmul (value op)) (entries U) |}.

Definition divide (op : ScalarOp) (U : array1) : outcome array1 :=
  if PrimFloat.eqb (real (value op)) 0 && PrimFloat.eqb (imag (value op)) 0
  then Raises InversionError
  else Returns {| is_complex := is_complex U || complex_op op;
             entries := map (fun x => cdiv x (value op)) (entries U) |}.

Definition pointwise (f : complex -> complex -> complex) (U V : array1) : array1 :=
  {| is_complex := is_complex U || is_complex V;
     entries := map (fun p => f (fst p) (snd p)) (combine (entries U) (entries V)) |}.

Definition slice (U : array1) (k : Z) : array1 :=
  let n := Z.of_nat (List.length (entries U)) in
  let start := if (k <? 0)%Z then Z.max 0 (n + k) else Z.min k n in
  {| is_complex := is_complex U; entries := skipn (Z.to_nat start) (entries U) |}.

(** The empty array of the space. *)
Definition no_vector : array1 := {| is_complex := false; entries := [] |}.

(** The vector is zero or has an entry that is not a number. *)
Definition degenerate (x : complex) : bool :=
  negb (PrimFloat.ltb 0 (real x * real x + imag x * imag x)).

Definition sum_sq (U : array1) : float :=
  fold_right (fun x acc => real x * real x + imag x * imag x + acc) 0 (entries U).

#[local] Instance backend (spectrum : list complex) : Backend := {|
  VectorSpace := unit;
  VectorArray := array1;
  NDArray := list complex;
  RandomState := Z;
  BaseOperator := float;
  UserOptions := Options;
  space_eqb := fun _ _ => true;
  dim := fun _ => 1%Z;
  empty := fun _ n => if (n <? 0)%Z then Raises AssertionError else Returns no_vector;
  make_array := fun _ a => {| is_complex := false; entries := a |};
  linear := fun _ => true;
  source := fun _ => tt;
  range := fun _ => tt;
  apply := times;
  apply_adjoint := fun op => times op;
  apply_inverse := divide;
  apply_inverse_adjoint := fun op => divide op;
  apply2 := fun op _ _ => [value op];
  as_range_array := fun op => {| is_complex := false; entries := [value op] |};
  as_source_array := fun op => {| is_complex := false; entries := [value op] |};
  len := fun U => List.length (entries U);
  space := fun _ => tt;
  is_real := fun U => negb (is_complex U);
  append := fun U V => {| is_complex := is_complex U || is_complex V;
                          entries := entries U ++ entries V |};
  va_real := fun U => {| is_complex := false;
                         entries := map (fun x => Complex (real x) 0) (entries U) |};
  va_imag := fun U => {| is_complex := false;
                         entries := map (fun x => Complex (imag x) 0) (entries U) |};
  va_conj := fun U => {| is_complex := is_complex U;
                         entries := map cconj (entries U) |};
  va_add := pointwise cadd;
  va_sub := pointwise csub;
  va_mul := fun U x => {| is_complex := is_complex U;
                          entries := map (cscale x) (entries U) |};
  slice_from := slice;
  gramian := fun U => [Complex (sum_sq U) 0];
  to_numpy := entries;
  gram_schmidt := fun U => if existsb degenerate (entries U)
                           then Raises AccuracyError else Returns U;
  pow2 := fun x => x * x;
  norm2 := fun a => match a with
                    | x :: _ => if PrimFloat.eqb (real x) (real x)
                                then Returns (real x) else Raises LinAlgError
                    | [] => Returns 0
                    end;
  eigvals := fun _ _ => Returns spectrum;
  array := fun a => map (fun x => Complex x 0) (List.concat a);
  eye := fun n => repeat (Complex 1 0) n;
  kron := fun a _ => Returns a;
  svd := fun a => Returns (a, a, a);
  diag := fun a => a;
  np_sqrt := fun a => a;
  reciprocal := fun a => a;
  transpose := fun a => a;
  dot := fun a _ => a;
  nd_add := fun a _ => a;
  random_seed := fun s =>
    match s with
    | Int z => if (0 <=? z)%Z then Returns z
               else Raises (ValueError "Seed must be between 0 and 2**32 - 1")
    | _ => Raises TypeError
    end;
  random_random := fun g => (0.5, (g + 1)%Z);
  random_rand := fun g n _ => (repeat (Complex 0.5 0) n, (g + 1)%Z);
  _parse_options := fun o table default _ _ =>
    match o with
    | Some o => Returns o
    | None => match dict_get table default with
              | Ok o => Returns o
              | _ => Raises (KeyError default)
              end
    end
|}.

Definition world0 (spectrum : list complex) : @World (backend spectrum) :=
  @Build_World (backend spectrum) 0%Z [].

(** The options of [lyap_solver_options(lradi_maxiter=n, ...)]. *)
Definition options (n z : Z) (implicit : bool) : Options :=
  {| o_type := "lradi"; tol := 1e-10; maxiter := n;
     shifts := "projection_shifts";
     shift_options :=
       [("projection_shifts"%string,
         {| so_type := "projection_shifts"; z_columns := z;
            init_maxiter := 20; init_seed := None;
            implicit_subspace := implicit |})] |}.

(** The system [-x + (-x) + 1 = 0], i.e. [A = -1], [E = 1], [B = 1]. *)
Definition A1 : ScalarOp := Given (-1).
Definition B1 : ScalarOp := Given 1.

(** The shifts [-1 + i, -1 - i]. *)
Definition conjugate_pair : list complex := [Complex (-1) 1; Complex (-1) (-1)].

Definition pair_backend : Backend := backend conjugate_pair.

(** One real shift [-1]; no eigenvalue at all. *)
Definition real_backend : Backend := backend [Complex (-1) 0].
Definition unstable_backend : Backend := backend [].

(** The array with the single real vector [x]. *)
Definition column (x : float) : array1 :=
  {| is_complex := false; entries := [Complex x 0] |}.


(** The loop environment and the loop state with which
    [lradi(A1, None, B1, options=options 1 1 false)] enters its loop. *)
Definition env1 : @LoopEnv pair_backend :=
  @initial_env pair_backend A1 None false (options 1 1 false)
    {| so_type := "projection_shifts"; z_columns := 1; init_maxiter := 20;
       init_seed := None; implicit_subspace := false |}
    1.

(** The world in which that loop is entered: [Z] was created and the
    initializer computed the eigenvalues once. *)
Definition world1 : @World pair_backend :=
  @Build_World pair_backend 0%Z
    [@EvEmpty pair_backend tt 1;
     @EvEigvals pair_backend [Complex (-1) 0] [Complex 1 0]].

Definition state1 : @LoopState pair_backend :=
  @initial_state pair_backend no_vector
    (@initial_W pair_backend B1 false) conjugate_pair 1.

(** Options naming a solver type and a shift strategy that do not exist. *)
Definition options_other_solver : Options :=
  {| o_type := "pymess"; tol := 1e-10; maxiter := 10;
     shifts := "projection_shifts"; shift_options := [] |}.

Definition options_other_strategy : Options :=
  {| o_type := "lradi"; tol := 1e-10; maxiter := 10;
     shifts := "wachspress";
     shift_options := shift_options (options 10 1 true) |}.

Definition shift_options1 (z : Z) (seed : option Z) (implicit : bool) : ShiftOptions :=
  {| so_type := "projection_shifts"; z_columns := z; init_maxiter := 20;
     init_seed := seed; implicit_subspace := implicit |}.

(** The same vectors and arrays with operators none of which is linear. *)
Definition nonlinear_backend : Backend := {|
  VectorSpace := unit;
  VectorArray := array1;
  NDArray := list complex;
  RandomState := Z;
  BaseOperator := float;
  UserOptions := Options;
  space_eqb := fun _ _ => true;
  dim := fun _ => 1%Z;
  empty := fun _ n => if (n <? 0)%Z then Raises AssertionError else Returns no_vector;
  make_array := fun _ a => {| is_complex := false; entries := a |};
  linear := fun _ => false;
  source := fun _ => tt;
  range := fun _ => tt;
  apply := times;
  apply_adjoint := fun op => times op;
  apply_inverse := divide;
  apply_inverse_adjoint := fun op => divide op;
  apply2 := fun op _ _ => [value op];
  as_range_array := fun op => {| is_complex := false; entries := [value op] |};
  as_source_array := fun op => {| is_complex := false; entries := [value op] |};
  len := fun U => List.length (entries U);
  space := fun _ => tt;
  is_real := fun U => negb (is_complex U);
  append := fun U V => {| is_complex := is_complex U || is_complex V;
                          entries := entries U ++ entries V |};
  va_real := fun U => {| is_complex := false;
                         entries := map (fun x => Complex (real x) 0) (entries U) |};
  va_imag := fun U => {| is_complex := false;
                         entries := map (fun x => Complex (imag x) 0) (entries U) |};
  va_conj := fun U => {| is_complex := is_complex U;
                         entries := map cconj (entries U) |};
  va_add := pointwise cadd;
  va_sub := pointwise csub;
  va_mul := fun U x => {| is_complex := is_complex U;
                          entries := map (cscale x) (entries U) |};
  slice_from := slice;
  gramian := fun U => [Complex (sum_sq U) 0];
  to_numpy := entries;
  gram_schmidt := fun U => if existsb degenerate (entries U)
                           then Raises AccuracyError else Returns U;
  pow2 := fun x => x * x;
  norm2 := fun a => match a with
                    | x :: _ => if PrimFloat.eqb (real x) (real x)
                                then Returns (real x) else Raises LinAlgError
                    | [] => Returns 0
                    end;
  eigvals := fun _ _ => Returns [];
  array := fun a => map (fun x => Complex x 0) (List.concat a);
  eye := fun n => repeat (Complex 1 0) n;
  kron := fun a _ => Returns a;
  svd := fun a => Returns (a, a, a);
  diag := fun a => a;
  np_sqrt := fun a => a;
  reciprocal := fun a => a;
  transpose := fun a => a;
  dot := fun a _ => a;
  nd_add := fun a _ => a;
  random_seed := fun s =>
    match s with
    | Int z => if (0 <=? z)%Z then Returns z
               else Raises (ValueError "Seed must be between 0 and 2**32 - 1")
    | _ => Raises TypeError
    end;
  random_random := fun g => (0.5, (g + 1)%Z);
  random_rand := fun g n _ => (repeat (Complex 0.5 0) n, (g + 1)%Z);
  _parse_options := fun o table default _ _ =>
    match o with
    | Some o => Returns o
    | None => match dict_get table default with
              | Ok o => Returns o
              | _ => Raises (KeyError default)
              end
    end
|}.

(** The loop environment and state with which
    [lradi(A1, None, B1, options=options 1 1 false)] enters its loop when the
    pencil has the single eigenvalue [-1]. *)
Definition env_real : @LoopEnv real_backend :=
  @initial_env real_backend A1 None false (options 1 1 false)
    (shift_options1 1 None false) 1.

Definition state_real : @LoopState real_backend :=
  @initial_state real_backend no_vector
    (@initial_W real_backend B1 false) [Complex (-1) 0] 1.

End Scalar.

(** * Properties *)

(** Case analysis on the norm computed at the end of a pass (line 166), in
    the hypothesis [H] that [lradi_body_inv] gives. *)
Ltac split_norm H :=
  match type of H with
  | context [norm2 ?g] =>
      let res := fresh "res" in
      let e := fresh "e" in
      let Hres := fresh "Hres" in
      destruct (norm2 g) as [res|e] eqn:Hres
  end.

Section Properties.

Context {backend : Backend}.

(** ** The monad *)

Lemma bind_inv {A B} (m : M A) (f : A -> M B) w r w' :
  bind m f w = (r, w') ->
  (exists a w1, m w = (Ok a, w1) /\ f a w1 = (r, w'))
  \/ (exists e, m w = (Raise e, w') /\ r = Raise e)
  \/ (m w = (OutOfFuel, w') /\ r = OutOfFuel).
Proof.
  unfold bind. destruct (m w) as [[a|e|] w1]; intros H.
  - left. eauto.
  - right. left. inversion H; subst. eauto.
  - right. right. inversion H; subst. eauto.
Qed.

Lemma bind_ok_inv {A B} (m : M A) (f : A -> M B) w b w' :
  bind m f w = (Ok b, w') ->
  exists a w1, m w = (Ok a, w1) /\ f a w1 = (Ok b, w').
Proof.
  intros H. apply bind_inv in H.
  destruct H as [H | [[e [_ H]] | [_ H]]]; [exact H | discriminate | discriminate].
Qed.

(** ** Sequences *)

Lemma getitem_In {A} (a : list A) i x : getitem a i = Ok x -> In x a.
Proof.
  unfold getitem. destruct (index (List.length a) i) as [k| |]; simpl; try discriminate.
  destruct (nth_error a k) eqn:Hn; intros H; inversion H; subst.
  eapply nth_error_In; eauto.
Qed.

Lemma getitem_nonneg {A} (a : list A) i :
  0 <= i < Z.of_nat (List.length a) ->
  exists x, getitem a i = Ok x /\ nth_error a (Z.to_nat i) = Some x.
Proof.
  intros Hi. unfold getitem, index.
  destruct (i <? 0) eqn:H0; [lia|].
  destruct ((0 <=? i) && (i <? Z.of_nat (List.length a))) eqn:Hc; [|lia].
  simpl. destruct (nth_error a (Z.to_nat i)) eqn:Hn; eauto.
  apply nth_error_None in Hn. lia.
Qed.

Lemma dict_get_inv {A} (d : list (string * A)) key :
  match dict_get d key with
  | Ok _ => True
  | Raise e => e = KeyError key
  | OutOfFuel => False
  end.
Proof.
  induction d as [|[k v] d IH]; simpl; [reflexivity|].
  destruct (String.eqb k key); [exact I | exact IH].
Qed.

Lemma Forall_stable_filter l : Forall (fun s => stable s = true) (filter stable l).
Proof. apply Forall_forall. intros x Hx. apply filter_In in Hx. tauto. Qed.

Lemma attempts_app l1 l2 : attempts (l1 ++ l2) = (attempts l1 + attempts l2)%nat.
Proof. unfold attempts. rewrite filter_app, length_app. reflexivity. Qed.

Lemma total_blocks_app l1 l2 :
  total_blocks (l1 ++ l2) = (total_blocks l1 + total_blocks l2)%nat.
Proof. induction l1 as [|e l1 IH]; simpl; [reflexivity | rewrite IH; lia]. Qed.

(** ** The shift initializer *)

Lemma seeding_is_init l :
  Forall (fun e => match e with EvSeed _ => True | _ => False end) l ->
  Forall init_event l /\ attempts l = 0%nat.
Proof.
  induction 1 as [|e l He _ [IH1 IH2]]; [split; [constructor | reflexivity]|].
  destruct e; try contradiction. split; [constructor; [exact I | exact IH1]|].
  exact IH2.
Qed.

(** [np.random.seed(s)]: the call is recorded, and the random state is
    replaced only when the call returns. *)
Lemma call_seed_eq s w :
  call_seed s w =
  match random_seed s with
  | Returns g => (Ok tt, {| rng := g; events := events w ++ [EvSeed s] |})
  | Raises e => (Raise e, {| rng := rng w; events := events w ++ [EvSeed s] |})
  end.
Proof.
  unfold call_seed, bind, emit, lift, set_rng. simpl.
  destruct (random_seed s); reflexivity.
Qed.

(** Lines 205-206 with a seed: the two calls of [np.random.seed] and the
    draw of [np.random.random] between them. *)
Lemma reseed_seeded so seed i w :
  init_seed so = Some seed ->
  reseed so i w =
  match random_seed (Int seed) with
  | Raises e =>
      (Raise e, {| rng := rng w; events := events w ++ [EvSeed (Int seed)] |})
  | Returns g0 =>
      let s := Float (fst (random_random g0) + float_of_Z i)%float in
      match random_seed s with
      | Raises e =>
          (Raise e, {| rng := snd (random_random g0);
                       events := events w ++ [EvSeed (Int seed); EvSeed s] |})
      | Returns g2 =>
          (Ok tt, {| rng := g2;
                     events := events w ++ [EvSeed (Int seed); EvSeed s] |})
      end
  end.
Proof.
  intros Hs. unfold reseed. rewrite Hs. unfold bind at 1. rewrite call_seed_eq.
  destruct (random_seed (Int seed)) as [g0|e]; [|reflexivity].
  unfold bind at 1. unfold call_random, bind, get_rng, set_rng, ret. simpl.
  destruct (random_random g0) as [x g1]. simpl. rewrite call_seed_eq. simpl.
  rewrite <- app_assoc. simpl. destruct (random_seed _); reflexivity.
Qed.

Lemma reseed_inv so i w r w' :
  reseed so i w = (r, w') ->
  r <> OutOfFuel
  /\ (exists new, events w' = events w ++ new
        /\ Forall (fun e => match e with EvSeed _ => True | _ => False end) new)
  /\ (init_seed so = None -> r = Ok tt /\ w' = w).
Proof.
  destruct (init_seed so) as [seed|] eqn:Hs.
  - rewrite (reseed_seeded so seed i w Hs). cbv zeta.
    destruct (random_seed (Int seed)) as [g0|e].
    + destruct (random_seed _) as [g2|e]; intros H; inversion H; subst; simpl;
        (split; [discriminate|]); (split; [|discriminate]);
        eexists; (split; [reflexivity|]); repeat constructor.
    + intros H; inversion H; subst; simpl.
      split; [discriminate|]. split; [|discriminate].
      eexists. split; [reflexivity|]. repeat constructor.
  - unfold reseed. rewrite Hs. unfold ret. intros H. inversion H; subst.
    split; [discriminate|]. split; [|auto].
    exists []. rewrite app_nil_r. split; [reflexivity | constructor].
Qed.

(** Line 207: the draw always returns; it advances the random state and is
    recorded. *)
Lemma random_subspace_eq B w :
  random_subspace B w =
  (Ok (make_array (space B) (fst (random_rand (rng w) (len B) (dim (space B))))),
   {| rng := snd (random_rand (rng w) (len B) (dim (space B)));
      events := events w ++
        [EvRand (len B) (dim (space B))
                (fst (random_rand (rng w) (len B) (dim (space B))))] |}).
Proof.
  unfold random_subspace, bind, get_rng, set_rng, emit, ret; simpl.
  destruct (random_rand (rng w) (len B) (dim (space B))) as [a g']. reflexivity.
Qed.

(** One pass of the loop of the initializer. *)
Lemma init_loop_S A E so todo i B w :
  projection_shifts_init_loop A E so (S todo) i B w =
  match gram_schmidt B with
  | Raises e => (Raise e, w)
  | Returns Q =>
      let w1 := {| rng := rng w;
                   events := events w ++
                     [EvEigvals (apply2 A Q Q) (apply2 E Q Q)] |} in
      match eigvals (apply2 A Q Q) (apply2 E Q Q) with
      | Raises e => (Raise e, w1)
      | Returns ev =>
          if (List.length (filter stable ev) =? 0)%nat
          then bind (reseed so i)
                 (fun _ => bind (random_subspace B)
                    (fun B' => projection_shifts_init_loop A E so todo (i + 1) B')) w1
          else (Ok (filter stable ev), w1)
      end
  end.
Proof.
  simpl. unfold bind at 1. unfold lift at 1.
  destruct (gram_schmidt B) as [Q|e]; [|reflexivity]. cbn [of_outcome].
  unfold bind at 1. unfold call_eigvals, bind, emit, lift. simpl.
  destruct (eigvals (apply2 A Q Q) (apply2 E Q Q)) as [ev|e]; [|reflexivity].
  cbn [of_outcome]. destruct (List.length _ =? 0)%nat; reflexivity.
Qed.

(** One retry: either the seeding raises, or an array is drawn and the loop
    goes on with it. *)
Lemma init_retry_inv A E so todo i B w1 r w' :
  bind (reseed so i)
    (fun _ => bind (random_subspace B)
       (fun B' => projection_shifts_init_loop A E so todo (i + 1) B')) w1
  = (r, w') ->
  (exists wa,
     reseed so i w1 = (Ok tt, wa)
     /\ projection_shifts_init_loop A E so todo (i + 1)
          (make_array (space B) (fst (random_rand (rng wa) (len B) (dim (space B)))))
          {| rng := snd (random_rand (rng wa) (len B) (dim (space B)));
             events := events wa ++
               [EvRand (len B) (dim (space B))
                       (fst (random_rand (rng wa) (len B) (dim (space B))))] |}
        = (r, w'))
  \/ (exists e, reseed so i w1 = (Raise e, w') /\ r = Raise e).
Proof.
  intros H. apply bind_inv in H.
  destruct H as [[[] [wa [Hr H]]] | [[e [Hr ->]] | [Hr _]]].
  - left. exists wa. split; [exact Hr|].
    unfold bind in H. rewrite random_subspace_eq in H. exact H.
  - right. eauto.
  - exfalso. exact (proj1 (reseed_inv _ _ _ _ _ Hr) eq_refl).
Qed.

(** The loop of the initializer ends; what it returns is not empty and has
    only entries with negative real part; it records calls of its own kind
    only. *)
Lemma init_loop_spec A E so todo : forall i B w r w',
  projection_shifts_init_loop A E so todo i B w = (r, w') ->
  r <> OutOfFuel
  /\ (forall s, r = Ok s -> s <> [] /\ Forall (fun c => stable c = true) s)
  /\ exists new, events w' = events w ++ new /\ Forall init_event new.
Proof.
  induction todo as [|todo IH]; intros i B w r w' H.
  - simpl in H. unfold raise in H. inversion H; subst.
    split; [discriminate|]. split; [intros s Hs; discriminate|].
    exists []. rewrite app_nil_r. split; [reflexivity | constructor].
  - rewrite init_loop_S in H.
    destruct (gram_schmidt B) as [Q|e].
    2:{ inversion H; subst. split; [discriminate|]. split; [discriminate|].
        exists []. rewrite app_nil_r. split; [reflexivity | constructor]. }
    cbv zeta in H.
    destruct (eigvals (apply2 A Q Q) (apply2 E Q Q)) as [ev|e].
    2:{ inversion H; subst. split; [discriminate|]. split; [discriminate|].
        eexists. split; [reflexivity|]. repeat constructor. }
    destruct (List.length _ =? 0)%nat eqn:Hlen.
    + apply init_retry_inv in H.
      destruct H as [[wa [Hr H]] | [e [Hr ->]]].
      * destruct (reseed_inv _ _ _ _ _ Hr) as [_ [[na [Hna Fa]] _]].
        apply IH in H. destruct H as [Hf [Hs [new' [Hnew' Fnew']]]].
        split; [exact Hf|]. split; [exact Hs|].
        exists ([EvEigvals (apply2 A Q Q) (apply2 E Q Q)] ++ na
                ++ [EvRand (len B) (dim (space B))
                      (fst (random_rand (rng wa) (len B) (dim (space B))))]
                ++ new').
        rewrite Hnew'. simpl. rewrite Hna. simpl. rewrite <- !app_assoc. simpl.
        split; [reflexivity|]. constructor; [exact I|].
        apply Forall_app. split; [exact (proj1 (seeding_is_init _ Fa))|].
        constructor; [exact I | exact Fnew'].
      * destruct (reseed_inv _ _ _ _ _ Hr) as [_ [[na [Hna Fa]] _]].
        split; [discriminate|]. split; [discriminate|].
        exists ([EvEigvals (apply2 A Q Q) (apply2 E Q Q)] ++ na).
        rewrite Hna. simpl. rewrite <- !app_assoc. simpl.
        split; [reflexivity|]. constructor; [exact I|].
        exact (proj1 (seeding_is_init _ Fa)).
    + inversion H; subst. clear H. simpl.
      split; [discriminate|]. split.
      * intros s Hs. inversion Hs; subst. split.
        -- intros Hnil. rewrite Hnil in Hlen. discriminate.
        -- apply Forall_stable_filter.
      * eexists. split; [reflexivity|]. repeat constructor.
Qed.

(** What the recorded calls of the initializer say: at most [todo]
    eigenvalue problems; when it returns, the shifts are the stable
    eigenvalues of the last pencil handed to [spla.eigvals], and every
    earlier pencil had none. *)
Lemma init_loop_trace A E so todo : forall i B w r w',
  projection_shifts_init_loop A E so todo i B w = (r, w') ->
  exists new, events w' = events w ++ new
    /\ (attempts new <= todo)%nat
    /\ forall s, r = Ok s ->
         exists before Ap Ep ev,
           new = before ++ [EvEigvals Ap Ep]
           /\ eigvals Ap Ep = Returns ev /\ s = filter stable ev
           /\ forall Ap' Ep', In (EvEigvals Ap' Ep') before ->
                exists ev', eigvals Ap' Ep' = Returns ev'
                            /\ filter stable ev' = [].
Proof.
  induction todo as [|todo IH]; intros i B w r w' H.
  - simpl in H. unfold raise in H. inversion H; subst.
    exists []. rewrite app_nil_r. split; [reflexivity|]. split; [unfold attempts; simpl; lia|].
    intros s Hs. discriminate.
  - rewrite init_loop_S in H.
    destruct (gram_schmidt B) as [Q|e].
    2:{ inversion H; subst. exists []. rewrite app_nil_r.
        split; [reflexivity|]. split; [unfold attempts; simpl; lia | discriminate]. }
    cbv zeta in H.
    destruct (eigvals (apply2 A Q Q) (apply2 E Q Q)) as [ev|e] eqn:Hev.
    2:{ inversion H; subst. eexists. split; [reflexivity|].
        split; [unfold attempts; simpl; lia | discriminate]. }
    destruct (List.length _ =? 0)%nat eqn:Hlen.
    + assert (Hnone : filter stable ev = [])
        by (destruct (filter stable ev); [reflexivity | discriminate]).
      apply init_retry_inv in H.
      destruct H as [[wa [Hr H]] | [e [Hr ->]]].
      * destruct (reseed_inv _ _ _ _ _ Hr) as [_ [[na [Hna Fa]] _]].
        destruct (seeding_is_init _ Fa) as [_ Za].
        apply IH in H. destruct H as [new' [Hnew' [Hle Hok]]].
        exists (([EvEigvals (apply2 A Q Q) (apply2 E Q Q)] ++ na
                 ++ [EvRand (len B) (dim (space B))
                       (fst (random_rand (rng wa) (len B) (dim (space B))))])
                ++ new').
        rewrite Hnew'. simpl. rewrite Hna. simpl. rewrite <- !app_assoc. simpl.
        split; [reflexivity|]. split.
        -- change (EvEigvals (apply2 A Q Q) (apply2 E Q Q)
                   :: na ++ EvRand (len B) (dim (space B))
                        (fst (random_rand (rng wa) (len B) (dim (space B)))) :: new')
             with ([EvEigvals (apply2 A Q Q) (apply2 E Q Q)]
                   ++ na ++ [EvRand (len B) (dim (space B))
                        (fst (random_rand (rng wa) (len B) (dim (space B))))] ++ new').
           rewrite !attempts_app, Za.
           change (attempts [EvEigvals _ _]) with 1%nat.
           change (attempts [EvRand _ _ _]) with 0%nat. lia.
        -- intros s Hs. destruct (Hok s Hs) as [before [Ap [Ep [ev' [Hn [He [Hsf Hb]]]]]]].
           exists (([EvEigvals (apply2 A Q Q) (apply2 E Q Q)] ++ na
                    ++ [EvRand (len B) (dim (space B))
                          (fst (random_rand (rng wa) (len B) (dim (space B))))])
                   ++ before), Ap, Ep, ev'.
           split; [rewrite Hn; simpl; rewrite <- !app_assoc; reflexivity|].
           split; [exact He|]. split; [exact Hsf|].
           intros Ap' Ep' Hin. apply in_app_or in Hin. destruct Hin as [Hin | Hin];
             [|exact (Hb _ _ Hin)].
           simpl in Hin. destruct Hin as [Hin | Hin].
           ++ inversion Hin; subst. eauto.
           ++ apply in_app_or in Hin. destruct Hin as [Hin | Hin].
              ** exfalso. rewrite Forall_forall in Fa. exact (Fa _ Hin).
              ** simpl in Hin. destruct Hin as [Hin | []]. discriminate Hin.
      * destruct (reseed_inv _ _ _ _ _ Hr) as [_ [[na [Hna Fa]] _]].
        destruct (seeding_is_init _ Fa) as [_ Za].
        exists ([EvEigvals (apply2 A Q Q) (apply2 E Q Q)] ++ na).
        rewrite Hna. simpl. rewrite <- !app_assoc. simpl.
        split; [reflexivity|]. split; [|discriminate].
        change (EvEigvals (apply2 A Q Q) (apply2 E Q Q) :: na)
          with ([EvEigvals (apply2 A Q Q) (apply2 E Q Q)] ++ na).
        rewrite attempts_app, Za. change (attempts [EvEigvals _ _]) with 1%nat. lia.
    + inversion H; subst. clear H. simpl.
      exists [EvEigvals (apply2 A Q Q) (apply2 E Q Q)].
      split; [reflexivity|]. split; [unfold attempts; simpl; lia|].
      intros s Hs. inversion Hs; subst.
      exists [], (apply2 A Q Q), (apply2 E Q Q), ev.
      split; [reflexivity|]. split; [exact Hev|]. split; [reflexivity|].
      intros Ap' Ep' [].
Qed.

(** Without a seed, when the attempt on every drawn array returns without a
    stable eigenvalue, the loop ends with the [RuntimeError] after [todo]
    attempts. *)
Lemma init_loop_exhaust A E so :
  init_seed so = None ->
  forall todo i B w,
    Forall (no_stable_eigenvalue A E) (drawn_subspaces todo B (rng w)) ->
    exists w',
      projection_shifts_init_loop A E so todo i B w
      = (Raise (RuntimeError
           "Could not generate initial shifts for low-rank ADI iteration."), w')
      /\ attempts (events w') = (attempts (events w) + todo)%nat.
Proof.
  intros Hnone. induction todo as [|todo IH]; intros i B w Hun.
  - exists w. split; [reflexivity | lia].
  - rewrite init_loop_S. simpl in Hun. inversion Hun as [|x l HB Hrest]; subst.
    unfold no_stable_eigenvalue, projected_shifts in HB.
    destruct (gram_schmidt B) as [Q|e]; [|discriminate HB].
    destruct (eigvals (apply2 A Q Q) (apply2 E Q Q)) as [ev|e]; [|discriminate HB].
    inversion HB as [Hf]. cbv zeta. rewrite Hf. simpl.
    unfold bind at 1. unfold reseed. rewrite Hnone. unfold ret at 1.
    unfold bind at 1. rewrite random_subspace_eq. simpl.
    match goal with |- context [projection_shifts_init_loop A E so todo ?i' ?B' ?w1] =>
      destruct (IH i' B' w1 Hrest) as [w' [Hw' Hatt]] end.
    exists w'. split; [exact Hw'|].
    rewrite Hatt. simpl. rewrite !attempts_app.
    change (attempts [EvEigvals _ _]) with 1%nat.
    change (attempts [EvRand _ _ _]) with 0%nat. lia.
Qed.


(** With a seed, and [np.random.seed] as NumPy has it, a retry raises
    [TypeError] at line 206: the loop never draws an array and never makes a
    second attempt. *)
Lemma init_loop_seeded_retry A E so seed todo i B w :
  seed_rejects_floats ->
  init_seed so = Some seed ->
  no_stable_eigenvalue A E B ->
  exists e w' Ap Ep,
    projection_shifts_init_loop A E so (S todo) i B w = (Raise e, w')
    /\ (random_seed (Int seed) = Raises e
        /\ events w' = events w ++ [EvEigvals Ap Ep; EvSeed (Int seed)]
        \/ exists g0 x,
             random_seed (Int seed) = Returns g0 /\ e = TypeError
             /\ events w' = events w ++
                  [EvEigvals Ap Ep; EvSeed (Int seed); EvSeed (Float x)]).
Proof.
  intros Hlaw Hseed HB. rewrite init_loop_S.
  unfold no_stable_eigenvalue, projected_shifts in HB.
  destruct (gram_schmidt B) as [Q|e]; [|discriminate HB].
  destruct (eigvals (apply2 A Q Q) (apply2 E Q Q)) as [ev|e]; [|discriminate HB].
  inversion HB as [Hf]. cbv zeta. rewrite Hf. simpl.
  unfold bind at 1. rewrite (reseed_seeded so seed i _ Hseed). cbv zeta.
  destruct (random_seed (Int seed)) as [g0|e].
  - rewrite Hlaw. do 4 eexists. split; [reflexivity|]. right.
    exists g0. eexists. split; [reflexivity|]. split; [reflexivity|].
    simpl. rewrite <- app_assoc. reflexivity.
  - do 4 eexists. split; [reflexivity|]. left. split; [reflexivity|].
    simpl. rewrite <- app_assoc. reflexivity.
Qed.

(** ** The bounded loops of the model never reach their bound *)

Lemma index_fuel n i : index n i <> OutOfFuel.
Proof. unfold index. destruct (_ && _); discriminate. Qed.

Lemma getitem_fuel {A} (a : list A) i : getitem a i <> OutOfFuel.
Proof.
  unfold getitem. destruct (index (List.length a) i) as [k| |] eqn:Hk; simpl.
  - destruct (nth_error a k); discriminate.
  - discriminate.
  - exfalso. exact (index_fuel _ _ Hk).
Qed.

Lemma setitem2_fuel a i k v : setitem2 a i k v <> OutOfFuel.
Proof.
  unfold setitem2. destruct (index (List.length a) i) as [i'| |] eqn:Hi; simpl.
  - destruct (nth_error a i') as [row|]; [|discriminate].
    destruct (index (List.length row) k) as [k'| |] eqn:Hk; simpl;
      [discriminate | discriminate | exfalso; exact (index_fuel _ _ Hk)].
  - discriminate.
  - exfalso. exact (index_fuel _ _ Hi).
Qed.

(** Case analysis on the first computation of a sequence for which running
    out of fuel is excluded by the lemma [L]. *)
Ltac first_call L :=
  match goal with
  | |- rbind ?x _ <> OutOfFuel =>
      let H := fresh "H" in
      destruct x eqn:H; simpl;
      [ | discriminate | exfalso; exact (L H) ]
  end.

Lemma assign_row_fuel i d f prev ks : forall a,
  assign_row a i d f prev ks <> OutOfFuel.
Proof.
  induction ks as [|k ks IH]; intros a; simpl; [discriminate|].
  first_call (@getitem_fuel complex prev k).
  match goal with |- rbind (setitem2 ?a ?i ?k ?v) _ <> _ =>
    first_call (@setitem2_fuel a i k v) end.
  apply IH.
Qed.

Lemma setblock2_fuel a i b00 b01 b10 b11 :
  setblock2 a i b00 b01 b10 b11 <> OutOfFuel.
Proof.
  unfold setblock2. destruct (i + 2 <=? _); [|discriminate].
  repeat match goal with |- rbind (setitem2 ?a ?i ?k ?v) _ <> _ =>
    first_call (@setitem2_fuel a i k v) end.
  apply setitem2_fuel.
Qed.

Lemma guarded_assign_fuel (c : bool) a i d f prev ks :
  (if c then assign_row a i d f prev ks else Ok a) <> OutOfFuel.
Proof. destruct c; [apply assign_row_fuel | discriminate]. Qed.

Lemma implicit_blocks_fuel prev d u iR iC : forall fuel i B G,
  (Z.to_nat (u - i) <= fuel)%nat ->
  implicit_blocks fuel prev d u iR iC i B G <> OutOfFuel.
Proof.
  induction fuel as [|fuel IH]; intros i B G Hf.
  - simpl. destruct (i <? u) eqn:Hi; [lia | discriminate].
  - simpl. destruct (i <? u) eqn:Hi; [|discriminate].
    first_call (@getitem_fuel complex prev (d + i)).
    match goal with |- rbind (setitem2 ?a ?i ?k ?v) _ <> _ =>
      first_call (@setitem2_fuel a i k v) end.
    destruct (eq0 (imag a)).
    + match goal with |- rbind (setitem2 ?a ?i ?k ?v) _ <> _ =>
        first_call (@setitem2_fuel a i k v) end.
      match goal with |- rbind (if ?c then assign_row ?a ?i ?d ?f ?p ?ks else _) _ <> _ =>
        first_call (@guarded_assign_fuel c a i d f p ks) end.
      match goal with |- rbind (if ?c then assign_row ?a ?i ?d ?f ?p ?ks else _) _ <> _ =>
        first_call (@guarded_assign_fuel c a i d f p ks) end.
      apply IH. lia.
    + match goal with |- rbind (setblock2 ?a ?i ?x ?y ?z ?t) _ <> _ =>
        first_call (@setblock2_fuel a i x y z t) end.
      match goal with |- rbind (if ?c then assign_row ?a ?i ?d ?f ?p ?ks else _) _ <> _ =>
        first_call (@guarded_assign_fuel c a i d f p ks) end.
      match goal with |- rbind (if ?c then assign_row ?a ?i ?d ?f ?p ?ks else _) _ <> _ =>
        first_call (@guarded_assign_fuel c a i d f p ks) end.
      apply IH. lia.
Qed.

Lemma zeros_fuel n m : zeros n m <> OutOfFuel.
Proof. unfold zeros. destruct (_ || _); discriminate. Qed.

Lemma implicit_matrices_fuel prev u d : implicit_matrices prev u d <> OutOfFuel.
Proof.
  unfold implicit_matrices.
  first_call (@zeros_fuel u u). first_call (@zeros_fuel u 1).
  apply implicit_blocks_fuel. lia.
Qed.

(** The projection fails only where [spla.kron] or [spla.svd] does. *)
Lemma implicit_projection_inv E Vu W r BG :
  match implicit_projection E Vu W r BG with
  | Ok _ => True
  | Raise e =>
      kron (array (fst BG)) (eye r) = Raises e
      \/ kron (array (snd BG)) (eye r) = Raises e
      \/ svd (gramian Vu) = Raises e
  | OutOfFuel => False
  end.
Proof.
  unfold implicit_projection. cbv zeta.
  destruct (kron (array (fst BG)) (eye r)) as [Bk|e]; cbn [of_outcome rbind]; [|auto].
  destruct (kron (array (snd BG)) (eye r)) as [Gk|e]; cbn [of_outcome rbind]; [|auto].
  destruct (svd (gramian Vu)) as [[[x sv] v]|e]; cbn [of_outcome rbind]; auto.
Qed.

Lemma implicit_pencil_fuel E Vu W prev u d r :
  implicit_pencil E Vu W prev u d r <> OutOfFuel.
Proof.
  unfold implicit_pencil.
  destruct (implicit_matrices prev u d) as [BG|e|] eqn:Hm; simpl;
    [ | discriminate | exfalso; exact (implicit_matrices_fuel _ _ _ Hm) ].
  pose proof (implicit_projection_inv E Vu W r BG) as Hp.
  destruct (implicit_projection E Vu W r BG);
    [discriminate | discriminate | contradiction].
Qed.

Lemma projection_window_fuel so prev : projection_window so prev <> OutOfFuel.
Proof.
  unfold projection_window.
  destruct (Z.of_nat (List.length prev) - z_columns so <? 0);
    match goal with |- rbind (getitem ?a ?i) _ <> _ =>
      first_call (@getitem_fuel complex a i) end; discriminate.
Qed.

(** ** The shift updater *)

(** The pencil of the explicit strategy (lines 294-296). *)
Lemma explicit_pencil_eq A E Vu w :
  bind (lift (of_outcome (gram_schmidt Vu)))
       (fun Q => ret (apply2 A Q Q, apply2 E Q Q)) w
  = (match gram_schmidt Vu with
     | Returns Q => Ok (apply2 A Q Q, apply2 E Q Q)
     | Raises e => Raise e
     end, w).
Proof. unfold bind, lift, ret. destruct (gram_schmidt Vu); reflexivity. Qed.

(** The call of [spla.eigvals] is the only call [projection_shifts]
    records; an exception comes before that call or from it. *)
Lemma projection_shifts_inv A E Zf W prev so w r w' :
  projection_shifts A E Zf W prev so w = (r, w') ->
  match r with
  | Ok s => exists Ap Ep ev,
      events w' = events w ++ [EvEigvals Ap Ep] /\ rng w' = rng w
      /\ eigvals Ap Ep = Returns ev /\ s = extended prev ev
  | Raise e =>
      w' = w
      \/ exists Ap Ep,
           events w' = events w ++ [EvEigvals Ap Ep] /\ rng w' = rng w
           /\ eigvals Ap Ep = Raises e
  | OutOfFuel => False
  end.
Proof.
  unfold projection_shifts, extended. unfold bind at 1. unfold lift at 1.
  destruct (projection_window so prev) as [[u d]| |] eqn:Hw.
  - unfold bind at 1.
    assert (Hp : exists rp, (if implicit_subspace so
                  then lift (implicit_pencil E (projection_subspace Zf (len W) u)
                               W prev u d (len W))
                  else bind (lift (of_outcome
                                     (gram_schmidt (projection_subspace Zf (len W) u))))
                            (fun Q => ret (apply2 A Q Q, apply2 E Q Q)))
                 w = (rp, w) /\ rp <> OutOfFuel).
    { destruct (implicit_subspace so).
      - eexists. split; [reflexivity | apply implicit_pencil_fuel].
      - rewrite explicit_pencil_eq. eexists. split; [reflexivity|].
        destruct (gram_schmidt _); discriminate. }
    destruct Hp as [rp [Hp Hnf]]. rewrite Hp.
    destruct rp as [[Ap Ep]|e|].
    + unfold bind, call_eigvals, bind, emit, lift, ret. simpl.
      destruct (eigvals Ap Ep) as [ev|e] eqn:Hev; simpl.
      * destruct (List.length _ =? 0)%nat eqn:Hlen;
          intros H; inversion H; subst; simpl;
          exists Ap, Ep, ev; rewrite Hlen; auto.
      * intros H; inversion H; subst; simpl. right. exists Ap, Ep. auto.
    + intros H; inversion H; subst. left. reflexivity.
    + congruence.
  - intros H; inversion H; subst. left. reflexivity.
  - exfalso. exact (projection_window_fuel _ _ Hw).
Qed.

Lemma extended_stable prev eigs :
  Forall (fun c => stable c = true) prev ->
  Forall (fun c => stable c = true) (extended prev eigs).
Proof.
  intros Hp. unfold extended. destruct (_ =? _)%nat; apply Forall_app; split; auto.
  apply Forall_stable_filter.
Qed.


(** ** One step of the iteration *)

Lemma real_step_inv env st s w r w' :
  real_step env st s w = (r, w') ->
  let AaE := LincombOperator [env_A env; env_E env] [Int 1; Float (real s)] in
  events w' = events w ++ [EvSolve (env_trans env) AaE (st_W st)]
  /\ rng w' = rng w
  /\ match r with
     | Ok (W', Z', j') => exists V,
         raw_solve env AaE (st_W st) = Returns V
         /\ W' = va_sub (st_W st) (va_mul (apply_E env V) (2 * real s)%float)
         /\ Z' = append (st_Z st) (va_mul V (sqrt (-2 * real s))%float)
         /\ j' = st_j st + 1
     | Raise _ => True
     | OutOfFuel => False
     end.
Proof.
  unfold real_step, raw_solve, apply_E.
  destruct (env_trans env); simpl;
    unfold bind, solve, bind, emit, lift, ret; simpl;
    match goal with |- context [of_outcome ?x] => destruct x as [V|e] end; simpl;
    intros H; inversion H; subst; simpl; repeat split; eauto.
Qed.

Lemma complex_step_inv env st s w r w' :
  complex_step env st s w = (r, w') ->
  let AaE := LincombOperator [env_A env; env_E env] [Int 1; Cplx s] in
  let g := (2 * sqrt (- real s))%float in
  let d := (real s / imag s)%float in
  events w' = events w ++ [EvSolve (env_trans env) AaE (st_W st)]
  /\ rng w' = rng w
  /\ match r with
     | Ok (W', Z', j') => exists V0,
         raw_solve env AaE (st_W st) = Returns V0
         /\ let V := if env_trans env then va_conj V0 else V0 in
            let X := va_add (va_real V) (va_mul (va_imag V) d) in
            W' = va_add (st_W st) (va_mul (apply_E env X) (pow2 g))
            /\ Z' = append (append (st_Z st) (va_mul X g))
                           (va_mul (va_imag V) (g * sqrt (pow2 d + 1))%float)
            /\ j' = st_j st + 2
     | Raise _ => True
     | OutOfFuel => False
     end.
Proof.
  unfold complex_step, raw_solve, apply_E.
  destruct (env_trans env); simpl;
    unfold bind, solve, bind, emit, lift, ret; simpl;
    match goal with |- context [of_outcome ?x] => destruct x as [V|e] end; simpl;
    intros H; inversion H; subst; simpl; repeat split; eauto.
Qed.

(** The real and the complex step together: the solve that is recorded, and
    the growth of [Z] and [j]. *)
Lemma step_inv env st s w r w' :
  (if eq0 (imag s) then real_step env st s else complex_step env st s) w = (r, w') ->
  let AaE := LincombOperator [env_A env; env_E env] [Int 1; shift_coefficient s] in
  events w' = events w ++ [EvSolve (env_trans env) AaE (st_W st)]
  /\ rng w' = rng w
  /\ r <> OutOfFuel.
Proof.
  unfold shift_coefficient. destruct (eq0 (imag s)); intros H.
  - apply real_step_inv in H. destruct H as [H1 [H2 H3]].
    repeat split; auto. intros ->. exact H3.
  - apply complex_step_inv in H. destruct H as [H1 [H2 H3]].
    repeat split; auto. intros ->. exact H3.
Qed.

Lemma refresh_shifts_inv env st W Zf j w r w' :
  standard env ->
  refresh_shifts env st W Zf j w = (r, w') ->
  (j < st_size_shift st /\ r = Ok (st_shifts st, st_size_shift st) /\ w' = w)
  \/ (st_size_shift st <= j /\ exists rp,
        projection_shifts (env_A env) (env_E env) Zf W (st_shifts st)
          (env_shift_options env) w = (rp, w')
        /\ r = match rp with
               | Ok s => Ok (s, Z.of_nat (List.length s))
               | Raise e => Raise e
               | OutOfFuel => OutOfFuel
               end).
Proof.
  intros Hstd. unfold refresh_shifts. rewrite Hstd.
  destruct (j >=? st_size_shift st) eqn:Hj.
  - intros H. right. split; [lia|].
    unfold bind in H.
    destruct (projection_shifts _ _ _ _ _ _ w) as [[s|e|] w1] eqn:Hp;
      unfold ret in H; inversion H; subst; eexists; split; reflexivity.
  - intros H. left. unfold ret in H. inversion H; subst. repeat split; lia.
Qed.

Lemma lradi_body_inv env st w r w' :
  lradi_body env st w = (r, w') ->
  match getitem (st_shifts st) (st_j st) with
  | Ok s =>
      exists r1 w1,
        (if eq0 (imag s) then real_step env st s else complex_step env st s) w = (r1, w1)
        /\ match r1 with
           | Ok (W', Z', j') =>
               exists r2 w2,
                 refresh_shifts env st W' Z' j' w1 = (r2, w2)
                 /\ match r2 with
                    | Ok sh =>
                        match norm2 (gramian W') with
                        | Returns res =>
                            r = Ok {| st_Z := Z'; st_W := W'; st_j := j';
                                      st_shifts := fst sh; st_size_shift := snd sh;
                                      st_res := res |}
                            /\ rng w' = rng w2
                            /\ events w' = events w2 ++
                                 [EvInfo j' (res / env_init_res env)%float]
                        | Raises e => r = Raise e /\ w' = w2
                        end
                    | Raise e => r = Raise e /\ w' = w2
                    | OutOfFuel => r = OutOfFuel /\ w' = w2
                    end
           | Raise e => r = Raise e /\ w' = w1
           | OutOfFuel => r = OutOfFuel /\ w' = w1
           end
  | Raise e => r = Raise e /\ w' = w
  | OutOfFuel => r = OutOfFuel /\ w' = w
  end.
Proof.
  unfold lradi_body. unfold bind at 1. unfold lift at 1.
  destruct (getitem (st_shifts st) (st_j st)) as [s|e|];
    [| intros H; inversion H; auto | intros H; inversion H; auto].
  unfold bind at 1.
  destruct ((if eq0 (imag s) then real_step env st s else complex_step env st s) w)
    as [[[[W' Z'] j']|e|] w1] eqn:Hstep;
    [| intros H; inversion H; subst; do 2 eexists; split; [reflexivity | simpl; auto]
     | intros H; inversion H; subst; do 2 eexists; split; [reflexivity | simpl; auto]].
  unfold bind at 1.
  destruct (refresh_shifts env st W' Z' j' w1) as [[sh|e|] w2] eqn:Href;
    intros H; do 2 eexists; (split; [reflexivity|]); simpl;
    do 2 eexists; (split; [exact Href|]); simpl.
  - unfold bind, lift, emit, ret in H.
    destruct (norm2 (gramian W')) as [res|e]; simpl in H;
      inversion H; subst; simpl; auto.
  - inversion H; auto.
  - inversion H; auto.
Qed.

Lemma step_advance env st s w W' Z' j' w' :
  (if eq0 (imag s) then real_step env st s else complex_step env st s) w
  = (Ok (W', Z', j'), w') ->
  j' = st_j st + (if eq0 (imag s) then 1 else 2).
Proof.
  destruct (eq0 (imag s)); intros H.
  - apply real_step_inv in H. destruct H as [_ [_ [V [_ [_ [_ H]]]]]]. exact H.
  - apply complex_step_inv in H. destruct H as [_ [_ [V [_ [_ [_ H]]]]]]. exact H.
Qed.

Lemma lradi_body_progress env st w r w' :
  standard env ->
  lradi_body env st w = (r, w') ->
  r <> OutOfFuel
  /\ forall st', r = Ok st' ->
       exists s, getitem (st_shifts st) (st_j st) = Ok s
                 /\ st_j st' = st_j st + (if eq0 (imag s) then 1 else 2).
Proof.
  intros Hstd H. apply lradi_body_inv in H.
  destruct (getitem (st_shifts st) (st_j st)) as [s|e|] eqn:Hg.
  - destruct H as [r1 [w1 [Hstep H]]].
    pose proof (step_inv _ _ _ _ _ _ Hstep) as [_ [_ Hnf]].
    destruct r1 as [[[W' Z'] j']|e|]; [| destruct H; subst; split; [discriminate|] | congruence].
    + destruct H as [r2 [w2 [Href H]]].
      pose proof (step_advance _ _ _ _ _ _ _ _ Hstep) as Hj.
      destruct (refresh_shifts_inv _ _ _ _ _ _ _ _ Hstd Href) as [[_ [-> _]] | [_ [rp [Hp ->]]]].
      * destruct (norm2 (gramian W')) as [res|e]; destruct H as [-> _];
          (split; [discriminate|]); intros st' Hst;
          [inversion Hst; subst; simpl; eauto | discriminate].
      * apply projection_shifts_inv in Hp.
        destruct rp as [sh|e|]; [| destruct H; subst; split; [discriminate|] | contradiction].
        -- destruct (norm2 (gramian W')) as [res|e]; destruct H as [-> _];
             (split; [discriminate|]); intros st' Hst;
             [inversion Hst; subst; simpl; eauto | discriminate].
        -- intros st' Hst. discriminate.
    + intros st' Hst. discriminate.
  - destruct H; subst. split; [discriminate|]. intros st' Hst. discriminate.
  - exfalso. exact (getitem_fuel _ _ Hg).
Qed.

(** ** The loop *)

(** Invariant rule for [while res > Btol and j < maxiter]: [I] relates the
    loop variables and the world at the loop head, [J] is what remains true
    of the world when a pass raises. *)
Lemma lradi_while_rule env (I : LoopState -> World -> Prop) (J : World -> Prop) :
  (forall st w, I st w -> J w) ->
  (forall st w r w', I st w -> lradi_cond env st = true ->
     lradi_body env st w = (r, w') ->
     match r with Ok st' => I st' w' | _ => J w' end) ->
  forall fuel st w r w', I st w ->
    lradi_while env fuel st w = (r, w') ->
    match r with
    | Ok st' => I st' w' /\ lradi_cond env st' = false
    | _ => J w'
    end.
Proof.
  intros HIJ Hbody. induction fuel as [|fuel IH]; intros st w r w' HI H;
    simpl in H; destruct (lradi_cond env st) eqn:Hc.
  - inversion H; subst. eauto.
  - unfold ret in H. inversion H; subst. auto.
  - unfold bind in H.
    destruct (lradi_body env st w) as [[st1|e|] w1] eqn:Hb.
    + apply (Hbody _ _ _ _ HI Hc) in Hb. exact (IH _ _ _ _ Hb H).
    + apply (Hbody _ _ _ _ HI Hc) in Hb. inversion H; subst. exact Hb.
    + apply (Hbody _ _ _ _ HI Hc) in Hb. inversion H; subst. exact Hb.
  - unfold ret in H. inversion H; subst. auto.
Qed.

(** [maxiter] passes are enough: every pass advances [j]. *)
Lemma lradi_while_fuel env :
  standard env ->
  forall fuel st w r w',
    (Z.to_nat (maxiter (env_options env) - st_j st) <= fuel)%nat ->
    lradi_while env fuel st w = (r, w') -> r <> OutOfFuel.
Proof.
  intros Hstd. induction fuel as [|fuel IH]; intros st w r w' Hf H;
    simpl in H; destruct (lradi_cond env st) eqn:Hc;
    try (unfold ret in H; inversion H; subst; discriminate).
  - unfold lradi_cond in Hc. apply andb_prop in Hc. destruct Hc as [_ Hc]. lia.
  - unfold bind in H.
    destruct (lradi_body env st w) as [[st1|e|] w1] eqn:Hb.
    + destruct (lradi_body_progress _ _ _ _ _ Hstd Hb) as [_ Hj].
      destruct (Hj st1 eq_refl) as [s [_ Hs]].
      eapply IH; [|exact H]. destruct (eq0 (imag s)); lia.
    + inversion H; subst. discriminate.
    + destruct (lradi_body_progress _ _ _ _ _ Hstd Hb) as [Hnf _]. congruence.
Qed.

(** ** Before and after the loop *)

Lemma lradi_setup_inv A E B trans options w r w' :
  lradi_setup A E B trans options w = (r, w') ->
  match dict_get (shift_options options) (shifts options) with
  | Ok so =>
      if String.eqb (so_type so) "projection_shifts" then
        exists sp reserve,
          initial_Z A B trans options = empty sp reserve
          /\ let w0 := {| rng := rng w; events := events w ++ [EvEmpty sp reserve] |} in
             match empty sp reserve with
             | Raises e => r = Raise e /\ w' = w0
             | Returns Zf0 =>
                 exists ri,
                   projection_shifts_init A (initial_E A E) (initial_W B trans) so w0
                   = (ri, w')
                   /\ r = match ri with
                          | Ok shifts =>
                              match norm2 (gramian (initial_W B trans)) with
                              | Returns res =>
                                  Ok (initial_env A E trans options so res,
                                      initial_state Zf0 (initial_W B trans) shifts res)
                              | Raises e => Raise e
                              end
                          | Raise e => Raise e
                          | OutOfFuel => OutOfFuel
                          end
             end
      else r = Raise (ValueError "Unknown lradi shift strategy") /\ w' = w
  | Raise e => r = Raise e /\ w' = w
  | OutOfFuel => r = OutOfFuel /\ w' = w
  end.
Proof.
  unfold lradi_setup. unfold bind at 1. unfold lift at 1.
  destruct (dict_get (shift_options options) (shifts options)) as [so|e|];
    [| intros H; inversion H; auto | intros H; inversion H; auto].
  unfold bind at 1. unfold lift at 1. unfold select_strategy.
  destruct (String.eqb (so_type so) "projection_shifts");
    [| intros H; inversion H; auto].
  unfold initial_W, initial_Z, initial_E.
  destruct trans; cbn [negb init_shifts]; intros H;
    [exists (range A), (dim (range B) * maxiter options)
    |exists (source A), (dim (source B) * maxiter options)];
    (split; [reflexivity|]); cbv zeta;
    unfold bind at 1 in H; unfold bind at 1 in H; unfold emit at 1 in H;
    unfold bind at 1 in H; unfold lift at 1 in H;
    match type of H with context [of_outcome (empty ?sp ?n)] =>
      destruct (empty sp n) as [Zf0|e0] end; cbn [of_outcome] in H;
    try (inversion H; subst; auto; fail);
    unfold ret at 1 in H; cbv iota beta in H; unfold bind at 1 in H;
    match type of H with context [projection_shifts_init ?a ?e ?b ?s ?w0] =>
      destruct (projection_shifts_init a e b s w0) as [[sh|e'|] w1] eqn:Hi end;
    try (inversion H; subst; eexists; split; [first [exact Hi | reflexivity] | reflexivity]);
    unfold bind, lift, ret in H;
    match type of H with context [of_outcome (norm2 ?g)] =>
      destruct (norm2 g) as [res|e1] end; cbn [of_outcome] in H;
    inversion H; subst; eexists; (split; [first [exact Hi | reflexivity] | reflexivity]).
Qed.

Lemma lradi_finish_inv env st w :
  lradi_finish env st w =
  (Ok (st_Z st),
   if PrimFloat.ltb (env_Btol env) (st_res st)
   then {| rng := rng w;
           events := events w ++
             [EvWarning (st_res st / env_init_res env)%float
                        (tol (env_options env)) (maxiter (env_options env))] |}
   else w).
Proof.
  unfold lradi_finish. destruct (PrimFloat.ltb _ _); reflexivity.
Qed.

Lemma initial_env_standard A E trans options so res :
  standard (initial_env A E trans options so res).
Proof. reflexivity. Qed.

Lemma init_event_quiet e : init_event e -> quiet e.
Proof. destruct e; simpl; intros H; try contradiction; reflexivity. Qed.

Lemma init_event_setup e : init_event e -> setup_event e.
Proof. destruct e; simpl; auto. Qed.

Lemma setup_event_quiet e : setup_event e -> quiet e.
Proof. destruct e; simpl; intros H; try contradiction; reflexivity. Qed.

(** The set-up ends, and whatever its outcome it records only the creation
    of [Z] and the calls of the initializer. *)
Lemma lradi_setup_events A E B trans options w r w' :
  lradi_setup A E B trans options w = (r, w') ->
  r <> OutOfFuel
  /\ exists new, events w' = events w ++ new /\ Forall setup_event new.
Proof.
  intros H. apply lradi_setup_inv in H.
  assert (Hnil : exists new, events w = events w ++ new /\ Forall setup_event new)
    by (exists []; rewrite app_nil_r; split; [reflexivity | constructor]).
  pose proof (dict_get_inv (shift_options options) (shifts options)) as Hd.
  destruct (dict_get (shift_options options) (shifts options)) as [so|e|];
    [| destruct H; subst; split; [discriminate | exact Hnil] | contradiction].
  destruct (String.eqb (so_type so) "projection_shifts");
    [| destruct H; subst; split; [discriminate | exact Hnil]].
  destruct H as [sp [reserve [_ H]]]. cbv zeta in H.
  destruct (empty sp reserve) as [Zf0|e].
  2:{ destruct H; subst. split; [discriminate|]. simpl.
      eexists. split; [reflexivity|]. repeat constructor. }
  destruct H as [ri [Hinit Hr]]. unfold projection_shifts_init in Hinit.
  pose proof (init_loop_spec _ _ _ _ _ _ _ _ _ Hinit) as [Hnf [_ [new [Hnew Fnew]]]].
  split.
  - subst r. destruct ri as [sh|e|]; [|discriminate|congruence].
    destruct (norm2 _); discriminate.
  - exists ([EvEmpty sp reserve] ++ new). rewrite Hnew. simpl.
    rewrite <- app_assoc. split; [reflexivity|].
    constructor; [exact I|].
    eapply Forall_impl; [|exact Fnew]. apply init_event_setup.
Qed.

Lemma lradi_setup_ok A E B trans options w env st w' :
  lradi_setup A E B trans options w = (Ok (env, st), w') ->
  exists so sh new res Zf0,
    dict_get (shift_options options) (shifts options) = Ok so
    /\ env = initial_env A E trans options so res
    /\ st = initial_state Zf0 (initial_W B trans) sh res
    /\ sh <> [] /\ Forall (fun c => stable c = true) sh
    /\ events w' = events w ++ new /\ Forall quiet new
    /\ initial_Z A B trans options = Returns Zf0
    /\ norm2 (gramian (initial_W B trans)) = Returns res
    /\ String.eqb (so_type so) "projection_shifts" = true.
Proof.
  intros H.
  destruct (lradi_setup_events _ _ _ _ _ _ _ _ H) as [_ [new [Hnew Fnew]]].
  apply lradi_setup_inv in H.
  destruct (dict_get (shift_options options) (shifts options)) as [so|e|];
    [| destruct H; discriminate | destruct H; discriminate].
  destruct (String.eqb (so_type so) "projection_shifts") eqn:Hty;
    [| destruct H; discriminate].
  destruct H as [sp [reserve [HZ H]]]. cbv zeta in H.
  destruct (empty sp reserve) as [Zf0|e]; [| destruct H; discriminate].
  destruct H as [ri [Hinit Hr]].
  destruct ri as [sh|e|]; try discriminate.
  destruct (norm2 (gramian (initial_W B trans))) as [res|e]; try discriminate.
  inversion Hr; subst env st.
  unfold projection_shifts_init in Hinit.
  pose proof (init_loop_spec _ _ _ _ _ _ _ _ _ Hinit) as [_ [Hs _]].
  destruct (Hs sh eq_refl) as [Hne Hstable].
  exists so, sh, new, res, Zf0. repeat split; auto.
  eapply Forall_impl; [|exact Fnew]. apply setup_event_quiet.
Qed.

(** ** Stability of the shifts *)

Lemma init_event_stable e : init_event e -> stable_event e.
Proof. destruct e; simpl; intros H c Hc; try contradiction; discriminate. Qed.

Lemma shift_coefficient_real s : real_part (shift_coefficient s) = real s.
Proof. unfold shift_coefficient. destruct (eq0 (imag s)); reflexivity. Qed.

Lemma body_stable env st w r w' :
  standard env ->
  Forall (fun c => stable c = true) (st_shifts st) ->
  Forall stable_event (events w) ->
  lradi_body env st w = (r, w') ->
  Forall stable_event (events w')
  /\ forall st', r = Ok st' -> Forall (fun c => stable c = true) (st_shifts st').
Proof.
  intros Hstd Hsh Hev H. apply lradi_body_inv in H.
  destruct (getitem (st_shifts st) (st_j st)) as [s|e|] eqn:Hg;
    [| destruct H; subst; split; [assumption | discriminate]
     | destruct H; subst; split; [assumption | discriminate]].
  destruct H as [r1 [w1 [Hstep H]]].
  assert (Hs : stable s = true).
  { apply getitem_In in Hg. rewrite Forall_forall in Hsh. auto. }
  assert (Hev1 : Forall stable_event (events w1)).
  { destruct (step_inv _ _ _ _ _ _ Hstep) as [-> _].
    apply Forall_app. split; [assumption|]. constructor; [|constructor].
    intros c Hc. simpl in Hc. inversion Hc; subst.
    rewrite shift_coefficient_real. exact Hs. }
  destruct r1 as [[[W' Z'] j']|e|];
    [| destruct H; subst; split; [assumption | discriminate]
     | destruct H; subst; split; [assumption | discriminate]].
  destruct H as [r2 [w2 [Href H]]].
  assert (Hev2 : Forall stable_event (events w2)
                 /\ forall sh, r2 = Ok sh -> Forall (fun c => stable c = true) (fst sh)).
  { destruct (refresh_shifts_inv _ _ _ _ _ _ _ _ Hstd Href)
      as [[_ [-> ->]] | [_ [rp [Hp ->]]]].
    - split; [assumption|]. intros sh Hsh'. inversion Hsh'; subst. exact Hsh.
    - apply projection_shifts_inv in Hp. destruct rp as [sh|e|].
      + destruct Hp as [Ap [Ep [ev [Hevp [_ [_ ->]]]]]]. split.
        * rewrite Hevp. apply Forall_app. split; [assumption|].
          constructor; [|constructor]. intros c Hc. discriminate.
        * intros sh' Hsh'. inversion Hsh'; subst. simpl.
          apply extended_stable. exact Hsh.
      + split; [|discriminate].
        destruct Hp as [-> | [Ap [Ep [Hevp _]]]]; [assumption|].
        rewrite Hevp. apply Forall_app. split; [assumption|].
        constructor; [|constructor]. intros c Hc. discriminate.
      + contradiction. }
  destruct Hev2 as [Hev2 Hsh2].
  destruct r2 as [sh|e|];
    [| destruct H; subst; split; [assumption | discriminate]
     | destruct H; subst; split; [assumption | discriminate]].
  destruct (norm2 (gramian W')) as [res|e];
    [| destruct H; subst; split; [assumption | discriminate]].
  destruct H as [-> [_ Hevw]]. split.
  - rewrite Hevw. apply Forall_app. split; [assumption|].
    constructor; [|constructor]. intros c Hc. discriminate.
  - intros st' Hst. inversion Hst; subst. simpl. apply Hsh2. reflexivity.
Qed.

Lemma lradi_body_shifts env st w st' w' :
  standard env ->
  lradi_body env st w = (Ok st', w') ->
  Forall (fun c => stable c = true) (st_shifts st) ->
  Forall (fun c => stable c = true) (st_shifts st').
Proof.
  intros Hstd Hb Hsh. apply lradi_body_inv in Hb.
  destruct (getitem (st_shifts st) (st_j st)) as [s|e|];
    [| destruct Hb; discriminate | destruct Hb; discriminate].
  destruct Hb as [r1 [wc [Hstep Hb]]].
  destruct r1 as [[[W' Z'] j']|e|];
    [| destruct Hb; discriminate | destruct Hb; discriminate].
  destruct Hb as [r2 [wd [Href Hb]]].
  destruct (refresh_shifts_inv _ _ _ _ _ _ _ _ Hstd Href)
    as [[_ [-> _]] | [_ [rp [Hp' ->]]]].
  - destruct (norm2 (gramian W')); destruct Hb as [Hb _]; [|discriminate].
    inversion Hb; subst. exact Hsh.
  - apply projection_shifts_inv in Hp'. destruct rp as [sh'|e|].
    + destruct Hp' as [Ap [Ep [ev [_ [_ [_ ->]]]]]].
      destruct (norm2 (gramian W')); destruct Hb as [Hb _]; [|discriminate].
      inversion Hb; subst. simpl. apply extended_stable. exact Hsh.
    + destruct Hb; discriminate.
    + contradiction.
Qed.

Lemma setup_event_stable e : setup_event e -> stable_event e.
Proof. destruct e; simpl; intros H c Hc; try contradiction; discriminate. Qed.

(** C1. The initializer returns only eigenvalues with negative real part; the
    updater returns [prev_shifts] followed either by eigenvalues with
    negative real part or by [prev_shifts] again, so stability is kept; at
    every loop head of [lradi] all entries of [shifts] have negative real
    part; and every shift that a solve of [lradi] consumes has negative real
    part. *)
Theorem shifts_have_negative_real_part :
  (forall A E B so w s w',
     projection_shifts_init A E B so w = (Ok s, w') ->
     Forall (fun c => stable c = true) s)
  /\ (forall A E Zf W prev so w s w',
        projection_shifts A E Zf W prev so w = (Ok s, w') ->
        (s = prev ++ prev
         \/ exists fresh, s = prev ++ fresh
                          /\ Forall (fun c => stable c = true) fresh)
        /\ (Forall (fun c => stable c = true) prev ->
            Forall (fun c => stable c = true) s))
  /\ (forall A E B trans options w env st0 w0 st w1,
        lradi_setup A E B trans options w = (Ok (env, st0), w0) ->
        passes env st0 w0 st w1 ->
        Forall (fun c => stable c = true) (st_shifts st))
  /\ (forall A E B trans options w r w',
        lradi A E B trans options w = (r, w') ->
        Forall stable_event (events w) ->
        Forall stable_event (events w')).
Proof.
  split; [|split; [|split]].
  - intros A E B so w s w' H. unfold projection_shifts_init in H.
    apply init_loop_spec in H. destruct H as [_ [H _]].
    destruct (H s eq_refl) as [_ Hs]. exact Hs.
  - intros A E Zf W prev so w s w' H. apply projection_shifts_inv in H.
    destruct H as [Ap [Ep [ev [_ [_ [_ ->]]]]]]. split.
    + unfold extended. destruct (_ =? _)%nat; [left; reflexivity|].
      right. eexists. split; [reflexivity | apply Forall_stable_filter].
    + apply extended_stable.
  - intros A E B trans options w env st0 w0 st w1 Hset Hp.
    destruct (lradi_setup_ok _ _ _ _ _ _ _ _ _ Hset)
      as [so [sh [new [res0 [Zf0 [_ [Henv [Hst [_ [Hstable _]]]]]]]]]].
    assert (Hstd : standard env) by (subst env; apply initial_env_standard).
    assert (Hinv : forall st w st' w',
              passes env st w st' w' ->
              Forall (fun c => stable c = true) (st_shifts st) ->
              Forall (fun c => stable c = true) (st_shifts st')).
    { intros sta wa stb wb Hpp.
      induction Hpp as [|sta wa st1 wb1 st2 wb2 Hc Hb Hpp IH];
        intros Hsh; [exact Hsh|].
      apply IH. exact (lradi_body_shifts _ _ _ _ _ Hstd Hb Hsh). }
    apply (Hinv _ _ _ _ Hp). subst st0. exact Hstable.
  - intros A E B trans options w r w' H Hev. unfold lradi in H.
    apply bind_inv in H.
    assert (Hsetup : forall r1 w1, lradi_setup A E B trans options w = (r1, w1) ->
                                   Forall stable_event (events w1)).
    { intros r1 w1 Hset.
      destruct (lradi_setup_events _ _ _ _ _ _ _ _ Hset) as [_ [new [Hnew Fnew]]].
      rewrite Hnew. apply Forall_app. split; [assumption|].
      eapply Forall_impl; [|exact Fnew]. apply setup_event_stable. }
    destruct H as [[[env st] [w1 [Hset H]]] | [[e [Hset ->]] | [Hset ->]]];
      [| exact (Hsetup _ _ Hset) | exact (Hsetup _ _ Hset)].
    pose proof (Hsetup _ _ Hset) as Hev1.
    destruct (lradi_setup_ok _ _ _ _ _ _ _ _ _ Hset)
      as [so [sh [new [res0 [Zf0 [_ [Henv [Hst [_ [Hstable _]]]]]]]]]].
    assert (Hstd : standard env) by (subst env; apply initial_env_standard).
    apply bind_inv in H.
    assert (Hloop : forall fuel st w r w',
              Forall (fun c => stable c = true) (st_shifts st)
              /\ Forall stable_event (events w) ->
              lradi_while env fuel st w = (r, w') ->
              match r with
              | Ok st' => (Forall (fun c => stable c = true) (st_shifts st')
                           /\ Forall stable_event (events w'))
                          /\ lradi_cond env st' = false
              | _ => Forall stable_event (events w')
              end).
    { apply (lradi_while_rule env
               (fun st w => Forall (fun c => stable c = true) (st_shifts st)
                            /\ Forall stable_event (events w))
               (fun w => Forall stable_event (events w))).
      - intros st0 w0 [_ H0]. exact H0.
      - intros st0 w0 r0 w0' [Hsh0 Hev0] _ Hb.
        destruct (body_stable _ _ _ _ _ Hstd Hsh0 Hev0 Hb) as [Hev' Hsh'].
        destruct r0; auto. }
    assert (Hst0 : Forall (fun c => stable c = true) (st_shifts st))
      by (subst st; exact Hstable).
    destruct H as [[st' [w2 [Hw H]]] | [[e [Hw ->]] | [Hw ->]]].
    + apply Hloop in Hw; [|split; assumption].
      destruct Hw as [[_ Hev2] _].
      rewrite lradi_finish_inv in H. inversion H; subst.
      destruct (PrimFloat.ltb _ _); [|assumption]. simpl.
      apply Forall_app. split; [assumption|].
      constructor; [|constructor]. intros c Hc. discriminate.
    + apply Hloop in Hw; [exact Hw | split; assumption].
    + apply Hloop in Hw; [exact Hw | split; assumption].
Qed.

(** ** Columns of [Z] *)

Lemma total_blocks_quiet l : Forall quiet l -> total_blocks l = 0%nat.
Proof.
  induction 1 as [|e l He _ IH]; simpl; [reflexivity|].
  unfold blocks_of. rewrite He, IH. reflexivity.
Qed.

Lemma apply_E_len env U : LengthLaws -> len (apply_E env U) = len U.
Proof.
  intros L. unfold apply_E.
  destruct (env_trans env); [apply len_apply_adjoint | apply len_apply]; exact L.
Qed.

Lemma raw_solve_len env op U V :
  LengthLaws -> raw_solve env op U = Returns V -> len V = len U.
Proof.
  intros L. unfold raw_solve.
  destruct (env_trans env);
    [apply len_apply_inverse_adjoint | apply len_apply_inverse]; exact L.
Qed.

Lemma step_columns env st s w W' Z' j' w' :
  LengthLaws ->
  (if eq0 (imag s) then real_step env st s else complex_step env st s) w
  = (Ok (W', Z', j'), w') ->
  len W' = len (st_W st)
  /\ len Z' = (len (st_Z st) + stride s * len (st_W st))%nat
  /\ j' = st_j st + Z.of_nat (stride s)
  /\ total_blocks (events w') = (total_blocks (events w) + stride s)%nat.
Proof.
  intros L H. pose proof (step_inv _ _ _ _ _ _ H) as [Hev _].
  assert (Hblocks : total_blocks (events w') = (total_blocks (events w) + stride s)%nat).
  { rewrite Hev, total_blocks_app. simpl. unfold blocks_of, stride. simpl.
    unfold shift_coefficient. destruct (eq0 (imag s)); simpl; lia. }
  unfold stride in *. destruct (eq0 (imag s)).
  - apply real_step_inv in H. destruct H as [_ [_ [V [HV [-> [-> ->]]]]]].
    apply (raw_solve_len _ _ _ _ L) in HV.
    repeat split; auto.
    + apply (len_va_sub L). rewrite (len_va_mul L), apply_E_len; auto.
    + rewrite (len_append L), (len_va_mul L), HV. lia.
  - apply complex_step_inv in H. destruct H as [_ [_ [V0 [HV [-> [-> ->]]]]]].
    apply (raw_solve_len _ _ _ _ L) in HV.
    set (V := if env_trans env then va_conj V0 else V0).
    assert (HlenV : len V = len (st_W st)).
    { unfold V. destruct (env_trans env); [rewrite (len_va_conj L)|]; exact HV. }
    assert (HX : forall d, len (va_add (va_real V) (va_mul (va_imag V) d))
                           = len (st_W st)).
    { intros d. rewrite (len_va_add L); rewrite ?(len_va_mul L),
        ?(len_va_real L), ?(len_va_imag L); auto. }
    repeat split; auto.
    + apply (len_va_add L). rewrite (len_va_mul L), apply_E_len, HX; auto.
    + rewrite !(len_append L), !(len_va_mul L), HX, (len_va_imag L), HlenV. lia.
Qed.

Lemma body_columns env st w st' w' :
  LengthLaws -> standard env ->
  lradi_body env st w = (Ok st', w') ->
  exists s, getitem (st_shifts st) (st_j st) = Ok s
    /\ len (st_W st') = len (st_W st)
    /\ len (st_Z st') = (len (st_Z st) + stride s * len (st_W st))%nat
    /\ st_j st' = st_j st + Z.of_nat (stride s)
    /\ total_blocks (events w') = (total_blocks (events w) + stride s)%nat.
Proof.
  intros L Hstd H. apply lradi_body_inv in H.
  destruct (getitem (st_shifts st) (st_j st)) as [s|e|];
    [| destruct H; discriminate | destruct H; discriminate].
  destruct H as [r1 [w1 [Hstep H]]].
  destruct r1 as [[[W' Z'] j']|e|];
    [| destruct H; discriminate | destruct H; discriminate].
  destruct H as [r2 [w2 [Href H]]].
  destruct (step_columns _ _ _ _ _ _ _ _ L Hstep) as [HW [HZ [Hj Hb]]].
  assert (Hb2 : total_blocks (events w2) = total_blocks (events w1)).
  { destruct (refresh_shifts_inv _ _ _ _ _ _ _ _ Hstd Href)
      as [[_ [_ ->]] | [_ [rp [Hp Hr2]]]]; [reflexivity|].
    apply projection_shifts_inv in Hp. destruct rp as [sh|e|].
    - destruct Hp as [Ap [Ep [ev [-> _]]]]. rewrite total_blocks_app. simpl. lia.
    - destruct Hp as [-> | [Ap [Ep [-> _]]]]; [reflexivity|].
      rewrite total_blocks_app. simpl. lia.
    - contradiction. }
  destruct r2 as [sh|e|];
    [| destruct H; discriminate | destruct H; discriminate].
  split_norm H; [| destruct H; discriminate].
  destruct H as [Hst [_ Hev]]. inversion Hst; subst st'. simpl.
  exists s. repeat split; auto.
  rewrite Hev, total_blocks_app, Hb2, Hb. simpl. lia.
Qed.

(** C2. A pass of the loop with a real shift appends one block of
    [r = len(W)] columns to [Z] and advances [j] by 1, a pass with a complex
    shift appends two blocks and advances [j] by 2; the [Z] that [lradi]
    returns has [r] columns for every real shift consumed and [2 r] for every
    complex one. *)
Theorem columns_of_Z :
  LengthLaws ->
  (forall env st w st' w',
     standard env ->
     lradi_body env st w = (Ok st', w') ->
     exists s, getitem (st_shifts st) (st_j st) = Ok s
       /\ len (st_W st') = len (st_W st)
       /\ if eq0 (imag s)
          then len (st_Z st') = (len (st_Z st) + len (st_W st))%nat
               /\ st_j st' = st_j st + 1
          else len (st_Z st') = (len (st_Z st) + 2 * len (st_W st))%nat
               /\ st_j st' = st_j st + 2)
  /\ (forall A E B trans options w Zf w',
        events w = [] ->
        lradi A E B trans options w = (Ok Zf, w') ->
        len Zf = (total_blocks (events w') * len (initial_W B trans))%nat).
Proof.
  intros L. split.
  - intros env st w st' w' Hstd H.
    destruct (body_columns _ _ _ _ _ L Hstd H) as [s [Hg [HW [HZ [Hj _]]]]].
    exists s. split; [exact Hg|]. split; [exact HW|].
    unfold stride in *. destruct (eq0 (imag s)); split; lia.
  - intros A E B trans options w Zf w' Hw0 H. unfold lradi in H.
    apply bind_ok_inv in H. destruct H as [[env st] [w1 [Hset H]]].
    apply bind_ok_inv in H. destruct H as [st' [w2 [Hloop H]]].
    destruct (lradi_setup_ok _ _ _ _ _ _ _ _ _ Hset)
      as [so [sh [new [res0 [Zf0 [_ [Henv [Hst [_ [_ [Hev Hq]]]]]]]]]]].
    set (r := len (initial_W B trans)).
    assert (Hbody : forall st0 w0 r0 w0',
              len (st_W st0) = r
              /\ len (st_Z st0) = (total_blocks (events w0) * r)%nat ->
              lradi_cond env st0 = true ->
              lradi_body env st0 w0 = (r0, w0') ->
              match r0 with
              | Ok st1 => len (st_W st1) = r
                          /\ len (st_Z st1) = (total_blocks (events w0') * r)%nat
              | _ => True
              end).
    { intros st0 w0 r0 w0' [HW HZ] _ Hb. destruct r0 as [st1|e|]; auto.
      assert (Hstd : standard env) by (subst env; apply initial_env_standard).
      destruct (body_columns _ _ _ _ _ L Hstd Hb) as [s [_ [HW1 [HZ1 [_ Hb1]]]]].
      split; [congruence|]. rewrite HZ1, Hb1, HZ, HW. lia. }
    assert (Hinit : len (st_W st) = r
                    /\ len (st_Z st) = (total_blocks (events w1) * r)%nat).
    { subst st. simpl. split; [reflexivity|].
      rewrite Hev, Hw0. simpl. rewrite (total_blocks_quiet _ (proj1 Hq)). simpl.
      destruct Hq as [_ [HZ0 _]]. unfold initial_Z in HZ0.
      destruct trans; exact (len_empty L _ _ _ HZ0). }
    destruct (lradi_while_rule env
      (fun st w => len (st_W st) = r
                   /\ len (st_Z st) = (total_blocks (events w) * r)%nat)
      (fun _ => True) (fun _ _ _ => I) Hbody _ _ _ _ _ Hinit Hloop)
      as [[_ HZ] _].
    rewrite lradi_finish_inv in H. inversion H; subst Zf w'. rewrite HZ.
    destruct (PrimFloat.ltb _ _); [|reflexivity].
    simpl. rewrite total_blocks_app. simpl. lia.
Qed.

(** ** The complex step and real-valued factors *)

Lemma step_real env st s w W' Z' j' w' :
  RealLaws (env_A env) (env_E env) ->
  is_real (st_Z st) = true -> is_real (st_W st) = true ->
  (if eq0 (imag s) then real_step env st s else complex_step env st s) w
  = (Ok (W', Z', j'), w') ->
  is_real Z' = true /\ is_real W' = true.
Proof.
  intros R HZ HW H. destruct (eq0 (imag s)).
  - apply real_step_inv in H. destruct H as [_ [_ [V [HV [-> [-> _]]]]]].
    assert (HrV : is_real V = true).
    { unfold raw_solve in HV. destruct (env_trans env).
      - exact (real_apply_inverse_adjoint _ _ R _ _ _ HW HV).
      - exact (real_apply_inverse _ _ R _ _ _ HW HV). }
    split.
    + apply (real_append _ _ R); [exact HZ|]. apply (real_va_mul _ _ R). exact HrV.
    + apply (real_va_sub _ _ R); [exact HW|]. apply (real_va_mul _ _ R).
      unfold apply_E. destruct (env_trans env);
        [apply (real_apply_adjoint _ _ R) | apply (real_apply _ _ R)]; exact HrV.
  - apply complex_step_inv in H. destruct H as [_ [_ [V0 [_ [-> [-> _]]]]]].
    set (V := if env_trans env then va_conj V0 else V0).
    assert (HX : forall d, is_real (va_add (va_real V) (va_mul (va_imag V) d)) = true).
    { intros d. apply (real_va_add _ _ R); [apply (real_va_real _ _ R)|].
      apply (real_va_mul _ _ R), (real_va_imag _ _ R). }
    split.
    + apply (real_append _ _ R).
      * apply (real_append _ _ R); [exact HZ|]. apply (real_va_mul _ _ R), HX.
      * apply (real_va_mul _ _ R), (real_va_imag _ _ R).
    + apply (real_va_add _ _ R); [exact HW|]. apply (real_va_mul _ _ R).
      unfold apply_E. destruct (env_trans env);
        [apply (real_apply_adjoint _ _ R) | apply (real_apply _ _ R)]; apply HX.
Qed.

(** C3. For a shift [s] with non-zero imaginary part a pass of the loop
    solves with [A + s E] (adjoint solve, conjugated, for [trans]), sets
    [g = 2 sqrt(-Re s)] and [d = Re s / Im s], replaces [W] by
    [W + g^2 E(Re V + d Im V)], appends [(Re V + d Im V) g] and
    [Im V (g sqrt(d^2 + 1))] to [Z] and advances [j] by 2, the squares
    [g^2] and [d^2] being NumPy's [g ** 2] and [d ** 2]; and for real
    operators every pass keeps [Z] and [W] real-valued. *)
Theorem complex_step_is_real_arithmetic :
  (forall env st w st' w' s,
     lradi_body env st w = (Ok st', w') ->
     getitem (st_shifts st) (st_j st) = Ok s ->
     eq0 (imag s) = false ->
     exists V0,
       raw_solve env (LincombOperator [env_A env; env_E env] [Int 1; Cplx s])
         (st_W st) = Returns V0
       /\ let V := if env_trans env then va_conj V0 else V0 in
          let g := (2 * sqrt (- real s))%float in
          let d := (real s / imag s)%float in
          let X := va_add (va_real V) (va_mul (va_imag V) d) in
          st_W st' = va_add (st_W st) (va_mul (apply_E env X) (pow2 g))
          /\ st_Z st' = append (append (st_Z st) (va_mul X g))
                               (va_mul (va_imag V) (g * sqrt (pow2 d + 1))%float)
          /\ st_j st' = st_j st + 2)
  /\ (forall env st w st' w',
        RealLaws (env_A env) (env_E env) ->
        is_real (st_Z st) = true -> is_real (st_W st) = true ->
        lradi_body env st w = (Ok st', w') ->
        is_real (st_Z st') = true /\ is_real (st_W st') = true).
Proof.
  split.
  - intros env st w st' w' s H Hg Hs. apply lradi_body_inv in H.
    rewrite Hg, Hs in H. destruct H as [r1 [w1 [Hstep H]]].
    destruct r1 as [[[W' Z'] j']|e|];
      [| destruct H; discriminate | destruct H; discriminate].
    destruct H as [r2 [w2 [_ H]]].
    destruct r2 as [sh|e|];
      [| destruct H; discriminate | destruct H; discriminate].
    split_norm H; [| destruct H; discriminate].
    destruct H as [Hst _]. inversion Hst; subst st'. simpl.
    apply complex_step_inv in Hstep.
    destruct Hstep as [_ [_ [V0 [HV Hrest]]]]. exists V0. split; [exact HV|].
    exact Hrest.
  - intros env st w st' w' R HZ HW H. apply lradi_body_inv in H.
    destruct (getitem (st_shifts st) (st_j st)) as [s|e|];
      [| destruct H; discriminate | destruct H; discriminate].
    destruct H as [r1 [w1 [Hstep H]]].
    destruct r1 as [[[W' Z'] j']|e|];
      [| destruct H; discriminate | destruct H; discriminate].
    destruct H as [r2 [w2 [_ H]]].
    destruct r2 as [sh|e|];
      [| destruct H; discriminate | destruct H; discriminate].
    split_norm H; [| destruct H; discriminate].
    destruct H as [Hst _]. inversion Hst; subst st'. simpl.
    exact (step_real _ _ _ _ _ _ _ _ R HZ HW Hstep).
Qed.

(** ** Termination of the iteration *)

Lemma while_passes env : forall fuel st w st' w',
  lradi_while env fuel st w = (Ok st', w') ->
  passes env st w st' w' /\ lradi_cond env st' = false.
Proof.
  induction fuel as [|fuel IH]; intros st w st' w' H; simpl in H;
    destruct (lradi_cond env st) eqn:Hc;
    try (unfold ret in H; inversion H; subst; split; [constructor | exact Hc]).
  - discriminate.
  - apply bind_ok_inv in H. destruct H as [st1 [w1 [Hb H]]].
    apply IH in H. destruct H as [Hp Hc']. split; [|exact Hc'].
    econstructor; eauto.
Qed.

Lemma passes_while env st w st' w' :
  passes env st w st' w' -> lradi_cond env st' = false ->
  forall fuel r w2, lradi_while env fuel st w = (r, w2) -> r <> OutOfFuel ->
    r = Ok st' /\ w2 = w'.
Proof.
  induction 1 as [st w | st w st1 w1 st2 w2 Hc Hb Hp IH]; intros Hc' fuel r w3 H Hnf.
  - destruct fuel; simpl in H; rewrite Hc' in H;
      unfold ret in H; inversion H; auto.
  - destruct fuel; simpl in H; rewrite Hc in H.
    + inversion H; subst. congruence.
    + unfold bind in H. rewrite Hb in H. eapply IH; eauto.
Qed.

(** C5. After the set-up, [res] and [init_res] are the spectral norm of
    [gramian(W0)], [Btol = res * tol], and the loop makes passes exactly as
    long as [res > Btol and j < maxiter]; [maxiter] passes of the model are
    always enough.  When the loop ends, [lradi] returns the accumulated [Z];
    if the tolerance was not met then [j >= maxiter] and the last record is
    the warning with the relative residual [res / init_res].  (The norms
    are those that [np.linalg.norm] returned.) *)
Theorem lradi_returns_best_effort A E B trans options w env st0 w0 :
  lradi_setup A E B trans options w = (Ok (env, st0), w0) ->
  (norm2 (gramian (initial_W B trans)) = Returns (st_res st0)
   /\ norm2 (gramian (initial_W B trans)) = Returns (env_init_res env)
   /\ env_Btol env = (env_init_res env * tol options)%float)
  /\ (forall st, lradi_cond env st
                 = PrimFloat.ltb (env_Btol env) (st_res st)
                   && (st_j st <? maxiter options))
  /\ (forall st w st' w',
        lradi_body env st w = (Ok st', w') ->
        norm2 (gramian (st_W st')) = Returns (st_res st'))
  /\ (forall r w1,
        lradi_while env (Z.to_nat (maxiter options)) st0 w0 = (r, w1) ->
        r <> OutOfFuel)
  /\ (forall st w1,
        lradi_while env (Z.to_nat (maxiter options)) st0 w0 = (Ok st, w1)
        <-> passes env st0 w0 st w1 /\ lradi_cond env st = false)
  /\ (forall st w1,
        lradi_while env (Z.to_nat (maxiter options)) st0 w0 = (Ok st, w1) ->
        exists w2,
          lradi A E B trans options w = (Ok (st_Z st), w2)
          /\ if PrimFloat.ltb (env_Btol env) (st_res st)
             then maxiter options <= st_j st
                  /\ rng w2 = rng w1
                  /\ events w2 = events w1 ++
                       [EvWarning (st_res st / env_init_res env)%float
                                  (tol options) (maxiter options)]
             else w2 = w1).
Proof.
  intros Hset.
  destruct (lradi_setup_ok _ _ _ _ _ _ _ _ _ Hset)
    as [so [sh [new [res0 [Zf0 [_ [Henv [Hst [_ [_ [_ [_ [_ [Hres0 _]]]]]]]]]]]]]].
  assert (Hstd : standard env) by (subst env; apply initial_env_standard).
  assert (Hopt : env_options env = options) by (subst env; reflexivity).
  assert (Hfuel : forall r w1,
            lradi_while env (Z.to_nat (maxiter options)) st0 w0 = (r, w1) ->
            r <> OutOfFuel).
  { intros r w1 H. eapply (lradi_while_fuel env Hstd); [|exact H].
    rewrite Hopt. subst st0. simpl. lia. }
  split; [subst env st0; simpl; auto|].
  split; [intros st; unfold lradi_cond; rewrite Hopt; reflexivity|].
  split.
  { intros st w1 st' w1' H. apply lradi_body_inv in H.
    destruct (getitem (st_shifts st) (st_j st)) as [s|e|];
      [| destruct H; discriminate | destruct H; discriminate].
    destruct H as [r1 [wa [_ H]]].
    destruct r1 as [[[W' Z'] j']|e|];
      [| destruct H; discriminate | destruct H; discriminate].
    destruct H as [r2 [wb [_ H]]].
    destruct r2 as [sh'|e|];
      [| destruct H; discriminate | destruct H; discriminate].
    split_norm H; [| destruct H; discriminate].
    destruct H as [H _]. inversion H; subst. simpl. exact Hres. }
  split; [exact Hfuel|].
  split.
  { intros st w1. split.
    - apply while_passes.
    - intros [Hp Hc].
      assert (Hex : exists r w2,
                lradi_while env (Z.to_nat (maxiter options)) st0 w0 = (r, w2))
        by (destruct (lradi_while env (Z.to_nat (maxiter options)) st0 w0); eauto).
      destruct Hex as [r [w2 Hw]].
      destruct (passes_while _ _ _ _ _ Hp Hc _ _ _ Hw (Hfuel _ _ Hw)) as [-> ->].
      exact Hw. }
  intros st w1 Hw. unfold lradi. unfold bind at 1. rewrite Hset.
  unfold bind at 1. rewrite Hw. rewrite lradi_finish_inv.
  eexists. split; [reflexivity|].
  destruct (while_passes _ _ _ _ _ _ Hw) as [_ Hc].
  destruct (PrimFloat.ltb (env_Btol env) (st_res st)) eqn:Hres; [|reflexivity].
  unfold lradi_cond in Hc. rewrite Hres in Hc. simpl in Hc.
  rewrite Hopt in *. split; [lia|]. split; reflexivity.
Qed.

(** ** Exhaustion and determinism of the initializer *)


(** C6. Without a seed, if the attempt on the initial array and on every
    array drawn for a retry returns without an eigenvalue of negative real
    part, the initializer raises [RuntimeError] after exactly [init_maxiter]
    eigenvalue computations; and whenever it returns, the shift set is not
    empty.  With a seed it gives up earlier: after the first attempt without
    a stable eigenvalue line 206 hands a float to [np.random.seed], which
    raises [TypeError], so the run ends after one attempt and before any
    array is drawn. *)
Theorem initializer_exhaustion :
  (forall A E B so w,
     init_seed so = None ->
     0 <= init_maxiter so ->
     Forall (no_stable_eigenvalue A E)
       (drawn_subspaces (Z.to_nat (init_maxiter so)) B (rng w)) ->
     exists w',
       projection_shifts_init A E B so w
       = (Raise (RuntimeError
            "Could not generate initial shifts for low-rank ADI iteration."), w')
       /\ Z.of_nat (attempts (events w'))
          = Z.of_nat (attempts (events w)) + init_maxiter so)
  /\ (forall A E B so w s w',
        projection_shifts_init A E B so w = (Ok s, w') -> s <> [])
  /\ (forall A E B so seed g0 w,
        seed_rejects_floats ->
        init_seed so = Some seed ->
        random_seed (Int seed) = Returns g0 ->
        1 <= init_maxiter so ->
        no_stable_eigenvalue A E B ->
        exists w' Ap Ep x,
          projection_shifts_init A E B so w = (Raise TypeError, w')
          /\ events w' = events w ++
               [EvEigvals Ap Ep; EvSeed (Int seed); EvSeed (Float x)]).
Proof.
  split; [|split].
  - intros A E B so w Hnone Hn Hun. unfold projection_shifts_init.
    destruct (init_loop_exhaust A E so Hnone (Z.to_nat (init_maxiter so)) 0 B w Hun)
      as [w' [Hw' Hatt]].
    exists w'. split; [exact Hw'|]. rewrite Hatt. lia.
  - intros A E B so w s w' H. unfold projection_shifts_init in H.
    apply init_loop_spec in H. destruct H as [_ [H _]].
    destruct (H s eq_refl) as [Hs _]. exact Hs.
  - intros A E B so seed g0 w Hlaw Hseed Hg0 Hn HB. unfold projection_shifts_init.
    destruct (Z.to_nat (init_maxiter so)) as [|todo] eqn:Htodo; [lia|].
    destruct (init_loop_seeded_retry A E so seed todo 0 B w Hlaw Hseed HB)
      as [e [w' [Ap [Ep [Hrun [[He _] | [g0' [x [_ [-> Hev]]]]]]]]]].
    + rewrite Hg0 in He. discriminate He.
    + exists w', Ap, Ep, x. split; [exact Hrun | exact Hev].
Qed.


(** ** Unknown configurations *)

Lemma check_args_inv A E B trans :
  _solve_lyap_check_args A E B trans = Ok tt
  \/ _solve_lyap_check_args A E B trans = Raise AssertionError.
Proof.
  unfold _solve_lyap_check_args, assert.
  repeat match goal with
         | |- context [if ?c then Ok tt else _] => destruct c; simpl; auto
         end.
Qed.

(** C8. When the parsed options name a solver type other than ['lradi'],
    [solve_lyap] raises, [ValueError] if the arguments pass the checks; when
    the shift strategy is not known, [lradi] raises [KeyError] or
    [ValueError], and in both cases nothing was computed: the world is as
    before the call. *)
Theorem unknown_configuration_raises :
  (forall A E B trans user_options options w,
     _parse_options user_options lyap_solver_options "lradi" None false
     = Returns options ->
     String.eqb (o_type options) "lradi" = false ->
     exists e,
       solve_lyap A E B trans user_options w = (Raise e, w)
       /\ (_solve_lyap_check_args A E B trans = Ok tt ->
           e = ValueError "Unknown solver type"))
  /\ (forall A E B trans options w,
        (forall so, dict_get (shift_options options) (shifts options) = Ok so ->
                    String.eqb (so_type so) "projection_shifts" = false) ->
        exists e,
          lradi A E B trans options w = (Raise e, w)
          /\ (e = KeyError (shifts options)
              \/ e = ValueError "Unknown lradi shift strategy")).
Proof.
  split.
  - intros A E B trans uo options w Hparse Htype. unfold solve_lyap.
    unfold bind at 1. unfold lift at 1.
    destruct (check_args_inv A E B trans) as [Hc | Hc]; rewrite Hc.
    + unfold bind at 1. unfold lift at 1. rewrite Hparse. simpl. rewrite Htype.
      eexists. split; [reflexivity | auto].
    + eexists. split; [reflexivity | discriminate].
  - intros A E B trans options w Hso. unfold lradi, lradi_setup.
    unfold bind at 1. unfold bind at 1. unfold lift at 1.
    pose proof (dict_get_inv (shift_options options) (shifts options)) as Hd.
    destruct (dict_get (shift_options options) (shifts options)) as [so|e|].
    + unfold bind at 1. unfold lift at 1. unfold select_strategy.
      rewrite (Hso so eq_refl). eexists. split; [reflexivity | auto].
    + subst e. eexists. split; [reflexivity | auto].
    + contradiction.
Qed.

(** ** The projection window *)

Lemma well_paired_head c l : well_paired (c :: l) = true -> lt0 (imag c) = false.
Proof. simpl. destruct (lt0 (imag c)); [discriminate | reflexivity]. Qed.

(** In a well-paired sequence the suffix that starts at an entry without
    negative imaginary part is well paired, and an entry with negative
    imaginary part has a predecessor at which a well-paired suffix starts. *)
Lemma well_paired_suffix : forall k l n c,
  (List.length l <= k)%nat ->
  well_paired l = true ->
  nth_error l n = Some c ->
  (lt0 (imag c) = false -> well_paired (skipn n l) = true)
  /\ (lt0 (imag c) = true ->
      (1 <= n)%nat /\ well_paired (skipn (n - 1) l) = true).
Proof.
  induction k as [|k IH]; intros l n c Hk Hwp Hn.
  - destruct l; [destruct n; discriminate | simpl in Hk; lia].
  - destruct l as [|c0 l']; [destruct n; discriminate|].
    pose proof (well_paired_head _ _ Hwp) as H0.
    destruct n as [|n'].
    + simpl in Hn. inversion Hn; subst c0. split; [intros _; exact Hwp | congruence].
    + simpl in Hn. simpl in Hwp. rewrite H0 in Hwp.
      destruct (eq0 (imag c0)) eqn:He0.
      * assert (Hk' : (List.length l' <= k)%nat) by (simpl in Hk; lia).
        destruct (IH l' n' c Hk' Hwp Hn) as [Ha Hb]. split.
        -- intros Hc. simpl. auto.
        -- intros Hc. destruct (Hb Hc) as [Hn1 Hs]. split; [lia|].
           replace (S n' - 1)%nat with (S (n' - 1))%nat by lia. simpl. exact Hs.
      * destruct l' as [|c1 l'']; [discriminate|].
        apply andb_prop in Hwp. destruct Hwp as [H1 Hwp].
        destruct n' as [|n''].
        -- simpl in Hn. inversion Hn; subst c1. split; [congruence|].
           intros _. split; [lia|]. simpl. rewrite H0, He0, H1, Hwp.
           reflexivity.
        -- simpl in Hn.
           assert (Hk' : (List.length l'' <= k)%nat) by (simpl in Hk; lia).
           destruct (IH l'' n'' c Hk' Hwp Hn) as [Ha Hb]. split.
           ++ intros Hc. simpl. auto.
           ++ intros Hc. destruct (Hb Hc) as [Hn1 Hs]. split; [lia|].
              replace (S (S n'') - 1)%nat with (S (S (n'' - 1)))%nat by lia.
              simpl. exact Hs.
Qed.

(** C7. For a non-empty, well-paired [prev_shifts] and [z_columns >= 1]:
    [u] is [z_columns] clipped to [len(prev_shifts)], plus one exactly when
    the first shift of the window has negative imaginary part; the window of
    the last [u] shifts then starts at a pair boundary, and [Vu] consists of
    the last [u * r] columns of [Z]. *)
Theorem projection_window_keeps_pairs so prev :
  prev <> [] ->
  1 <= z_columns so ->
  well_paired prev = true ->
  let L := Z.of_nat (List.length prev) in
  let u0 := Z.min (z_columns so) L in
  exists s,
    getitem prev (- u0) = Ok s
    /\ let u := if lt0 (imag s) then u0 + 1 else u0 in
       projection_window so prev = Ok (u, L - u0)
       /\ 1 <= u <= L
       /\ well_paired (skipn (Z.to_nat (L - u)) prev) = true
       /\ forall Zf r,
            LengthLaws -> (0 < r)%nat ->
            len (projection_subspace Zf r u)
            = Nat.min (len Zf) (Z.to_nat u * r).
Proof.
  intros Hne Hz Hwp L u0.
  assert (HL : 1 <= L).
  { unfold L. destruct prev; [congruence | simpl; lia]. }
  assert (Hu0 : 1 <= u0 <= L) by (unfold u0; lia).
  destruct (getitem_nonneg prev (L - u0)) as [s [Hg Hn]]; [unfold L in *; lia|].
  assert (Hg' : getitem prev (- u0) = Ok s).
  { unfold getitem, index in *. fold L in Hg |- *.
    destruct (- u0 <? 0) eqn:H1; [|lia].
    destruct (L - u0 <? 0) eqn:H2; [lia|].
    replace (L + - u0) with (L - u0) by lia. exact Hg. }
  exists s. split; [exact Hg'|]. cbv zeta.
  destruct (well_paired_suffix (List.length prev) prev (Z.to_nat (L - u0)) s
              (le_n _) Hwp Hn) as [Ha Hb].
  assert (Hwin : projection_window so prev
                 = Ok (if lt0 (imag s) then u0 + 1 else u0, L - u0)).
  { unfold projection_window. fold L.
    destruct (L - z_columns so <? 0) eqn:Hd.
    - replace u0 with L in * by (unfold u0; lia).
      rewrite Hg'. simpl. replace (L - L) with 0 by lia. reflexivity.
    - replace u0 with (z_columns so) in * by (unfold u0; lia).
      rewrite Hg'. simpl. reflexivity. }
  split; [exact Hwin|].
  destruct (lt0 (imag s)) eqn:Hs.
  - destruct (Hb eq_refl) as [Hpos Hsuf].
    assert (Hu : 1 <= u0 + 1 <= L) by lia.
    split; [exact Hu|]. split.
    + replace (Z.to_nat (L - (u0 + 1))) with (Z.to_nat (L - u0) - 1)%nat by lia.
      exact Hsuf.
    + intros Zf r Laws Hr. unfold projection_subspace.
      rewrite (len_slice_from Laws) by nia. f_equal. nia.
  - split; [exact Hu0|]. split; [exact (Ha eq_refl)|].
    intros Zf r Laws Hr. unfold projection_subspace.
    rewrite (len_slice_from Laws) by nia. f_equal. nia.
Qed.

(** ** What the updater returns, and when *)


Lemma getitem_from_end {A} (a : list A) u :
  a <> [] -> 0 <= u <= Z.of_nat (List.length a) ->
  exists x, getitem a (- u) = Ok x.
Proof.
  intros Hne Hu.
  assert (HL : 1 <= Z.of_nat (List.length a)) by (destruct a; [congruence | simpl; lia]).
  unfold getitem, index. destruct (- u <? 0) eqn:Hneg.
  - destruct ((0 <=? Z.of_nat (List.length a) + - u)
              && (Z.of_nat (List.length a) + - u <? Z.of_nat (List.length a))) eqn:Hc;
      [|lia].
    simpl. destruct (nth_error a _) eqn:Hn; [eauto|].
    apply nth_error_None in Hn. lia.
  - destruct ((0 <=? - u) && (- u <? Z.of_nat (List.length a))) eqn:Hc; [|lia].
    simpl. destruct (nth_error a _) eqn:Hn; [eauto|].
    apply nth_error_None in Hn. lia.
Qed.

(** After the window: the call of [spla.eigvals] on the pencil and the
    concatenation (lines 298-303). *)
Lemma projection_shifts_tail prev Ap Ep w :
  bind (call_eigvals Ap Ep)
    (fun shifts =>
       if (List.length (filter stable shifts) =? 0)%nat
       then ret (prev ++ prev)
       else ret (prev ++ filter stable shifts)) w
  = match eigvals Ap Ep with
    | Returns ev =>
        (Ok (extended prev ev),
         {| rng := rng w; events := events w ++ [EvEigvals Ap Ep] |})
    | Raises e =>
        (Raise e, {| rng := rng w; events := events w ++ [EvEigvals Ap Ep] |})
    end.
Proof.
  unfold bind, call_eigvals, bind, emit, lift, ret, extended. simpl.
  destruct (eigvals Ap Ep) as [ev|e]; simpl; [|reflexivity].
  destruct (List.length _ =? 0)%nat; reflexivity.
Qed.

(** With the explicit strategy and [z_columns >= 0] the read of line 246
    succeeds for every non-empty [prev_shifts]; the call is then
    [gram_schmidt], [spla.eigvals] and the concatenation. *)
Lemma projection_shifts_explicit A E Zf W prev so w :
  implicit_subspace so = false ->
  0 <= z_columns so ->
  prev <> [] ->
  exists u d,
    projection_window so prev = Ok (u, d)
    /\ projection_shifts A E Zf W prev so w
       = match gram_schmidt (projection_subspace Zf (len W) u) with
         | Raises e => (Raise e, w)
         | Returns Q =>
             match eigvals (apply2 A Q Q) (apply2 E Q Q) with
             | Returns ev =>
                 (Ok (extended prev ev),
                  {| rng := rng w;
                     events := events w ++
                       [EvEigvals (apply2 A Q Q) (apply2 E Q Q)] |})
             | Raises e =>
                 (Raise e,
                  {| rng := rng w;
                     events := events w ++
                       [EvEigvals (apply2 A Q Q) (apply2 E Q Q)] |})
             end
         end.
Proof.
  intros Himp Hz Hne.
  assert (Hwin : exists u d, projection_window so prev = Ok (u, d)).
  { unfold projection_window.
    destruct (Z.of_nat (List.length prev) - z_columns so <? 0) eqn:Hd.
    - destruct (getitem_from_end prev (Z.of_nat (List.length prev)) Hne) as [x Hx];
        [lia|]. rewrite Hx. simpl. eauto.
    - destruct (getitem_from_end prev (z_columns so) Hne) as [x Hx]; [lia|].
      rewrite Hx. simpl. eauto. }
  destruct Hwin as [u [d Hwin]]. exists u, d. split; [exact Hwin|].
  unfold projection_shifts. unfold bind at 1. unfold lift at 1.
  rewrite Hwin, Himp. cbv iota beta. unfold bind at 1.
  rewrite explicit_pencil_eq.
  destruct (gram_schmidt (projection_subspace Zf (len W) u)) as [Q|e];
    [|reflexivity].
  cbn [fst snd]. apply projection_shifts_tail.
Qed.

(** ** Running the model forward *)

Lemma lradi_setup_run A E B trans options w so sh w0 Zf0 res :
  dict_get (shift_options options) (shifts options) = Ok so ->
  String.eqb (so_type so) "projection_shifts" = true ->
  initial_Z A B trans options = Returns Zf0 ->
  projection_shifts_init A (initial_E A E) (initial_W B trans) so
    {| rng := rng w;
       events := events w ++
         [if trans
          then EvEmpty (range A) (dim (range B) * maxiter options)
          else EvEmpty (source A) (dim (source B) * maxiter options)] |}
  = (Ok sh, w0) ->
  norm2 (gramian (initial_W B trans)) = Returns res ->
  lradi_setup A E B trans options w
  = (Ok (initial_env A E trans options so res,
         initial_state Zf0 (initial_W B trans) sh res), w0).
Proof.
  intros Hd Ht HZ Hi Hres. unfold lradi_setup. unfold bind at 1. unfold lift at 1.
  rewrite Hd. unfold bind at 1. unfold lift at 1. unfold select_strategy.
  rewrite Ht. unfold initial_W, initial_Z, initial_E in *.
  destruct trans; cbn [negb init_shifts]; unfold bind at 1; unfold bind at 1;
    unfold emit at 1; unfold bind at 1; unfold lift at 1; rewrite HZ;
    cbn [of_outcome]; unfold ret at 1; cbv iota beta; unfold bind at 1;
    rewrite Hi; unfold bind, lift, ret; rewrite Hres; reflexivity.
Qed.

Lemma lradi_while_one_pass env fuel st w st' w' :
  lradi_cond env st = true ->
  lradi_body env st w = (Ok st', w') ->
  lradi_cond env st' = false ->
  lradi_while env (S fuel) st w = (Ok st', w').
Proof.
  intros Hc Hb Hc'. simpl. rewrite Hc. unfold bind. rewrite Hb.
  destruct fuel; simpl; rewrite Hc'; reflexivity.
Qed.

(** ** The iteration index *)

Lemma lradi_index_bound env :
  standard env ->
  forall fuel st w st' w',
    0 <= st_j st <= maxiter (env_options env) + 1 ->
    lradi_while env fuel st w = (Ok st', w') ->
    0 <= st_j st' <= maxiter (env_options env) + 1.
Proof.
  intros Hstd fuel st w st' w' Hj H.
  assert (Hbody : forall st0 w0 r0 w0',
            0 <= st_j st0 <= maxiter (env_options env) + 1 ->
            lradi_cond env st0 = true ->
            lradi_body env st0 w0 = (r0, w0') ->
            match r0 with
            | Ok st1 => 0 <= st_j st1 <= maxiter (env_options env) + 1
            | _ => True
            end).
  { intros st0 w0 r0 w0' Hj0 Hc Hb. destruct r0 as [st1|e|]; auto.
    destruct (lradi_body_progress _ _ _ _ _ Hstd Hb) as [_ Hp].
    destruct (Hp st1 eq_refl) as [s [_ Hs]].
    unfold lradi_cond in Hc. apply andb_prop in Hc. destruct Hc as [_ Hc].
    destruct (eq0 (imag s)); lia. }
  exact (proj1 (lradi_while_rule env
    (fun st _ => 0 <= st_j st <= maxiter (env_options env) + 1)
    (fun _ => True) (fun _ _ _ => I) Hbody fuel st w (Ok st') w' Hj H)).
Qed.

End Properties.

(** ** The iteration index can pass [maxiter] *)

(** C10. With [maxiter >= 0], the index [j] with which the loop of [lradi]
    ends is at most [maxiter + 1]; and there is a run, on the scalar system
    [A = -1], [E = 1], [B = 1] with the shifts [-1 + i, -1 - i] and
    [maxiter = 1], whose only pass is entered at [j = maxiter - 1] with a
    complex shift and ends the loop with [j = maxiter + 1]. *)
Theorem index_passes_maxiter_by_one :
  (forall (backend : Backend) A E B trans options w env st0 w0 st w1,
     0 <= maxiter options ->
     lradi_setup A E B trans options w = (Ok (env, st0), w0) ->
     lradi_while env (Z.to_nat (maxiter options)) st0 w0 = (Ok st, w1) ->
     0 <= st_j st <= maxiter options + 1)
  /\ (exists (backend : Backend) A E B trans options w env st0 w0 st w1 s,
        lradi_setup A E B trans options w = (Ok (env, st0), w0)
        /\ lradi_while env (Z.to_nat (maxiter options)) st0 w0 = (Ok st, w1)
        /\ st_j st0 = maxiter options - 1
        /\ getitem (st_shifts st0) (st_j st0) = Ok s
        /\ eq0 (imag s) = false
        /\ lradi_cond env st0 = true
        /\ lradi_body env st0 w0 = (Ok st, w1)
        /\ st_j st = maxiter options + 1).
Proof.
  split.
  - intros backend A E B trans options w env st0 w0 st w1 Hm Hset Hw.
    destruct (lradi_setup_ok _ _ _ _ _ _ _ _ _ Hset)
      as [so [sh [new [res0 [Zf0 [_ [Henv [Hst _]]]]]]]].
    assert (Hstd : standard env) by (subst env; apply initial_env_standard).
    assert (Hopt : env_options env = options) by (subst env; reflexivity).
    assert (Hj0 : 0 <= st_j st0 <= maxiter (env_options env) + 1)
      by (rewrite Hopt; subst st0; simpl; lia).
    pose proof (lradi_index_bound env Hstd _ _ _ _ _ Hj0 Hw) as Hj.
    rewrite Hopt in Hj. exact Hj.
  - exists Scalar.pair_backend.
    exists (Given (-1)%float), None, (Given 1%float), false.
    exists (Scalar.options 1 1 false), (Scalar.world0 _).
    exists Scalar.env1, Scalar.state1.
    do 3 eexists. exists (Complex (-1) 1).
    split.
    { apply (@lradi_setup_run Scalar.pair_backend);
        [reflexivity | reflexivity | reflexivity
        | vm_compute; reflexivity | reflexivity]. }
    split.
    { apply (@lradi_while_one_pass Scalar.pair_backend).
      - vm_compute. reflexivity.
      - vm_compute. reflexivity.
      - vm_compute. reflexivity. }
    split; [reflexivity|].
    split; [reflexivity|].
    split; [reflexivity|].
    split; [vm_compute; reflexivity|].
    split; [vm_compute; reflexivity|].
    reflexivity.
Qed.

(** ** A window that is enlarged but not moved *)

(** C4, at the input where it fails: with [z_columns = 2] and the implicit
    strategy, the shifts [-1 + i, -1 - i, -2] enlarge the window to [u = 3]
    while [d] stays [1], and the loop of lines 261-281 reads
    [prev_shifts[d + 2]], one past the end. *)
Theorem projection_shifts_reads_past_the_end :
  forall (backend : Backend) A E Zf W w,
    projection_shifts A E Zf W
      [Complex (-1) 1; Complex (-1) (-1); Complex (-2) 0]
      {| so_type := "projection_shifts"; z_columns := 2; init_maxiter := 20;
         init_seed := None; implicit_subspace := true |} w
    = (Raise IndexError, w).
Proof.
  intros backend A E Zf W w. unfold projection_shifts.
  unfold bind at 1. unfold lift at 1.
  change (projection_window _ _) with (Ok (3, 1) : result (Z * Z)).
  cbv iota beta. unfold bind at 1.
  cbn [implicit_subspace]. unfold lift at 1.
  match goal with |- context [implicit_pencil ?E ?V ?W ?p ?u ?d ?r] =>
    replace (implicit_pencil E V W p u d r) with (@Raise (NDArray * NDArray) IndexError)
  end; [reflexivity|].
  unfold implicit_pencil. vm_compute. reflexivity.
Qed.

(** ** The scalar backend satisfies the contracts *)

Lemma scalar_length_laws spectrum : @LengthLaws (Scalar.backend spectrum).
Proof.
  constructor; simpl.
  - intros sp n U. destruct (n <? 0); [discriminate|].
    intros H. inversion H. reflexivity.
  - intros U V. apply length_app.
  - intros U x. apply length_map.
  - intros U V H. unfold Scalar.pointwise. simpl.
    rewrite length_map, length_combine. lia.
  - intros U V H. unfold Scalar.pointwise. simpl.
    rewrite length_map, length_combine. lia.
  - intros U. apply length_map.
  - intros U. apply length_map.
  - intros U. apply length_map.
  - intros op U. apply length_map.
  - intros op U. apply length_map.
  - intros op U V. unfold Scalar.divide. destruct (_ && _); [discriminate|].
    intros H. inversion H. simpl. apply length_map.
  - intros op U V. unfold Scalar.divide. destruct (_ && _); [discriminate|].
    intros H. inversion H. simpl. apply length_map.
  - intros U k Hk. unfold Scalar.slice. simpl.
    destruct (k <? 0) eqn:H; [|lia]. rewrite length_skipn. lia.
Qed.

Lemma scalar_real_laws spectrum (a e : Scalar.ScalarOp) :
  Scalar.complex_op a = false -> Scalar.complex_op e = false ->
  @RealLaws (Scalar.backend spectrum) a e.
Proof.
  intros Ha He.
  constructor; simpl.
  - reflexivity.
  - reflexivity.
  - intros U x H. exact H.
  - intros U V HU HV. destruct (Scalar.is_complex U), (Scalar.is_complex V);
      simpl in *; congruence.
  - intros U V HU HV. destruct (Scalar.is_complex U), (Scalar.is_complex V);
      simpl in *; congruence.
  - intros U V HU HV. destruct (Scalar.is_complex U), (Scalar.is_complex V);
      simpl in *; congruence.
  - intros U HU. rewrite He. destruct (Scalar.is_complex U); simpl in *; congruence.
  - intros U HU. rewrite He. destruct (Scalar.is_complex U); simpl in *; congruence.
  - intros x U V HU. unfold Scalar.divide.
    destruct (_ && _); [discriminate|]. intros H. injection H as <-.
    simpl. rewrite Ha, He.
    destruct (Scalar.is_complex U); simpl in *; congruence.
  - intros x U V HU. unfold Scalar.divide.
    destruct (_ && _); [discriminate|]. intros H. injection H as <-.
    simpl. rewrite Ha, He.
    destruct (Scalar.is_complex U); simpl in *; congruence.
Qed.

(** ** Concrete runs *)

Lemma shifts_have_negative_real_part_witness :
  Forall (fun c => stable c = true) [Complex (-1) 0]
  /\ Forall (fun c => stable c = true) (Scalar.conjugate_pair ++ Scalar.conjugate_pair)
  /\ Forall (@stable_event Scalar.pair_backend)
       (events (snd (@lradi Scalar.pair_backend Scalar.A1 None Scalar.B1 false
                       (Scalar.options 10 1 true)
                       (Scalar.world0 Scalar.conjugate_pair)))).
Proof.
  split; [|split].
  - refine (proj1 (@shifts_have_negative_real_part Scalar.real_backend)
              Scalar.A1 (IdentityOperator tt) (Scalar.column 1)
              (Scalar.shift_options1 1 None true) (Scalar.world0 _) _ _ _).
    vm_compute. reflexivity.
  - refine (proj2 (proj1 (proj2
              (@shifts_have_negative_real_part Scalar.unstable_backend))
              Scalar.A1 (IdentityOperator tt) (Scalar.column 1) (Scalar.column 1)
              Scalar.conjugate_pair (Scalar.shift_options1 1 None false)
              (Scalar.world0 _) _ _ _) _).
    + vm_compute. reflexivity.
    + repeat constructor.
  - refine (proj2 (proj2 (proj2 (@shifts_have_negative_real_part Scalar.pair_backend)))
              Scalar.A1 None Scalar.B1 false (Scalar.options 10 1 true)
              (Scalar.world0 _) _ _ _ _).
    + apply surjective_pairing.
    + constructor.
Defined.

Lemma columns_of_Z_witness :
  exists Zf w',
    @lradi Scalar.pair_backend Scalar.A1 None Scalar.B1 false
      (Scalar.options 1 1 false) (Scalar.world0 _) = (Ok Zf, w')
    /\ @len Scalar.pair_backend Zf
       = (total_blocks (events w')
          * @len Scalar.pair_backend (@initial_W Scalar.pair_backend Scalar.B1 false))%nat.
Proof.
  do 2 eexists. split.
  - vm_compute. reflexivity.
  - apply (proj2 (@columns_of_Z Scalar.pair_backend (scalar_length_laws _))
             Scalar.A1 None Scalar.B1 false (Scalar.options 1 1 false)
             (Scalar.world0 _)).
    + reflexivity.
    + vm_compute. reflexivity.
Defined.

Lemma complex_step_is_real_arithmetic_witness :
  exists st' w',
    @lradi_body Scalar.pair_backend Scalar.env1 Scalar.state1 (Scalar.world0 _)
    = (Ok st', w')
    /\ st_j st' = 2
    /\ @is_real Scalar.pair_backend (st_Z st') = true
    /\ @is_real Scalar.pair_backend (st_W st') = true.
Proof.
  assert (Hrun : exists st' w',
            @lradi_body Scalar.pair_backend Scalar.env1 Scalar.state1
              (Scalar.world0 _) = (Ok st', w'))
    by (do 2 eexists; vm_compute; reflexivity).
  destruct Hrun as [st' [w' Hrun]]. exists st', w'.
  split; [exact Hrun|]. split.
  - destruct (proj1 (@complex_step_is_real_arithmetic Scalar.pair_backend)
                Scalar.env1 Scalar.state1 (Scalar.world0 _) st' w'
                (Complex (-1) 1) Hrun eq_refl eq_refl)
      as [V0 [_ [_ [_ Hj]]]].
    exact Hj.
  - exact (proj2 (@complex_step_is_real_arithmetic Scalar.pair_backend)
             Scalar.env1 Scalar.state1 (Scalar.world0 _) st' w'
             (scalar_real_laws Scalar.conjugate_pair Scalar.A1 (IdentityOperator tt)
                eq_refl eq_refl) eq_refl eq_refl Hrun).
Defined.

Lemma lradi_returns_best_effort_witness :
  exists st w1 w2,
    lradi_while Scalar.env1 1 Scalar.state1 Scalar.world1 = (Ok st, w1)
    /\ @lradi Scalar.pair_backend Scalar.A1 None Scalar.B1 false
         (Scalar.options 1 1 false) (Scalar.world0 _) = (Ok (st_Z st), w2).
Proof.
  assert (Hset : @lradi_setup Scalar.pair_backend Scalar.A1 None Scalar.B1 false
                   (Scalar.options 1 1 false) (Scalar.world0 _)
                 = (Ok (Scalar.env1, Scalar.state1), Scalar.world1)).
  { apply (@lradi_setup_run Scalar.pair_backend);
      [reflexivity | reflexivity | reflexivity
      | vm_compute; reflexivity | reflexivity]. }
  assert (Hw : exists st w1,
            lradi_while Scalar.env1 1 Scalar.state1 Scalar.world1 = (Ok st, w1)).
  { do 2 eexists. apply (@lradi_while_one_pass Scalar.pair_backend);
      vm_compute; reflexivity. }
  destruct Hw as [st [w1 Hw]].
  destruct (@lradi_returns_best_effort Scalar.pair_backend Scalar.A1 None
              Scalar.B1 false (Scalar.options 1 1 false) (Scalar.world0 _)
              Scalar.env1 Scalar.state1 Scalar.world1 Hset)
    as [_ [_ [_ [_ [_ Hend]]]]].
  destruct (Hend st w1 Hw) as [w2 [Hl _]].
  exists st, w1, w2. split; [exact Hw | exact Hl].
Defined.

Lemma initializer_exhaustion_witness :
  (exists w',
     @projection_shifts_init Scalar.unstable_backend Scalar.A1 (IdentityOperator tt)
       (Scalar.column 1) (Scalar.shift_options1 1 None true) (Scalar.world0 _)
     = (Raise (RuntimeError
          "Could not generate initial shifts for low-rank ADI iteration."), w')
     /\ Z.of_nat (attempts (events w')) = 0 + 20)
  /\ (exists w' Ap Ep x,
        @projection_shifts_init Scalar.unstable_backend Scalar.A1
          (IdentityOperator tt) (Scalar.column 1)
          (Scalar.shift_options1 1 (Some 7) true) (Scalar.world0 _)
        = (Raise TypeError, w')
        /\ events w' = [] ++ [@EvEigvals Scalar.unstable_backend Ap Ep;
                              EvSeed (Int 7); EvSeed (Float x)]).
Proof.
  split.
  - exact (proj1 (@initializer_exhaustion Scalar.unstable_backend)
             Scalar.A1 (IdentityOperator tt) (Scalar.column 1)
             (Scalar.shift_options1 1 None true) (Scalar.world0 _)
             eq_refl
             ltac:(cbv; intros H; discriminate H)
             ltac:(vm_compute; repeat constructor)).
  - exact (proj2 (proj2 (@initializer_exhaustion Scalar.unstable_backend))
             Scalar.A1 (IdentityOperator tt) (Scalar.column 1)
             (Scalar.shift_options1 1 (Some 7) true) 7 7 (Scalar.world0 _)
             (fun x => eq_refl) eq_refl eq_refl
             ltac:(cbv; intros H; discriminate H) eq_refl).
Defined.

Lemma projection_window_keeps_pairs_witness :
  exists s,
    getitem Scalar.conjugate_pair (- 1) = Ok s
    /\ projection_window (Scalar.shift_options1 1 None true) Scalar.conjugate_pair
       = Ok (if lt0 (imag s) then 2 else 1, 1)
    /\ well_paired
         (skipn (Z.to_nat (2 - (if lt0 (imag s) then 2 else 1)))
                Scalar.conjugate_pair) = true.
Proof.
  destruct (@projection_window_keeps_pairs Scalar.pair_backend
              (Scalar.shift_options1 1 None true) Scalar.conjugate_pair
              ltac:(discriminate) ltac:(cbv; intros H; discriminate H) eq_refl)
    as [s [Hg [Hw [_ [Hp _]]]]].
  exists s. split; [exact Hg|]. split; [exact Hw | exact Hp].
Defined.

Lemma unknown_configuration_raises_witness :
  (exists e,
     @solve_lyap Scalar.real_backend Scalar.A1 None Scalar.B1 false
       (Some Scalar.options_other_solver) (Scalar.world0 _)
     = (Raise e, Scalar.world0 _)
     /\ (@_solve_lyap_check_args Scalar.real_backend Scalar.A1 None Scalar.B1 false
         = Ok tt -> e = ValueError "Unknown solver type"))
  /\ (exists e,
        @lradi Scalar.real_backend Scalar.A1 None Scalar.B1 false
          Scalar.options_other_strategy (Scalar.world0 _)
        = (Raise e, Scalar.world0 _)
        /\ (e = KeyError "wachspress"
            \/ e = ValueError "Unknown lradi shift strategy")).
Proof.
  split.
  - exact (proj1 (@unknown_configuration_raises Scalar.real_backend)
             Scalar.A1 None Scalar.B1 false (Some Scalar.options_other_solver)
             Scalar.options_other_solver (Scalar.world0 _) eq_refl eq_refl).
  - apply (proj2 (@unknown_configuration_raises Scalar.real_backend)
             Scalar.A1 None Scalar.B1 false Scalar.options_other_strategy
             (Scalar.world0 _)).
    intros so H. vm_compute in H. discriminate H.
Defined.


Lemma index_passes_maxiter_by_one_witness :
  exists st w1,
    lradi_while Scalar.env1 1 Scalar.state1 Scalar.world1 = (Ok st, w1)
    /\ 0 <= st_j st <= 1 + 1.
Proof.
  assert (Hset : @lradi_setup Scalar.pair_backend Scalar.A1 None Scalar.B1 false
                   (Scalar.options 1 1 false) (Scalar.world0 _)
                 = (Ok (Scalar.env1, Scalar.state1), Scalar.world1)).
  { apply (@lradi_setup_run Scalar.pair_backend);
      [reflexivity | reflexivity | reflexivity
      | vm_compute; reflexivity | reflexivity]. }
  assert (Hw : exists st w1,
            lradi_while Scalar.env1 1 Scalar.state1 Scalar.world1 = (Ok st, w1)).
  { do 2 eexists. apply (@lradi_while_one_pass Scalar.pair_backend);
      vm_compute; reflexivity. }
  destruct Hw as [st [w1 Hw]]. exists st, w1. split; [exact Hw|].
  exact (proj1 index_passes_maxiter_by_one Scalar.pair_backend Scalar.A1 None
           Scalar.B1 false (Scalar.options 1 1 false) (Scalar.world0 _)
           Scalar.env1 Scalar.state1 Scalar.world1 st w1
           ltac:(cbv; intros H; discriminate H) Hset Hw).
Defined.

(** * Further properties of the code *)

(** ** Comparisons of [float64] values *)

Lemma lt0_not_eq0 x : lt0 x = true -> eq0 x = false.
Proof.
  unfold lt0, eq0. rewrite FloatAxioms.ltb_spec, FloatAxioms.eqb_spec.
  unfold SFltb, SFeqb. destruct (SFcompare _ _) as [[]|]; congruence.
Qed.

Section FurtherProperties.

Context {backend : Backend}.

(** ** Preconditions of [solve_lyap] *)

Lemma check_args_iff A E B trans :
  _solve_lyap_check_args A E B trans = Ok tt <-> well_posed A E B trans.
Proof.
  unfold _solve_lyap_check_args, well_posed, assert.
  destruct (linear A); simpl; [|split; [discriminate | intros [H _]; discriminate]].
  destruct (space_eqb (source A) (range A)); simpl;
    [|split; [discriminate | intros [_ [H _]]; discriminate]].
  destruct (linear B); simpl;
    [|split; [discriminate | intros [_ [_ [H _]]]; discriminate]].
  destruct trans; simpl.
  - destruct (space_eqb (source B) (source A)); simpl;
      [|split; [discriminate | intros [_ [_ [_ [H _]]]]; discriminate]].
    destruct E as [E0|]; [|tauto].
    destruct (linear E0), (space_eqb (source E0) (range E0)),
      (space_eqb (range E0) (source A)); simpl;
      split; try discriminate; try tauto;
      intros [_ [_ [_ [_ [H1 [H2 H3]]]]]]; discriminate.
  - rewrite orb_false_r.
    destruct (space_eqb (range B) (source A)); simpl;
      [|split; [discriminate | intros [_ [_ [_ [H _]]]]; discriminate]].
    destruct E as [E0|]; [|tauto].
    destruct (linear E0), (space_eqb (source E0) (range E0)),
      (space_eqb (range E0) (source A)); simpl;
      split; try discriminate; try tauto;
      intros [_ [_ [_ [_ [H1 [H2 H3]]]]]]; discriminate.
Qed.

(** X1. [_solve_lyap_check_args] passes exactly for a linear square [A], a
    linear [B] whose range (source, for [trans]) is the source of [A], and an
    [E] that is absent or linear and square on the source of [A]; for any
    other arguments [solve_lyap] raises [AssertionError] before the options
    are parsed and before anything is computed. *)
Theorem solve_lyap_checks_arguments_first A E B trans :
  (_solve_lyap_check_args A E B trans = Ok tt <-> well_posed A E B trans)
  /\ (~ well_posed A E B trans ->
      forall user_options w,
        solve_lyap A E B trans user_options w = (Raise AssertionError, w)).
Proof.
  pose proof (check_args_iff A E B trans) as Hiff.
  split; [exact Hiff|].
  intros Hbad uo w. unfold solve_lyap. unfold bind at 1. unfold lift at 1.
  destruct (check_args_inv A E B trans) as [Hc | Hc]; rewrite Hc.
  - exfalso. apply Hbad, Hiff, Hc.
  - reflexivity.
Qed.

(** ** Options built by [lyap_solver_options] *)

(** X3. In the options that [lyap_solver_options] builds, the only shift
    strategy is ['projection_shifts']: with that name [lradi] gets past the
    strategy selection, and with any other name it raises [KeyError] for the
    name (the [ValueError] of line 120 cannot occur) before anything is
    computed. *)
Theorem lyap_solver_options_know_one_strategy
    lradi_tol lradi_maxiter lradi_shifts z_cols init_max seed implicit :
  exists options,
    dict_get (lyap_solver_options_with lradi_tol lradi_maxiter lradi_shifts
                z_cols init_max seed implicit) "lradi" = Ok options
    /\ (lradi_shifts = "projection_shifts"%string ->
        exists so strategy,
          dict_get (shift_options options) (shifts options) = Ok so
          /\ select_strategy so = Ok strategy)
    /\ (lradi_shifts <> "projection_shifts"%string ->
        forall A E B trans w,
          lradi A E B trans options w = (Raise (KeyError lradi_shifts), w)).
Proof.
  eexists. split; [reflexivity|]. split.
  - intros ->. do 2 eexists. split; reflexivity.
  - intros Hne A E B trans w. unfold lradi, lradi_setup.
    unfold bind at 1. unfold bind at 1. unfold lift at 1.
    cbn [shift_options shifts dict_get].
    destruct (String.eqb "projection_shifts" lradi_shifts) eqn:Heq.
    + apply String.eqb_eq in Heq. congruence.
    + reflexivity.
Qed.

(** ** The shift updater *)

Lemma getitem_nil {A} i : getitem (@nil A) i = Raise IndexError.
Proof.
  unfold getitem, index. simpl.
  destruct (i <? 0) eqn:Hi;
    match goal with |- context [if ?c then _ else _] => destruct c eqn:Hc end;
    simpl; try reflexivity; lia.
Qed.

(** X4. Called with no previous shift, [projection_shifts] raises
    [IndexError] at line 246, whatever the options, before anything is
    computed. *)
Theorem projection_shifts_needs_a_shift A E Zf W so w :
  projection_shifts A E Zf W [] so w = (Raise IndexError, w).
Proof.
  unfold projection_shifts. unfold bind at 1. unfold lift at 1.
  unfold projection_window.
  destruct (Z.of_nat (List.length (@nil complex)) - z_columns so <? 0);
    rewrite getitem_nil; reflexivity.
Qed.

Lemma solves_app l1 l2 : solves (l1 ++ l2) = (solves l1 + solves l2)%nat.
Proof. unfold solves. rewrite filter_app, length_app. reflexivity. Qed.

Lemma seedings_app l1 l2 : seedings (l1 ++ l2) = (seedings l1 + seedings l2)%nat.
Proof. unfold seedings. rewrite filter_app, length_app. reflexivity. Qed.

(** X5. Whatever its outcome, [projection_shifts] makes no solve and leaves
    the random state alone, and it calls [spla.eigvals] at most once: exactly
    once when it returns; when it raises, either nothing was recorded, or
    the one call of [spla.eigvals] was and the exception is the one that
    call raised. *)
Theorem projection_shifts_effects A E Zf W prev so w r w' :
  projection_shifts A E Zf W prev so w = (r, w') ->
  rng w' = rng w
  /\ solves (events w') = solves (events w)
  /\ seedings (events w') = seedings (events w)
  /\ match r with
     | Ok _ => attempts (events w') = (attempts (events w) + 1)%nat
     | Raise e =>
         w' = w
         \/ exists Ap Ep,
              events w' = events w ++ [EvEigvals Ap Ep]
              /\ eigvals Ap Ep = Raises e
     | OutOfFuel => False
     end.
Proof.
  intros H. apply projection_shifts_inv in H.
  assert (Hcount : forall Ap Ep,
            events w' = events w ++ [EvEigvals Ap Ep] ->
            solves (events w') = solves (events w)
            /\ seedings (events w') = seedings (events w)
            /\ attempts (events w') = (attempts (events w) + 1)%nat).
  { intros Ap Ep Hev. rewrite Hev, solves_app, seedings_app, attempts_app.
    change (attempts [EvEigvals Ap Ep]) with 1%nat.
    change (solves [EvEigvals Ap Ep]) with 0%nat.
    change (seedings [EvEigvals Ap Ep]) with 0%nat.
    repeat split; lia. }
  destruct r as [s|e|].
  - destruct H as [Ap [Ep [ev [Hev [Hrng _]]]]].
    destruct (Hcount _ _ Hev) as [H1 [H2 H3]]. auto.
  - destruct H as [-> | [Ap [Ep [Hev [Hrng He]]]]]; [auto|].
    destruct (Hcount _ _ Hev) as [H1 [H2 _]].
    repeat split; auto. right. exists Ap, Ep. auto.
  - contradiction.
Qed.

(** X6. With the explicit strategy and [z_columns >= 0] the index read of
    line 246 succeeds for every non-empty [prev_shifts], and the outcome is
    that of [gram_schmidt] on the last [u] blocks of [Z] and of
    [spla.eigvals] on the projected pencil: an exception of either is passed
    on, and when both return, the result is [prev_shifts] followed by at
    least one further shift: the stable eigenvalues, or [prev_shifts] once
    more when there is none. *)
Theorem explicit_strategy_extends A E Zf W prev so w :
  implicit_subspace so = false ->
  0 <= z_columns so ->
  prev <> [] ->
  exists u d,
    projection_window so prev = Ok (u, d)
    /\ match gram_schmidt (projection_subspace Zf (len W) u) with
       | Raises e => projection_shifts A E Zf W prev so w = (Raise e, w)
       | Returns Q =>
           match eigvals (apply2 A Q Q) (apply2 E Q Q) with
           | Raises e =>
               exists w', projection_shifts A E Zf W prev so w = (Raise e, w')
           | Returns ev =>
               exists rest w',
                 projection_shifts A E Zf W prev so w = (Ok (prev ++ rest), w')
                 /\ rest <> []
                 /\ (rest = filter stable ev
                     \/ (filter stable ev = [] /\ rest = prev))
           end
       end.
Proof.
  intros Himp Hz Hne.
  destruct (projection_shifts_explicit A E Zf W prev so w Himp Hz Hne)
    as [u [d [Hwin Hrun]]].
  exists u, d. split; [exact Hwin|].
  destruct (gram_schmidt (projection_subspace Zf (len W) u)) as [Q|e];
    [|exact Hrun].
  destruct (eigvals (apply2 A Q Q) (apply2 E Q Q)) as [ev|e]; [|eauto].
  unfold extended in Hrun.
  destruct (List.length (filter stable ev) =? 0)%nat eqn:Hl.
  - exists prev. eexists. split; [exact Hrun|]. split; [exact Hne|].
    right. split; [|reflexivity].
    destruct (filter stable ev); [reflexivity | discriminate].
  - eexists. eexists. split; [exact Hrun|]. split; [|left; reflexivity].
    intros Hnil. rewrite Hnil in Hl. discriminate.
Qed.

Lemma skipn_nth {A} (l : list A) : forall n x,
  nth_error l n = Some x -> skipn n l = x :: skipn (S n) l.
Proof.
  induction l as [|y l IH]; intros [|n] x H; simpl in H; try discriminate.
  - inversion H. reflexivity.
  - simpl. rewrite (IH n x H). reflexivity.
Qed.

(** A well-paired sequence ends with a real shift or with the second member
    of a pair. *)
Lemma well_paired_last prev s :
  well_paired prev = true ->
  nth_error prev (List.length prev - 1) = Some s ->
  lt0 (imag s) = true \/ eq0 (imag s) = true.
Proof.
  intros Hwp Hn. destruct (lt0 (imag s)) eqn:Hs; [left; reflexivity | right].
  destruct (well_paired_suffix (List.length prev) prev _ s (le_n _) Hwp Hn) as [Ha _].
  specialize (Ha Hs). rewrite (skipn_nth _ _ _ Hn) in Ha.
  assert (Hlen : (1 <= List.length prev)%nat).
  { destruct prev; [destruct (0 - 1)%nat; discriminate | simpl; lia]. }
  replace (S (List.length prev - 1)) with (List.length prev) in Ha by lia.
  rewrite skipn_all in Ha. simpl in Ha. rewrite Hs in Ha.
  destruct (eq0 (imag s)); [reflexivity | discriminate].
Qed.

Lemma filter_below_above d (l : list Z) :
  filter (fun k => k <? d + 0) (filter (fun k => k >=? d) l) = [].
Proof.
  induction l as [|k l IH]; simpl; [reflexivity|].
  destruct (k >=? d) eqn:Hk; simpl; [|exact IH].
  destruct (k <? d + 0) eqn:Hk'; [lia | exact IH].
Qed.

Lemma projection_window_one so prev s :
  z_columns so = 1 ->
  nth_error prev (List.length prev - 1) = Some s ->
  getitem prev (Z.of_nat (List.length prev) - 1 + 0) = Ok s
  /\ projection_window so prev
     = Ok (if lt0 (imag s) then 2 else 1, Z.of_nat (List.length prev) - 1).
Proof.
  intros Hz Hn.
  assert (Hlen : (1 <= List.length prev)%nat).
  { destruct prev; [destruct (0 - 1)%nat; discriminate | simpl; lia]. }
  assert (Hg : forall i, i = Z.of_nat (List.length prev) - 1 \/ i = -1 ->
                         getitem prev i = Ok s).
  { intros i Hi. unfold getitem, index.
    assert (Hk : (if i <? 0 then Z.of_nat (List.length prev) + i else i)
                 = Z.of_nat (List.length prev) - 1).
    { destruct Hi as [-> | ->].
      - destruct (Z.of_nat (List.length prev) - 1 <? 0) eqn:H0; lia.
      - reflexivity. }
    rewrite Hk.
    destruct ((0 <=? Z.of_nat (List.length prev) - 1)
              && (Z.of_nat (List.length prev) - 1 <? Z.of_nat (List.length prev)))
      eqn:Hc; [|lia].
    simpl. replace (Z.to_nat (Z.of_nat (List.length prev) - 1))
      with (List.length prev - 1)%nat by lia.
    rewrite Hn. reflexivity. }
  split.
  - apply Hg. left. lia.
  - unfold projection_window. rewrite Hz.
    destruct (Z.of_nat (List.length prev) - 1 <? 0) eqn:Hd; [lia|].
    rewrite (Hg (- (1)) (or_intror eq_refl)). reflexivity.
Qed.


(** X7. With [z_columns = 1], the default, the window of the implicit
    strategy holds the last shift alone, or the last conjugate pair, and the
    loop of lines 261-281 builds the matrices of that single shift or pair:
    [B = [[rp]]], [G = [[sqrt(-2 rp)]]] for a real shift [rp], and
    [B = [[2 rp, -sri], [sri, 0]]], [G = [[sqrt(-2 rp)], [0]]] with
    [sri = sqrt(rp**2 + cp**2)] for a pair; no coupling entry is written. *)
Theorem default_window_blocks so prev s :
  z_columns so = 1 ->
  well_paired prev = true ->
  nth_error prev (List.length prev - 1) = Some s ->
  let rp := real s in
  let cp := imag s in
  let sri := sqrt (pow2 rp + pow2 cp)%float in
  exists u d,
    projection_window so prev = Ok (u, d)
    /\ u = (if eq0 cp then 1 else 2)
    /\ d = Z.of_nat (List.length prev) - 1
    /\ (B0 <~ zeros u u ;;
        G0 <~ zeros u 1 ;;
        implicit_blocks (Z.to_nat u) prev d u
          (filter (fun k => k >=? d) (np_where (fun c => eq0 (imag c)) prev))
          (filter (fun k => k >=? d) (np_where (fun c => gt0 (imag c)) prev))
          0 B0 G0)
       = Ok (if eq0 cp
             then ([[rp]], [[sqrt (-2 * rp)]])
             else ([[2 * rp; - sri]; [sri; 0]], [[sqrt (-2 * rp)]; [0]]))%float.
Proof.
  intros Hz Hwp Hn rp cp sri.
  destruct (projection_window_one so prev s Hz Hn) as [Hg Hwin].
  exists (if lt0 (imag s) then 2 else 1), (Z.of_nat (List.length prev) - 1).
  split; [exact Hwin|].
  assert (Hs : lt0 (imag s) = true
               \/ (lt0 (imag s) = false /\ eq0 (imag s) = true)).
  { destruct (well_paired_last prev s Hwp Hn) as [H | H]; [left; exact H|].
    destruct (lt0 (imag s)) eqn:Hl; [left; reflexivity | right; auto]. }
  unfold cp. destruct Hs as [Hs | [Hs He]]; rewrite Hs;
    (split; [try rewrite (lt0_not_eq0 _ Hs); try rewrite He; reflexivity|]);
    (split; [reflexivity|]).
  - pose proof (lt0_not_eq0 _ Hs) as He. rewrite He.
    change (zeros 2 2) with (Ok [[0; 0]; [0; 0]]%float : result rows).
    change (zeros 2 1) with (Ok [[0]; [0]]%float : result rows).
    cbn [rbind]. change (Z.to_nat 2) with 2%nat.
    cbn [implicit_blocks]. change (0 <? 2) with true. cbv iota.
    rewrite !filter_below_above, Hg. cbn [rbind].
    change (setitem2 [[0]; [0]]%float 0 0 ?v) with (Ok [[v]; [0%float]] : result rows).
    cbn [rbind]. rewrite He.
    change (setblock2 [[0; 0]; [0; 0]]%float 0 ?a ?b ?c ?e)
      with (Ok [[a; b]; [c; e]] : result rows).
    cbn [rbind]. change (0 <? List.length (@nil Z))%nat with false. cbv iota.
    cbn [rbind]. change (0 + 2 <? 2) with false. cbv iota. reflexivity.
  - rewrite He.
    change (zeros 1 1) with (Ok [[0]]%float : result rows).
    cbn [rbind]. change (Z.to_nat 1) with 1%nat.
    cbn [implicit_blocks]. change (0 <? 1) with true. cbv iota.
    rewrite !filter_below_above, Hg. cbn [rbind].
    change (setitem2 [[0]]%float 0 0 ?v) with (Ok [[v]] : result rows).
    cbn [rbind]. rewrite He.
    change (setitem2 [[0]]%float 0 0 ?v) with (Ok [[v]] : result rows).
    cbn [rbind]. change (0 <? List.length (@nil Z))%nat with false. cbv iota.
    cbn [rbind]. change (0 + 1 <? 1) with false. cbv iota. reflexivity.
Qed.


(** ** The shift initializer *)

(** X9. The initializer hands at most [init_maxiter] pencils to
    [spla.eigvals]; when it returns, the shifts are the eigenvalues with
    negative real part of the last pencil it handed over, there is at least
    one, and every pencil before was solved and had none. *)
Theorem initializer_returns_first_stable A E B so w r w' :
  projection_shifts_init A E B so w = (r, w') ->
  r <> OutOfFuel
  /\ exists new,
       events w' = events w ++ new
       /\ (attempts new <= Z.to_nat (init_maxiter so))%nat
       /\ forall s, r = Ok s ->
            s <> []
            /\ exists before Ap Ep ev,
                 new = before ++ [EvEigvals Ap Ep]
                 /\ eigvals Ap Ep = Returns ev
                 /\ s = filter stable ev
                 /\ forall Ap' Ep', In (EvEigvals Ap' Ep') before ->
                      exists ev', eigvals Ap' Ep' = Returns ev'
                                  /\ filter stable ev' = [].
Proof.
  intros H. unfold projection_shifts_init in H.
  destruct (init_loop_spec _ _ _ _ _ _ _ _ _ H) as [Hnf [Hne _]].
  split; [exact Hnf|].
  destruct (init_loop_trace _ _ _ _ _ _ _ _ _ H) as [new [Hev [Hatt Hok]]].
  exists new. split; [exact Hev|]. split; [exact Hatt|].
  intros s Hs. split; [exact (proj1 (Hne s Hs)) | exact (Hok s Hs)].
Qed.

(** The first pass of the initializer when the span of [B] has a stable
    eigenvalue, and the initializer without any pass. *)
Lemma init_quiet_start A E B so w r w' :
  stable_eigenvalues A E B <> [] ->
  projection_shifts_init A E B so w = (r, w') ->
  rng w' = rng w /\ seedings (events w') = seedings (events w)
  /\ solves (events w') = solves (events w)
  /\ r <> OutOfFuel.
Proof.
  intros Hst H. unfold projection_shifts_init in H.
  unfold stable_eigenvalues, projected_shifts in Hst.
  destruct (Z.to_nat (init_maxiter so)) as [|todo].
  - simpl in H. unfold raise in H. inversion H; subst.
    repeat split; auto; discriminate.
  - rewrite init_loop_S in H.
    destruct (gram_schmidt B) as [Q|e]; [|congruence]. cbv zeta in H.
    destruct (eigvals (apply2 A Q Q) (apply2 E Q Q)) as [ev|e]; [|congruence].
    destruct (List.length _ =? 0)%nat eqn:Hlen.
    + exfalso. apply Hst.
      destruct (filter stable ev); [reflexivity | discriminate].
    + inversion H; subst. simpl. rewrite seedings_app, solves_app. simpl.
      change (seedings [EvEigvals _ _]) with 0%nat.
      change (solves [EvEigvals _ _]) with 0%nat.
      repeat split; auto; try lia; discriminate.
Qed.

(** ** Side effects and cost of [lradi] *)

Lemma setup_event_counts l :
  Forall setup_event l -> solves l = 0%nat.
Proof.
  induction 1 as [|e l He _ IH]; [reflexivity|].
  change (e :: l) with ([e] ++ l). rewrite solves_app, IH.
  destruct e; simpl in He; try contradiction; reflexivity.
Qed.

Lemma body_effects env st w r w' :
  standard env ->
  lradi_body env st w = (r, w') ->
  rng w' = rng w
  /\ seedings (events w') = seedings (events w)
  /\ (solves (events w') <= solves (events w) + 1)%nat.
Proof.
  intros Hstd H. apply lradi_body_inv in H.
  destruct (getitem (st_shifts st) (st_j st)) as [s|e|];
    [| destruct H; subst; repeat split; auto; lia
     | destruct H; subst; repeat split; auto; lia].
  destruct H as [r1 [w1 [Hstep H]]].
  destruct (step_inv _ _ _ _ _ _ Hstep) as [Hev1 [Hrng1 _]].
  assert (H1 : rng w1 = rng w /\ seedings (events w1) = seedings (events w)
               /\ solves (events w1) = (solves (events w) + 1)%nat).
  { rewrite Hev1, seedings_app, solves_app. simpl.
    change (seedings [EvSolve _ _ _]) with 0%nat.
    change (solves [EvSolve _ _ _]) with 1%nat. repeat split; auto; lia. }
  destruct H1 as [Hr1 [Hs1 Hv1]].
  destruct r1 as [[[W' Z'] j']|e|];
    [| destruct H; subst; repeat split; auto; lia
     | destruct H; subst; repeat split; auto; lia].
  destruct H as [r2 [w2 [Href H]]].
  assert (H2 : rng w2 = rng w1 /\ seedings (events w2) = seedings (events w1)
               /\ solves (events w2) = solves (events w1)).
  { destruct (refresh_shifts_inv _ _ _ _ _ _ _ _ Hstd Href)
      as [[_ [_ ->]] | [_ [rp [Hp _]]]]; [auto|].
    assert (Hone : forall Ap Ep,
              events w2 = events w1 ++ [EvEigvals Ap Ep] ->
              seedings (events w2) = seedings (events w1)
              /\ solves (events w2) = solves (events w1)).
    { intros Ap Ep Hev. rewrite Hev, seedings_app, solves_app.
      change (seedings [EvEigvals Ap Ep]) with 0%nat.
      change (solves [EvEigvals Ap Ep]) with 0%nat. split; lia. }
    apply projection_shifts_inv in Hp. destruct rp as [sh|e|].
    - destruct Hp as [Ap [Ep [ev [Hev [Hrng _]]]]].
      destruct (Hone _ _ Hev). auto.
    - destruct Hp as [-> | [Ap [Ep [Hev [Hrng _]]]]]; [auto|].
      destruct (Hone _ _ Hev). auto.
    - contradiction. }
  destruct H2 as [Hr2 [Hs2 Hv2]].
  destruct r2 as [sh|e|];
    [| destruct H; subst; repeat split; try congruence; lia
     | destruct H; subst; repeat split; try congruence; lia].
  split_norm H; [| destruct H; subst; repeat split; try congruence; lia].
  destruct H as [_ [Hrng Hev]]. rewrite Hev, seedings_app, solves_app. simpl.
  change (seedings [EvInfo _ _]) with 0%nat.
  change (solves [EvInfo _ _]) with 0%nat.
  repeat split; try congruence; lia.
Qed.

Lemma setup_effects A E B trans options w r w' :
  lradi_setup A E B trans options w = (r, w') ->
  r <> OutOfFuel
  /\ solves (events w') = solves (events w)
  /\ (stable_eigenvalues A (initial_E A E) (initial_W B trans) <> [] ->
      rng w' = rng w /\ seedings (events w') = seedings (events w)).
Proof.
  intros H.
  destruct (lradi_setup_events _ _ _ _ _ _ _ _ H) as [Hnf [new [Hnew Fnew]]].
  split; [exact Hnf|]. split.
  - rewrite Hnew, solves_app, (setup_event_counts _ Fnew). lia.
  - intros Hst. apply lradi_setup_inv in H.
    destruct (dict_get (shift_options options) (shifts options)) as [so|e|];
      [| destruct H; subst; auto | destruct H; subst; auto].
    destruct (String.eqb (so_type so) "projection_shifts");
      [| destruct H; subst; auto].
    destruct H as [sp [reserve [_ H]]]. cbv zeta in H.
    assert (Hq : seedings (events w ++ [EvEmpty sp reserve]) = seedings (events w)).
    { rewrite seedings_app. change (seedings [EvEmpty sp reserve]) with 0%nat. lia. }
    destruct (empty sp reserve) as [Zf0|e].
    + destruct H as [ri [Hinit _]].
      destruct (init_quiet_start _ _ _ _ _ _ _ Hst Hinit) as [Hrng [Hseed _]].
      simpl in Hrng, Hseed. split; [exact Hrng | congruence].
    + destruct H as [_ ->]. simpl. auto.
Qed.

(** X10. If the projection onto the span of the initial [W] has a stable
    eigenvalue, [lradi] never seeds or uses the global random generator,
    whatever its outcome. *)
Theorem lradi_leaves_random_state_alone A E B trans options w r w' :
  stable_eigenvalues A (initial_E A E) (initial_W B trans) <> [] ->
  lradi A E B trans options w = (r, w') ->
  rng w' = rng w /\ seedings (events w') = seedings (events w).
Proof.
  intros Hst H. unfold lradi in H. apply bind_inv in H.
  destruct H as [[[env st] [w1 [Hset H]]] | [[e [Hset ->]] | [Hset ->]]];
    try (destruct (setup_effects _ _ _ _ _ _ _ _ Hset) as [_ [_ Hq]];
         exact (Hq Hst)).
  destruct (setup_effects _ _ _ _ _ _ _ _ Hset) as [_ [_ Hq]].
  destruct (Hq Hst) as [Hrng1 Hseed1].
  destruct (lradi_setup_ok _ _ _ _ _ _ _ _ _ Hset)
    as [so [sh [new [res0 [Zf0 [_ [Henv _]]]]]]].
  assert (Hstd : standard env) by (subst env; apply initial_env_standard).
  assert (Hbody : forall st0 w0 r0 w0',
            rng w0 = rng w /\ seedings (events w0) = seedings (events w) ->
            lradi_cond env st0 = true ->
            lradi_body env st0 w0 = (r0, w0') ->
            match r0 with
            | Ok _ => rng w0' = rng w /\ seedings (events w0') = seedings (events w)
            | _ => rng w0' = rng w /\ seedings (events w0') = seedings (events w)
            end).
  { intros st0 w0 r0 w0' [Ha Hb] _ Hrun.
    destruct (body_effects _ _ _ _ _ Hstd Hrun) as [Hc [Hd _]].
    destruct r0; split; congruence. }
  apply bind_inv in H.
  destruct H as [[st' [w2 [Hw H]]] | [[e [Hw ->]] | [Hw ->]]].
  - pose proof (lradi_while_rule env
      (fun _ w0 => rng w0 = rng w /\ seedings (events w0) = seedings (events w))
      (fun w0 => rng w0 = rng w /\ seedings (events w0) = seedings (events w))
      (fun _ _ H0 => H0) Hbody _ _ _ _ _ (conj Hrng1 Hseed1) Hw) as [[Ha Hb] _].
    rewrite lradi_finish_inv in H. inversion H; subst.
    destruct (PrimFloat.ltb _ _); [|auto]. simpl. rewrite seedings_app.
    change (seedings [EvWarning _ _ _]) with 0%nat. split; [exact Ha | lia].
  - exact (lradi_while_rule env
      (fun _ w0 => rng w0 = rng w /\ seedings (events w0) = seedings (events w))
      (fun w0 => rng w0 = rng w /\ seedings (events w0) = seedings (events w))
      (fun _ _ H0 => H0) Hbody _ _ _ _ _ (conj Hrng1 Hseed1) Hw).
  - exact (lradi_while_rule env
      (fun _ w0 => rng w0 = rng w /\ seedings (events w0) = seedings (events w))
      (fun w0 => rng w0 = rng w /\ seedings (events w0) = seedings (events w))
      (fun _ _ H0 => H0) Hbody _ _ _ _ _ (conj Hrng1 Hseed1) Hw).
Qed.

(** X11. [lradi] always ends, with a value or an exception, and whatever the
    outcome it has made at most [max(0, maxiter)] solves. *)
Theorem lradi_makes_at_most_maxiter_solves A E B trans options w r w' :
  lradi A E B trans options w = (r, w') ->
  r <> OutOfFuel
  /\ Z.of_nat (solves (events w'))
     <= Z.of_nat (solves (events w)) + Z.max 0 (maxiter options).
Proof.
  intros H. unfold lradi in H. apply bind_inv in H.
  destruct H as [[[env st] [w1 [Hset H]]] | [[e [Hset ->]] | [Hset ->]]];
    try (destruct (setup_effects _ _ _ _ _ _ _ _ Hset) as [Hnf [Hs _]];
         split; [try discriminate; try congruence | rewrite Hs; lia]).
  destruct (setup_effects _ _ _ _ _ _ _ _ Hset) as [_ [Hs1 _]].
  destruct (lradi_setup_ok _ _ _ _ _ _ _ _ _ Hset)
    as [so [sh [new [res0 [Zf0 [_ [Henv [Hst _]]]]]]]].
  assert (Hstd : standard env) by (subst env; apply initial_env_standard).
  assert (Hopt : env_options env = options) by (subst env; reflexivity).
  set (s0 := Z.of_nat (solves (events w))).
  set (M := Z.max 0 (maxiter options)).
  assert (Hbody : forall st0 w0 r0 w0',
            Z.of_nat (solves (events w0)) <= s0 + st_j st0
            /\ Z.of_nat (solves (events w0)) <= s0 + M ->
            lradi_cond env st0 = true ->
            lradi_body env st0 w0 = (r0, w0') ->
            match r0 with
            | Ok st1 => Z.of_nat (solves (events w0')) <= s0 + st_j st1
                        /\ Z.of_nat (solves (events w0')) <= s0 + M
            | _ => Z.of_nat (solves (events w0')) <= s0 + M
            end).
  { intros st0 w0 r0 w0' [Ha Hb] Hc Hrun.
    destruct (body_effects _ _ _ _ _ Hstd Hrun) as [_ [_ Hv]].
    unfold lradi_cond in Hc. apply andb_prop in Hc. destruct Hc as [_ Hc].
    rewrite Hopt in Hc.
    destruct r0 as [st1|e|]; try (unfold M; lia).
    destruct (lradi_body_progress _ _ _ _ _ Hstd Hrun) as [_ Hp].
    destruct (Hp st1 eq_refl) as [s [_ Hj]].
    destruct (eq0 (imag s)); unfold M; lia. }
  assert (Hinit : Z.of_nat (solves (events w1)) <= s0 + st_j st
                  /\ Z.of_nat (solves (events w1)) <= s0 + M).
  { rewrite Hs1. subst st. simpl. unfold s0, M. lia. }
  apply bind_inv in H.
  destruct H as [[st' [w2 [Hw H]]] | [[e [Hw ->]] | [Hw ->]]].
  - pose proof (lradi_while_rule env
      (fun st0 w0 => Z.of_nat (solves (events w0)) <= s0 + st_j st0
                     /\ Z.of_nat (solves (events w0)) <= s0 + M)
      (fun w0 => Z.of_nat (solves (events w0)) <= s0 + M)
      (fun _ _ H0 => proj2 H0) Hbody _ _ _ _ _ Hinit Hw) as [[_ Hb] _].
    rewrite lradi_finish_inv in H. inversion H; subst.
    split; [discriminate|].
    destruct (PrimFloat.ltb _ _); [|exact Hb]. simpl. rewrite solves_app.
    change (solves [EvWarning _ _ _]) with 0%nat.
    rewrite Nat.add_0_r. exact Hb.
  - split; [discriminate|].
    exact (lradi_while_rule env
      (fun st0 w0 => Z.of_nat (solves (events w0)) <= s0 + st_j st0
                     /\ Z.of_nat (solves (events w0)) <= s0 + M)
      (fun w0 => Z.of_nat (solves (events w0)) <= s0 + M)
      (fun _ _ H0 => proj2 H0) Hbody _ _ _ _ _ Hinit Hw).
  - exfalso. revert Hw. intros Hw.
    apply (lradi_while_fuel env Hstd _ _ _ _ _) in Hw; [congruence|].
    rewrite Hopt. subst st. simpl. lia.
Qed.

(** ** Ending the iteration *)

(** X12. With [maxiter <= 0] the initializer still runs, but no pass of the
    loop is made: [lradi] returns the empty [Z] it created, with the warning
    exactly when the initial residual exceeds [Btol]. *)
Theorem lradi_without_budget A E B trans options w env st0 w0 :
  maxiter options <= 0 ->
  lradi_setup A E B trans options w = (Ok (env, st0), w0) ->
  initial_Z A B trans options = Returns (st_Z st0)
  /\ exists w1,
       lradi A E B trans options w = (Ok (st_Z st0), w1)
       /\ solves (events w1) = solves (events w)
       /\ events w1 = events w0 ++
            (if PrimFloat.ltb (env_Btol env) (st_res st0)
             then [EvWarning (st_res st0 / env_init_res env)%float
                             (tol options) (maxiter options)]
             else []).
Proof.
  intros Hm Hset.
  destruct (lradi_setup_ok _ _ _ _ _ _ _ _ _ Hset)
    as [so [sh [new [res0 [Zf0 [_ [Henv [Hst [_ [_ [_ [_ [HZ0 _]]]]]]]]]]]]].
  destruct (setup_effects _ _ _ _ _ _ _ _ Hset) as [_ [Hs _]].
  assert (Hopt : env_options env = options) by (subst env; reflexivity).
  assert (HZ : initial_Z A B trans options = Returns (st_Z st0))
    by (subst st0; exact HZ0).
  split; [exact HZ|].
  assert (Hw : lradi_while env (Z.to_nat (maxiter options)) st0 w0 = (Ok st0, w0)).
  { replace (Z.to_nat (maxiter options)) with 0%nat by lia. simpl.
    unfold lradi_cond. rewrite Hopt.
    destruct (st_j st0 <? maxiter options) eqn:Hj;
      [subst st0; simpl in Hj; lia|].
    rewrite andb_false_r. reflexivity. }
  eexists. split; [|split].
  - unfold lradi. unfold bind at 1. rewrite Hset. unfold bind at 1. rewrite Hw.
    rewrite lradi_finish_inv. reflexivity.
  - destruct (PrimFloat.ltb _ _); [|exact Hs]. simpl. rewrite solves_app.
    change (solves [EvWarning _ _ _]) with 0%nat. lia.
  - rewrite Hopt. destruct (PrimFloat.ltb _ _); simpl;
      [reflexivity | rewrite app_nil_r; reflexivity].
Qed.

(** ** The shift index *)

Lemma well_paired_app : forall n a b,
  (List.length a <= n)%nat ->
  well_paired a = true -> well_paired b = true -> well_paired (a ++ b) = true.
Proof.
  induction n as [|n IH]; intros a b Hn Ha Hb.
  - destruct a; [exact Hb | simpl in Hn; lia].
  - destruct a as [|c a']; [exact Hb|].
    simpl in Ha |- *. destruct (lt0 (imag c)); [discriminate|].
    destruct (eq0 (imag c)).
    + apply IH; auto. simpl in Hn; lia.
    + destruct a' as [|c' a'']; [discriminate|]. simpl.
      apply andb_prop in Ha. destruct Ha as [H1 H2]. rewrite H1. simpl.
      apply IH; auto. simpl in Hn; lia.
Qed.

Lemma skipn_length_app {A} (a b : list A) : skipn (List.length a) (a ++ b) = b.
Proof. induction a; simpl; auto. Qed.

Lemma extended_paired prev eigs :
  well_paired (filter stable eigs) = true ->
  prev <> [] -> well_paired prev = true ->
  exists rest, extended prev eigs = prev ++ rest
               /\ rest <> [] /\ well_paired rest = true.
Proof.
  intros HP Hne Hwp. unfold extended.
  destruct (List.length (filter stable eigs) =? 0)%nat eqn:Hl.
  - exists prev. auto.
  - exists (filter stable eigs). repeat split; auto.
    intros Hnil. rewrite Hnil in Hl. discriminate.
Qed.

(** With the index in range the read of line 140 succeeds, the step stays
    within the shifts, and the index after the step is again at the start of
    a pair. *)
Lemma index_read st :
  index_in_range st ->
  exists s, getitem (st_shifts st) (st_j st) = Ok s
    /\ st_j st + Z.of_nat (stride s) <= st_size_shift st
    /\ well_paired (skipn (Z.to_nat (st_j st + Z.of_nat (stride s)))
                          (st_shifts st)) = true.
Proof.
  intros [Hsz [Hj [Hwp Hsk]]].
  destruct (getitem_nonneg (st_shifts st) (st_j st)) as [s [Hg Hn]]; [lia|].
  exists s. split; [exact Hg|].
  rewrite (skipn_nth _ _ _ Hn) in Hsk.
  remember (skipn (S (Z.to_nat (st_j st))) (st_shifts st)) as tl eqn:Htl.
  simpl in Hsk. destruct (lt0 (imag s)); [discriminate|].
  unfold stride. destruct (eq0 (imag s)).
  - split; [lia|].
    replace (Z.to_nat (st_j st + Z.of_nat 1)) with (S (Z.to_nat (st_j st))) by lia.
    rewrite <- Htl. exact Hsk.
  - destruct tl as [|c' tl']; [discriminate|].
    apply andb_prop in Hsk. destruct Hsk as [_ Hsk].
    assert (Hlen : List.length (c' :: tl')
                   = (List.length (st_shifts st) - S (Z.to_nat (st_j st)))%nat)
      by (rewrite Htl; apply length_skipn).
    simpl in Hlen. split; [lia|].
    replace (Z.to_nat (st_j st + Z.of_nat 2))
      with (1 + S (Z.to_nat (st_j st)))%nat by lia.
    rewrite <- skipn_skipn, <- Htl. exact Hsk.
Qed.

Lemma paired_eigvals_prefix l1 l2 :
  paired_eigvals (l1 ++ l2) -> paired_eigvals l1.
Proof.
  intros HP Ap Ep ev Hin Hev. apply (HP Ap Ep ev); [|exact Hev].
  apply in_or_app. left. exact Hin.
Qed.

Lemma body_grows env st w st' w' :
  standard env ->
  lradi_body env st w = (Ok st', w') ->
  exists log, events w' = events w ++ log.
Proof.
  intros Hstd Hb. apply lradi_body_inv in Hb.
  destruct (getitem (st_shifts st) (st_j st)) as [s|e|];
    [| destruct Hb; discriminate | destruct Hb; discriminate].
  destruct Hb as [r1 [w1 [Hstep H]]].
  destruct (step_inv _ _ _ _ _ _ Hstep) as [Hev1 _].
  destruct r1 as [[[W' Z'] j']|e|];
    [| destruct H; discriminate | destruct H; discriminate].
  destruct H as [r2 [w2 [Href H]]].
  destruct r2 as [sh|e|];
    [| destruct H; discriminate | destruct H; discriminate].
  split_norm H; [| destruct H; discriminate].
  destruct H as [_ [_ Hev]].
  assert (H2 : exists l, events w2 = events w1 ++ l).
  { destruct (refresh_shifts_inv _ _ _ _ _ _ _ _ Hstd Href)
      as [[_ [_ ->]] | [_ [rp [Hp _]]]].
    - exists []. rewrite app_nil_r. reflexivity.
    - apply projection_shifts_inv in Hp. destruct rp as [x|e|].
      + destruct Hp as [Ap [Ep [ev [Hp _]]]]. eauto.
      + destruct Hp as [-> | [Ap [Ep [Hp _]]]];
          [exists []; rewrite app_nil_r; reflexivity | eauto].
      + contradiction. }
  destruct H2 as [l H2]. eexists.
  rewrite Hev, H2, Hev1, <- !app_assoc. reflexivity.
Qed.

Lemma passes_grows env st w st' w' :
  standard env ->
  passes env st w st' w' ->
  exists log, events w' = events w ++ log.
Proof.
  intros Hstd. induction 1 as [st w | st w st1 w1 st2 w2 Hc Hb _ IH].
  - exists []. rewrite app_nil_r. reflexivity.
  - destruct IH as [l2 Hl2]. destruct (body_grows _ _ _ _ _ Hstd Hb) as [l1 Hl1].
    eexists. rewrite Hl2, Hl1, <- app_assoc. reflexivity.
Qed.

(** A pass that returns keeps the index in range, when the eigenvalues it
    may have computed came in adjacent pairs. *)
Lemma body_index env st w st' w' :
  standard env -> index_in_range st ->
  lradi_body env st w = (Ok st', w') ->
  paired_eigvals (events w') ->
  index_in_range st'.
Proof.
  intros Hstd HI H HP.
  destruct (index_read st HI) as [s [Hg [Hb Hsk]]].
  destruct HI as [Hsz [Hj [Hwp _]]].
  apply lradi_body_inv in H. rewrite Hg in H.
  destruct H as [r1 [w1 [Hstep H]]].
  destruct r1 as [[[W' Z'] j']|e|];
    [| destruct H; discriminate | destruct H; discriminate].
  pose proof (step_advance _ _ _ _ _ _ _ _ Hstep) as Hj'.
  destruct (step_inv _ _ _ _ _ _ Hstep) as [Hev1 _].
  assert (Hj2 : j' = st_j st + Z.of_nat (stride s))
    by (rewrite Hj'; unfold stride; destruct (eq0 (imag s)); reflexivity).
  clear Hj'. rewrite <- Hj2 in Hb, Hsk.
  assert (Hpos : st_j st < j')
    by (rewrite Hj2; unfold stride; destruct (eq0 (imag s)); lia).
  destruct H as [r2 [w2 [Href H]]].
  destruct (refresh_shifts_inv _ _ _ _ _ _ _ _ Hstd Href)
    as [[Hlt [-> Hw2]] | [Hge [rp [Hp ->]]]].
  - split_norm H; [| destruct H; discriminate].
    destruct H as [Hst [_ Hev]]. inversion Hst; subst st'.
    unfold index_in_range. simpl. repeat split; auto; lia.
  - pose proof (projection_shifts_inv _ _ _ _ _ _ _ _ _ Hp) as Hinv.
    destruct rp as [sh|e|];
      [| destruct H; discriminate | destruct H; discriminate].
    split_norm H; [| destruct H; discriminate].
    destruct H as [Hst [_ Hev]]. inversion Hst; subst st'. clear Hst.
    destruct Hinv as [Ap [Ep [ev [Hev2 [_ [Heig Hsh]]]]]].
    assert (Hpair : well_paired (filter stable ev) = true).
    { apply (HP Ap Ep ev); [|exact Heig].
      rewrite Hev, Hev2. apply in_or_app. left. apply in_or_app. right.
      left. reflexivity. }
    assert (Hne : st_shifts st <> [])
      by (intros Hnil; rewrite Hnil in Hsz; simpl in Hsz; lia).
    destruct (extended_paired (st_shifts st) ev Hpair Hne Hwp)
      as [rest [Hext [Hrest Hwr]]].
    rewrite Hext in Hsh. subst sh.
    unfold index_in_range. simpl.
    assert (Hj' : Z.to_nat j' = List.length (st_shifts st)) by lia.
    rewrite Hj', skipn_length_app, length_app.
    repeat split; auto; try lia.
    + destruct rest; [congruence | simpl; lia].
    + apply (well_paired_app (List.length (st_shifts st))); auto.
Qed.

Lemma setup_index A E B trans options w env st w' :
  lradi_setup A E B trans options w = (Ok (env, st), w') ->
  paired_eigvals (events w') ->
  index_in_range st.
Proof.
  intros H HP. apply lradi_setup_inv in H.
  destruct (dict_get (shift_options options) (shifts options)) as [so|e|];
    [| destruct H; discriminate | destruct H; discriminate].
  destruct (String.eqb (so_type so) "projection_shifts");
    [| destruct H; discriminate].
  destruct H as [sp [reserve [_ H]]]. cbv zeta in H.
  destruct (empty sp reserve) as [Zf0|e]; [| destruct H; discriminate].
  destruct H as [ri [Hinit Hr]].
  destruct ri as [sh|e|]; try discriminate.
  destruct (norm2 (gramian (initial_W B trans))) as [res|e]; [|discriminate].
  inversion Hr; subst. clear Hr.
  unfold projection_shifts_init in Hinit.
  destruct (init_loop_spec _ _ _ _ _ _ _ _ _ Hinit) as [_ [Hne _]].
  destruct (Hne sh eq_refl) as [Hsh _].
  destruct (init_loop_trace _ _ _ _ _ _ _ _ _ Hinit) as [new [Hev [_ Hok]]].
  destruct (Hok sh eq_refl) as [before [Ap [Ep [ev [Hnew [Heig [Hs _]]]]]]].
  assert (Hwp : well_paired sh = true).
  { rewrite Hs. apply (HP Ap Ep ev); [|exact Heig].
    rewrite Hev, Hnew. apply in_or_app. right. apply in_or_app. right.
    left. reflexivity. }
  unfold index_in_range, initial_state; simpl.
  repeat split; auto; try lia. destruct sh; [congruence | simpl; lia].
Qed.

Lemma passes_index env st w st' w' :
  standard env ->
  passes env st w st' w' ->
  paired_eigvals (events w') ->
  index_in_range st ->
  index_in_range st'.
Proof.
  intros Hstd. induction 1 as [st w | st w st1 w1 st2 w2 Hc Hb Hp IH];
    intros HP HI; [exact HI|].
  destruct (passes_grows _ _ _ _ _ Hstd Hp) as [l2 Hl2].
  assert (HP1 : paired_eigvals (events w1))
    by (apply (paired_eigvals_prefix _ l2); rewrite <- Hl2; exact HP).
  apply (IH HP). exact (body_index _ _ _ _ _ Hstd HI Hb HP1).
Qed.

(** X15. In a run in which every call of [spla.eigvals] that returned gave
    conjugate pairs adjacent, both members of a pair on the same side of the
    stability filter, the read [shifts[j]] of line 140 does not fail: at
    every loop head reached [size_shift] is the number of shifts,
    [0 <= j < size_shift], and the step for [shifts[j]] ends at or before
    [size_shift], so that [projection_shifts] is called exactly when [j]
    equals [size_shift]. *)
Theorem shift_index_stays_in_range A E B trans options w env st0 w0 st w1 :
  lradi_setup A E B trans options w = (Ok (env, st0), w0) ->
  passes env st0 w0 st w1 ->
  paired_eigvals (events w1) ->
  st_size_shift st = Z.of_nat (List.length (st_shifts st))
  /\ 0 <= st_j st < st_size_shift st
  /\ exists s, getitem (st_shifts st) (st_j st) = Ok s
       /\ st_j st + Z.of_nat (stride s) <= st_size_shift st.
Proof.
  intros Hset Hp HP.
  destruct (lradi_setup_ok _ _ _ _ _ _ _ _ _ Hset)
    as [so [sh [new [res0 [Zf0 [_ [Henv _]]]]]]].
  assert (Hstd : standard env) by (subst env; apply initial_env_standard).
  destruct (passes_grows _ _ _ _ _ Hstd Hp) as [l Hl].
  assert (HP0 : paired_eigvals (events w0))
    by (apply (paired_eigvals_prefix _ l); rewrite <- Hl; exact HP).
  pose proof (passes_index _ _ _ _ _ Hstd Hp HP
                (setup_index _ _ _ _ _ _ _ _ _ Hset HP0)) as HI.
  destruct (index_read st HI) as [s [Hg [Hb _]]].
  destruct HI as [Hsz [Hj _]]. eauto.
Qed.

(** ** The step for a real shift, and real arithmetic throughout *)

(** X17. For a shift [s] with zero imaginary part a pass of the loop solves
    with [A + Re(s) E] (adjoint solve for [trans]), replaces [W] by
    [W - E(V) (2 Re s)], appends [V sqrt(-2 Re s)] to [Z], advances [j] by 1,
    recomputes [res] from the new [W] and ends by logging the step. *)
Theorem real_step_is_one_solve env st w st' w' s :
  standard env ->
  lradi_body env st w = (Ok st', w') ->
  getitem (st_shifts st) (st_j st) = Ok s ->
  eq0 (imag s) = true ->
  exists V,
    raw_solve env (LincombOperator [env_A env; env_E env] [Int 1; Float (real s)])
      (st_W st) = Returns V
    /\ st_W st' = va_sub (st_W st) (va_mul (apply_E env V) (2 * real s)%float)
    /\ st_Z st' = append (st_Z st) (va_mul V (sqrt (-2 * real s))%float)
    /\ st_j st' = st_j st + 1
    /\ norm2 (gramian (st_W st')) = Returns (st_res st')
    /\ exists log,
         events w' = events w
           ++ EvSolve (env_trans env)
                (LincombOperator [env_A env; env_E env] [Int 1; Float (real s)])
                (st_W st)
           :: log ++ [EvInfo (st_j st') (st_res st' / env_init_res env)%float]
         /\ (st_j st + 1 < st_size_shift st -> log = []).
Proof.
  intros Hstd H Hg Hs. apply lradi_body_inv in H.
  rewrite Hg, Hs in H. destruct H as [r1 [w1 [Hstep H]]].
  destruct r1 as [[[W' Z'] j']|e|];
    [| destruct H; discriminate | destruct H; discriminate].
  destruct H as [r2 [w2 [Href H]]].
  destruct r2 as [sh|e|];
    [| destruct H; discriminate | destruct H; discriminate].
  split_norm H; [| destruct H; discriminate].
  destruct H as [Hst [_ Hev]]. inversion Hst; subst st'. simpl.
  apply real_step_inv in Hstep.
  destruct Hstep as [Hev1 [_ [V [HV [HW [HZ Hj]]]]]]. exists V.
  repeat split; auto.
  assert (Hlog : exists log, events w2 = events w1 ++ log
                             /\ (j' < st_size_shift st -> log = [])).
  { destruct (refresh_shifts_inv _ _ _ _ _ _ _ _ Hstd Href)
      as [[_ [_ ->]] | [Hge [rp [Hp Hrp]]]].
    - exists []. rewrite app_nil_r. auto.
    - apply projection_shifts_inv in Hp.
      destruct rp as [sh'|e|]; [| discriminate Hrp | contradiction].
      destruct Hp as [Ap [Ep [ev [Hp _]]]]. exists [EvEigvals Ap Ep].
      split; [exact Hp | lia]. }
  destruct Hlog as [log [Hlog Hnil]]. exists log. split.
  - rewrite Hev, Hlog, Hev1, <- !app_assoc. reflexivity.
  - subst j'. exact Hnil.
Qed.

Lemma body_real env st w st' w' :
  RealLaws (env_A env) (env_E env) ->
  is_real (st_Z st) = true /\ is_real (st_W st) = true ->
  lradi_body env st w = (Ok st', w') ->
  is_real (st_Z st') = true /\ is_real (st_W st') = true.
Proof.
  intros R [HZ HW] H. apply lradi_body_inv in H.
  destruct (getitem (st_shifts st) (st_j st)) as [s|e|];
    [| destruct H; discriminate | destruct H; discriminate].
  destruct H as [r1 [w1 [Hstep H]]].
  destruct r1 as [[[W' Z'] j']|e|];
    [| destruct H; discriminate | destruct H; discriminate].
  destruct H as [r2 [w2 [_ H]]].
  destruct r2 as [sh|e|];
    [| destruct H; discriminate | destruct H; discriminate].
  split_norm H; [| destruct H; discriminate].
  destruct H as [Hst _]. inversion Hst; subst st'. simpl.
  exact (step_real _ _ _ _ _ _ _ _ R HZ HW Hstep).
Qed.

Lemma passes_real env st w st' w' :
  RealLaws (env_A env) (env_E env) ->
  passes env st w st' w' ->
  is_real (st_Z st) = true /\ is_real (st_W st) = true ->
  is_real (st_Z st') = true /\ is_real (st_W st') = true.
Proof.
  intros R. induction 1 as [st w | st w st1 w1 st2 w2 Hc Hb _ IH]; intros H0;
    [exact H0|].
  apply IH. exact (body_real _ _ _ _ _ R H0 Hb).
Qed.

(** X18. For real operators, a real right-hand side and a real empty array,
    the factor [Z] that [lradi] returns is real-valued, whatever complex
    shifts were used on the way. *)
Theorem lradi_returns_real_factor A E B trans options w Zf w' :
  RealLaws A (initial_E A E) ->
  is_real (initial_W B trans) = true ->
  (forall Zf0, initial_Z A B trans options = Returns Zf0 -> is_real Zf0 = true) ->
  lradi A E B trans options w = (Ok Zf, w') ->
  is_real Zf = true.
Proof.
  intros R HW HZ H. unfold lradi in H. apply bind_ok_inv in H.
  destruct H as [[env st0] [w0 [Hset H]]].
  destruct (lradi_setup_ok _ _ _ _ _ _ _ _ _ Hset)
    as [so [sh [new [res0 [Zf0 [_ [Henv [Hst [_ [_ [_ [_ [HZ0 _]]]]]]]]]]]]].
  apply bind_ok_inv in H. destruct H as [st [w1 [Hw H]]].
  rewrite lradi_finish_inv in H. inversion H; subst Zf. clear H.
  apply while_passes in Hw. destruct Hw as [Hp _].
  assert (R' : RealLaws (env_A env) (env_E env)) by (subst env; exact R).
  assert (H0 : is_real (st_Z st0) = true /\ is_real (st_W st0) = true)
    by (subst st0; simpl; split; [exact (HZ _ HZ0) | exact HW]).
  exact (proj1 (passes_real _ _ _ _ _ R' Hp H0)).
Qed.

End FurtherProperties.

(** ** Concrete runs of the further properties *)

Lemma solve_lyap_checks_arguments_first_witness :
  ~ @well_posed Scalar.nonlinear_backend Scalar.A1 None Scalar.B1 false
  /\ @solve_lyap Scalar.nonlinear_backend Scalar.A1 None Scalar.B1 false None
       (@Build_World Scalar.nonlinear_backend 0 [])
     = (Raise AssertionError, @Build_World Scalar.nonlinear_backend 0 []).
Proof.
  assert (H : ~ @well_posed Scalar.nonlinear_backend Scalar.A1 None Scalar.B1 false)
    by (intros [Hl _]; discriminate Hl).
  split; [exact H|].
  exact (proj2 (@solve_lyap_checks_arguments_first Scalar.nonlinear_backend
                  Scalar.A1 None Scalar.B1 false) H None _).
Defined.

Lemma lyap_solver_options_know_one_strategy_witness :
  exists options,
    dict_get (lyap_solver_options_with 1e-10 500 "wachspress" 1 20 None true) "lradi"
    = Ok options
    /\ @lradi Scalar.real_backend Scalar.A1 None Scalar.B1 false options
         (Scalar.world0 _)
       = (Raise (KeyError "wachspress"), Scalar.world0 _).
Proof.
  destruct (@lyap_solver_options_know_one_strategy Scalar.real_backend
              1e-10%float 500 "wachspress" 1 20 None true)
    as [options [Hd [_ Hk]]].
  exists options. split; [exact Hd|].
  apply Hk. intros H. discriminate H.
Defined.

Lemma projection_shifts_effects_witness :
  (exists s w',
     @projection_shifts Scalar.real_backend Scalar.A1 (IdentityOperator tt)
       (Scalar.column 1) (Scalar.column 1) [Complex (-1) 0]
       (Scalar.shift_options1 1 None false) (Scalar.world0 _) = (Ok s, w')
     /\ rng w' = rng (Scalar.world0 [Complex (-1) 0])
     /\ solves (events w') = solves (events (Scalar.world0 [Complex (-1) 0]))
     /\ attempts (events w')
        = (attempts (events (Scalar.world0 [Complex (-1) 0])) + 1)%nat)
  /\ @projection_shifts Scalar.real_backend Scalar.A1 (IdentityOperator tt)
       (Scalar.column 0) (Scalar.column 1) [Complex (-1) 0]
       (Scalar.shift_options1 1 None false) (Scalar.world0 _)
     = (Raise AccuracyError, Scalar.world0 _).
Proof.
  split; [|vm_compute; reflexivity].
  assert (Hrun : exists s w',
            @projection_shifts Scalar.real_backend Scalar.A1 (IdentityOperator tt)
              (Scalar.column 1) (Scalar.column 1) [Complex (-1) 0]
              (Scalar.shift_options1 1 None false) (Scalar.world0 _) = (Ok s, w'))
    by (do 2 eexists; vm_compute; reflexivity).
  destruct Hrun as [s [w' Hrun]]. exists s, w'. split; [exact Hrun|].
  destruct (@projection_shifts_effects Scalar.real_backend _ _ _ _ _ _ _ _ _ Hrun)
    as [Hr [Hs [_ Ha]]].
  split; [exact Hr|]. split; [exact Hs | exact Ha].
Defined.

Lemma explicit_strategy_extends_witness :
  exists rest w',
    @projection_shifts Scalar.real_backend Scalar.A1 (IdentityOperator tt)
      (Scalar.column 1) (Scalar.column 1) [Complex (-1) 0]
      (Scalar.shift_options1 1 None false) (Scalar.world0 _)
    = (Ok ([Complex (-1) 0] ++ rest), w')
    /\ rest <> [].
Proof.
  destruct (@explicit_strategy_extends Scalar.real_backend
              Scalar.A1 (IdentityOperator tt) (Scalar.column 1) (Scalar.column 1)
              [Complex (-1) 0] (Scalar.shift_options1 1 None false) (Scalar.world0 _)
              eq_refl ltac:(cbv; intros H; discriminate H) ltac:(discriminate))
    as [u [d [Hwin Hrun]]].
  vm_compute in Hwin. inversion Hwin; subst u d.
  destruct Hrun as [rest [w' [Hrun [Hne _]]]].
  exists rest, w'. split; [exact Hrun | exact Hne].
Defined.

Lemma default_window_blocks_witness :
  exists u d,
    projection_window (Scalar.shift_options1 1 None true) Scalar.conjugate_pair
    = Ok (u, d)
    /\ u = 2 /\ d = 1
    /\ rbind (zeros u u) (fun B0 =>
       rbind (zeros u 1) (fun G0 =>
         @implicit_blocks Scalar.pair_backend (Z.to_nat u) Scalar.conjugate_pair d u
           (filter (fun k => k >=? d)
              (np_where (fun c => eq0 (imag c)) Scalar.conjugate_pair))
           (filter (fun k => k >=? d)
              (np_where (fun c => gt0 (imag c)) Scalar.conjugate_pair))
           0 B0 G0))
       = Ok ([[-2; - sqrt 2]; [sqrt 2; 0]], [[sqrt 2]; [0]])%float.
Proof.
  destruct (@default_window_blocks Scalar.pair_backend
              (Scalar.shift_options1 1 None true)
              Scalar.conjugate_pair (Complex (-1) (-1)) eq_refl eq_refl eq_refl)
    as [u [d [Hw [Hu [Hd Hb]]]]].
  exists u, d. split; [exact Hw|]. split; [exact Hu|]. split; [exact Hd|]. exact Hb.
Defined.


Lemma initializer_returns_first_stable_witness :
  exists s w' new,
    @projection_shifts_init Scalar.real_backend Scalar.A1 (IdentityOperator tt)
      (Scalar.column 1) (Scalar.shift_options1 1 None true) (Scalar.world0 _)
    = (Ok s, w')
    /\ s <> []
    /\ events w' = events (Scalar.world0 [Complex (-1) 0]) ++ new
    /\ (attempts new
        <= Z.to_nat (init_maxiter (Scalar.shift_options1 1 None true)))%nat.
Proof.
  assert (Hrun : exists s w',
            @projection_shifts_init Scalar.real_backend Scalar.A1
              (IdentityOperator tt) (Scalar.column 1)
              (Scalar.shift_options1 1 None true) (Scalar.world0 _) = (Ok s, w'))
    by (do 2 eexists; vm_compute; reflexivity).
  destruct Hrun as [s [w' Hrun]].
  destruct (@initializer_returns_first_stable Scalar.real_backend _ _ _ _ _ _ _ Hrun)
    as [_ [new [Hev [Hle Hok]]]].
  exists s, w', new. split; [exact Hrun|].
  split; [exact (proj1 (Hok s eq_refl))|]. split; [exact Hev | exact Hle].
Defined.

Lemma lradi_leaves_random_state_alone_witness :
  rng (snd (@lradi Scalar.real_backend Scalar.A1 None Scalar.B1 false
              (Scalar.options 10 1 true) (Scalar.world0 _)))
  = rng (Scalar.world0 [Complex (-1) 0])
  /\ seedings (events (snd (@lradi Scalar.real_backend Scalar.A1 None Scalar.B1
                               false (Scalar.options 10 1 true) (Scalar.world0 _))))
     = seedings (events (Scalar.world0 [Complex (-1) 0])).
Proof.
  exact (@lradi_leaves_random_state_alone Scalar.real_backend
           Scalar.A1 None Scalar.B1 false (Scalar.options 10 1 true)
           (Scalar.world0 _) _ _
           ltac:(vm_compute; discriminate) (surjective_pairing _)).
Defined.

Lemma lradi_makes_at_most_maxiter_solves_witness :
  fst (@lradi Scalar.pair_backend Scalar.A1 None Scalar.B1 false
         (Scalar.options 10 1 true) (Scalar.world0 _)) <> OutOfFuel
  /\ Z.of_nat (solves (events (snd (@lradi Scalar.pair_backend Scalar.A1 None
                                      Scalar.B1 false (Scalar.options 10 1 true)
                                      (Scalar.world0 _)))))
     <= Z.of_nat (solves (events (Scalar.world0 Scalar.conjugate_pair)))
        + Z.max 0 (maxiter (Scalar.options 10 1 true)).
Proof.
  exact (@lradi_makes_at_most_maxiter_solves Scalar.pair_backend
           Scalar.A1 None Scalar.B1 false (Scalar.options 10 1 true)
           (Scalar.world0 _) _ _ (surjective_pairing _)).
Defined.

Lemma lradi_without_budget_witness :
  exists w1,
    @lradi Scalar.pair_backend Scalar.A1 None Scalar.B1 false
      (Scalar.options 0 1 false) (Scalar.world0 _)
    = (Ok Scalar.no_vector, w1)
    /\ solves (events w1) = solves (events (Scalar.world0 Scalar.conjugate_pair)).
Proof.
  assert (Hset : exists sh w0,
            @lradi_setup Scalar.pair_backend Scalar.A1 None Scalar.B1 false
              (Scalar.options 0 1 false) (Scalar.world0 _)
            = (Ok (@initial_env Scalar.pair_backend Scalar.A1 None false
                     (Scalar.options 0 1 false) (Scalar.shift_options1 1 None false)
                     1,
                   @initial_state Scalar.pair_backend Scalar.no_vector
                     (@initial_W Scalar.pair_backend Scalar.B1 false) sh 1), w0)).
  { do 2 eexists. apply (@lradi_setup_run Scalar.pair_backend);
      [reflexivity | reflexivity | reflexivity
      | vm_compute; reflexivity | reflexivity]. }
  destruct Hset as [sh [w0 Hset]].
  destruct (@lradi_without_budget Scalar.pair_backend Scalar.A1 None Scalar.B1
              false (Scalar.options 0 1 false) (Scalar.world0 _) _ _ _
              ltac:(cbv; intros H; discriminate H) Hset)
    as [_ [w1 [Hl [Hs _]]]].
  exists w1. split; [exact Hl | exact Hs].
Defined.

Lemma shift_index_stays_in_range_witness :
  exists st w1,
    lradi_body Scalar.env1 Scalar.state1 Scalar.world1 = (Ok st, w1)
    /\ st_size_shift st = Z.of_nat (List.length (st_shifts st))
    /\ 0 <= st_j st < st_size_shift st.
Proof.
  assert (Hset : @lradi_setup Scalar.pair_backend Scalar.A1 None Scalar.B1 false
                   (Scalar.options 1 1 false) (Scalar.world0 _)
                 = (Ok (Scalar.env1, Scalar.state1), Scalar.world1)).
  { apply (@lradi_setup_run Scalar.pair_backend);
      [reflexivity | reflexivity | reflexivity
      | vm_compute; reflexivity | reflexivity]. }
  assert (Hc : lradi_cond Scalar.env1 Scalar.state1 = true)
    by (vm_compute; reflexivity).
  assert (Hb : exists st w1,
            lradi_body Scalar.env1 Scalar.state1 Scalar.world1 = (Ok st, w1))
    by (do 2 eexists; vm_compute; reflexivity).
  destruct Hb as [st [w1 Hb]]. exists st, w1. split; [exact Hb|].
  assert (HP : @paired_eigvals Scalar.pair_backend (events w1)).
  { intros Ap Ep ev _ Hev. simpl in Hev. inversion Hev. reflexivity. }
  destruct (@shift_index_stays_in_range Scalar.pair_backend Scalar.A1 None
              Scalar.B1 false (Scalar.options 1 1 false) (Scalar.world0 _)
              Scalar.env1 Scalar.state1 Scalar.world1 st w1 Hset
              (passes_more _ _ _ _ _ _ _ Hc Hb (passes_none _ _ _)) HP)
    as [Hsz [Hj _]].
  split; [exact Hsz | exact Hj].
Defined.

Lemma real_step_is_one_solve_witness :
  exists st' w' V,
    lradi_body Scalar.env_real Scalar.state_real (Scalar.world0 _) = (Ok st', w')
    /\ st_Z st' = @append Scalar.real_backend (st_Z Scalar.state_real)
                    (@va_mul Scalar.real_backend V (sqrt (-2 * -1))%float)
    /\ st_j st' = st_j Scalar.state_real + 1.
Proof.
  assert (Hrun : exists st' w',
            lradi_body Scalar.env_real Scalar.state_real (Scalar.world0 _)
            = (Ok st', w'))
    by (do 2 eexists; vm_compute; reflexivity).
  destruct Hrun as [st' [w' Hrun]].
  destruct (@real_step_is_one_solve Scalar.real_backend Scalar.env_real
              Scalar.state_real (Scalar.world0 _) st' w' (Complex (-1) 0)
              eq_refl Hrun eq_refl eq_refl)
    as [V [_ [_ [HZ [Hj _]]]]].
  exists st', w', V. split; [exact Hrun|]. split; [exact HZ | exact Hj].
Defined.

Lemma lradi_returns_real_factor_witness :
  exists Zf w',
    @lradi Scalar.pair_backend Scalar.A1 None Scalar.B1 false
      (Scalar.options 1 1 false) (Scalar.world0 _) = (Ok Zf, w')
    /\ @is_real Scalar.pair_backend Zf = true.
Proof.
  assert (Hrun : exists Zf w',
            @lradi Scalar.pair_backend Scalar.A1 None Scalar.B1 false
              (Scalar.options 1 1 false) (Scalar.world0 _) = (Ok Zf, w'))
    by (do 2 eexists; vm_compute; reflexivity).
  destruct Hrun as [Zf [w' Hrun]]. exists Zf, w'. split; [exact Hrun|].
  exact (@lradi_returns_real_factor Scalar.pair_backend Scalar.A1 None Scalar.B1
           false (Scalar.options 1 1 false) (Scalar.world0 _) Zf w'
           (scalar_real_laws Scalar.conjugate_pair Scalar.A1 (IdentityOperator tt)
              eq_refl eq_refl) eq_refl
           ltac:(intros Zf0 H; vm_compute in H; inversion H; reflexivity) Hrun).
Defined.

